(** * Ganoderma paper RAG system: structure extraction, chunking, retrieval

    A shallow embedding of the three core stages of the repository,

      - [src/processors/pdf_parser.py]   ([PDFParser._is_heading],
        [PDFParser._extract_structure], [PDFParser._clean_text],
        [PDFParser.extract_abstract]),
      - [src/processors/text_chunker.py] ([TextChunker]),
      - [src/rag/retriever.py]           ([SimpleRetriever]),

    followed by the properties the specification states about them.

    Python [str] values are lists of Unicode code points, so that [len]
    counts characters as Python does (the bilingual keyword table of the
    retriever depends on it).  White space is the full set of code
    points Python treats as such.  Case mapping ([str.lower],
    [str.isupper], [re.IGNORECASE]) and [\d] come from the Unicode
    tables of the interpreter: the modules [PdfParser], [Retriever] and
    [PdfText] have them on the ASCII range, where the functions can be
    run on examples; the modules [PdfParserU], [RetrieverU] and
    [PdfTextU] are the same functions over a record of these tables
    ([Unicode.tables]), and what is proved of them holds whatever the
    tables are.  Python dictionaries with string keys are
    [gmap string value]. *)

From Stdlib Require Import ZArith QArith Ascii String.
From stdpp Require Import gmap strings list fin_maps sorting.

Local Open Scope Z_scope.

(* ===================================================================== *)
(** ** Python values and outcomes *)
(* ===================================================================== *)

(** A Python [str]: the list of its code points. *)
Abbreviation str := (list N).

(** [u "abc"] is the Python literal ['abc'] (ASCII literals only). *)
Definition u (s : string) : str :=
  (fun a => Ascii.N_of_ascii a) <$> String.list_ascii_of_string s.

(** The values stored in chunk dictionaries: text and integers. *)
Inductive value :=
  | VStr (s : str)
  | VInt (z : Z).

#[global] Instance value_eq_dec : EqDecision value.
Proof. solve_decision. Defined.

(** A Python [dict] with string keys. *)
Abbreviation dict := (gmap string value).

(** Exceptions the modelled code can raise. *)
Inductive exn :=
  | AttributeError
  | ValueError.

(** The result of a call: a returned value or a raised exception. *)
Inductive outcome (A : Type) :=
  | Returns (a : A)
  | Raises (e : exn).
Arguments Returns {A} a.
Arguments Raises {A} e.

(** Sequencing: an exception raised by the first call is propagated. *)
#[global] Instance outcome_ret : MRet outcome := fun A a => Returns a.
#[global] Instance outcome_bind : MBind outcome := fun A B k m =>
  match m with
  | Returns a => k a
  | Raises e => Raises e
  end.

(* ===================================================================== *)
(** ** Text primitives ([str] methods) *)
(* ===================================================================== *)

Module Text.

(** [len(s)] as a Python integer. *)
Definition len (s : str) : Z := Z.of_nat (length s).

Definition in_range (lo hi c : N) : bool := ((lo <=? c) && (c <=? hi))%N.

(** [c.isspace()]: the code points Python splits and strips on. *)
Definition isspace (c : N) : bool :=
  in_range 9 13 c || in_range 28 32 c || (c =? 133)%N || (c =? 160)%N
  || (c =? 5760)%N || in_range 8192 8202 c || (c =? 8232)%N || (c =? 8233)%N
  || (c =? 8239)%N || (c =? 8287)%N || (c =? 12288)%N.

Definition is_upper_cp (c : N) : bool := in_range 65 90 c.
Definition is_lower_cp (c : N) : bool := in_range 97 122 c.
Definition is_digit_cp (c : N) : bool := in_range 48 57 c.

Definition lower_cp (c : N) : N := if is_upper_cp c then (c + 32)%N else c.
Definition upper_cp (c : N) : N := if is_lower_cp c then (c - 32)%N else c.

(** [s.lower()], on the ASCII range: the letters A-Z are mapped. *)
Definition lower (s : str) : str := lower_cp <$> s.

(** [s.isupper()], on the ASCII range: some letter A-Z, and no letter
    a-z. *)
Definition isupper (s : str) : bool :=
  existsb is_upper_cp s && forallb (fun c => negb (is_lower_cp c)) s.

Fixpoint lstrip (s : str) : str :=
  match s with
  | [] => []
  | c :: s' => if isspace c then lstrip s' else s
  end.

Definition rstrip (s : str) : str := rev (lstrip (rev s)).

(** [s.strip()] *)
Definition strip (s : str) : str := rstrip (lstrip s).

(** The truth value of a string: non-empty. *)
Definition nonempty (s : str) : bool :=
  match s with [] => false | _ => true end.

(** [s.split()]: maximal runs of non-space characters.  [cur] holds the
    run being read, last character first. *)
Fixpoint split_from (s : str) (cur : str) : list str :=
  match s with
  | [] => match cur with [] => [] | _ => [rev cur] end
  | c :: s' =>
      if isspace c
      then match cur with
           | [] => split_from s' []
           | _ => rev cur :: split_from s' []
           end
      else split_from s' (c :: cur)
  end.

Definition split (s : str) : list str := split_from s [].

(** [sep.join(l)] *)
Fixpoint join (sep : str) (l : list str) : str :=
  match l with
  | [] => []
  | [s] => s
  | s :: l' => s ++ sep ++ join sep l'
  end.

(** [s.startswith(p)] *)
Fixpoint startswith (p s : str) : bool :=
  match p, s with
  | [], _ => true
  | _ :: _, [] => false
  | a :: p', b :: s' => (a =? b)%N && startswith p' s'
  end.

(** [sub in s] *)
Fixpoint contains (sub s : str) : bool :=
  startswith sub s ||
  match s with
  | [] => false
  | _ :: s' => contains sub s'
  end.

(** [s.count(sub)] for a non-empty [sub]: matches are taken left to
    right and the scan resumes after the end of each match, so matches
    never overlap.  [skip] counts the characters of the last match still
    to be passed over. *)
Fixpoint count_from (sub s : str) (skip : nat) : Z :=
  match s with
  | [] => 0
  | _ :: s' =>
      match skip with
      | S k => count_from sub s' k
      | O => if startswith sub s
             then 1 + count_from sub s' (length sub - 1)
             else count_from sub s' 0
      end
  end.

(** [s.count(sub)]; the empty string occurs between all characters. *)
Definition count (s sub : str) : Z :=
  match sub with
  | [] => len s + 1
  | _ => count_from sub s 0
  end.

End Text.

(* ===================================================================== *)
(** ** Regular expressions ([re.match], [re.search]) *)
(* ===================================================================== *)

Module Regex.

(** The fragment of [re] syntax the parser's patterns use.  A character
    class is a predicate on code points. *)
Inductive regex :=
  | Void
  | Eps
  | Cls (p : N -> bool)
  | Cat (r1 r2 : regex)
  | Alt (r1 r2 : regex)
  | Star (r : regex).

Definition Opt (r : regex) : regex := Alt r Eps.
Definition Plus (r : regex) : regex := Cat r (Star r).

Fixpoint nullable (r : regex) : bool :=
  match r with
  | Void => false
  | Eps => true
  | Cls _ => false
  | Cat r1 r2 => nullable r1 && nullable r2
  | Alt r1 r2 => nullable r1 || nullable r2
  | Star _ => true
  end.

(** The residual of [r] after reading [c]. *)
Fixpoint deriv (c : N) (r : regex) : regex :=
  match r with
  | Void => Void
  | Eps => Void
  | Cls p => if p c then Eps else Void
  | Cat r1 r2 =>
      if nullable r1
      then Alt (Cat (deriv c r1) r2) (deriv c r2)
      else Cat (deriv c r1) r2
  | Alt r1 r2 => Alt (deriv c r1) (deriv c r2)
  | Star r1 => Cat (deriv c r1) (Star r1)
  end.

(** [re.match(r, s)] is not [None]: some prefix of [s] matches [r]. *)
Fixpoint re_match (r : regex) (s : str) : bool :=
  nullable r ||
  match s with
  | [] => false
  | c :: s' => re_match (deriv c r) s'
  end.

(** [re.search(r, s)] is not [None]: [r] matches somewhere in [s]. *)
Fixpoint re_search (r : regex) (s : str) : bool :=
  re_match r s ||
  match s with
  | [] => false
  | _ :: s' => re_search r s'
  end.

(** A literal character under [re.IGNORECASE], on the ASCII range. *)
Definition chr_ci (c : N) : regex :=
  Cls (fun x => (Text.lower_cp x =? Text.lower_cp c)%N).

(** A literal word under [re.IGNORECASE]. *)
Fixpoint word_ci (w : str) : regex :=
  match w with
  | [] => Eps
  | c :: w' => Cat (chr_ci c) (word_ci w')
  end.

(** A literal word, case-sensitive. *)
Fixpoint word (w : str) : regex :=
  match w with
  | [] => Eps
  | c :: w' => Cat (Cls (fun x => (x =? c)%N)) (word w')
  end.

(** [[A-Z]] under [re.IGNORECASE], on the ASCII range: a letter of
    either case. *)
Definition upper_ci : regex :=
  Cls (fun x => Text.is_upper_cp x || Text.is_upper_cp (Text.upper_cp x)).

(** [\d] on the ASCII range, and [\s]. *)
Definition digit : regex := Cls Text.is_digit_cp.
Definition space : regex := Cls Text.isspace.

Fixpoint alts (rs : list regex) : regex :=
  match rs with
  | [] => Void
  | [r] => r
  | r :: rs' => Alt r (alts rs')
  end.

End Regex.

(* ===================================================================== *)
(** ** [src/processors/pdf_parser.py] *)
(* ===================================================================== *)

Module PdfParser.
Import Text Regex.

(** The layout primitives [page.get_text("dict")] supplies: a page is a
    list of blocks, a text block (type 0) a list of lines, a line a list
    of spans. *)
Record span := Span { text : str; size : Q; flags : Z }.
Record line := Line { spans : list span }.
Record block := Block { type : Z; lines : list line }.
Abbreviation page := (list block).
Abbreviation document := (list page).

(** A section of the reconstructed structure. *)
Record section := Section_ { title : str; page_no : Z; content : list str }.

(** [heading_patterns] of [_is_heading], compiled with [re.IGNORECASE]:
    [^(Abstract|Introduction|Methods?|Results?|Discussion|Conclusion|References?)]
    and [^\d+\.?\s+[A-Z]]. *)
Definition heading_patterns : list regex :=
  [ alts [ word_ci (u "Abstract");
           word_ci (u "Introduction");
           Cat (word_ci (u "Method")) (Opt (chr_ci 115));
           Cat (word_ci (u "Result")) (Opt (chr_ci 115));
           word_ci (u "Discussion");
           word_ci (u "Conclusion");
           Cat (word_ci (u "Reference")) (Opt (chr_ci 115)) ];
    Cat (Plus digit) (Cat (Opt (chr_ci 46)) (Cat (Plus space) upper_ci)) ].

(** [References?|Bibliography|參考文獻], compiled with [re.IGNORECASE]. *)
Definition references_pattern : regex :=
  alts [ Cat (word_ci (u "Reference")) (Opt (chr_ci 115));
         word_ci (u "Bibliography");
         word_ci [21443; 32771; 25991; 29563]%N ].

(** The local variables of [_is_heading], computed from one span. *)
Definition is_bold (sp : span) : Z := Z.land (flags sp) (2 ^ 4).
Definition is_large (sp : span) : bool := negb (Qle_bool (size sp) 12).
Definition is_short (sp : span) : bool := len (strip (text sp)) <? 100.
Definition is_uppercase (sp : span) : bool :=
  isupper (strip (text sp)) && (3 <? len (strip (text sp))).
Definition matches_pattern (sp : span) : bool :=
  existsb (fun pattern => re_match pattern (strip (text sp))) heading_patterns.

(** [_is_heading]: a line without spans is no heading; otherwise the
    first span decides.  [is_bold] is an integer, used for its truth
    value; every other operand of the result is a Boolean. *)
Definition _is_heading (l : line) : bool :=
  match spans l with
  | [] => false
  | sp :: _ =>
      (negb (is_bold sp =? 0) && is_large sp)
      || (is_large sp && is_short sp)
      || is_uppercase sp
      || matches_pattern sp
  end.

(** The text of a line as [_extract_structure] reads it: the texts of
    all its spans, concatenated and stripped. *)
Definition line_text (l : line) : str :=
  strip (concat (text <$> spans l)).

(** The state of the scan: the finished sections and the open one. *)
Definition scan_state : Type := list section * option section.

(** The innermost loop, over the lines of one block.  [break] leaves
    this loop only: the scan state reached so far is handed back to the
    loop over blocks. *)
Fixpoint scan_lines (page_num : Z) (ls : list line) (st : scan_state)
  : scan_state :=
  match ls with
  | [] => st
  | l :: ls' =>
      let text := line_text l in
      if negb (nonempty text) then scan_lines page_num ls' st
      else if _is_heading l then
        if re_search references_pattern text then st
        else
          let sections :=
            match st.2 with
            | Some cur => st.1 ++ [cur]
            | None => st.1
            end in
          scan_lines page_num ls'
            (sections,
             Some {| title := text; page_no := page_num + 1; content := [] |})
      else
        match st.2 with
        | Some cur =>
            scan_lines page_num ls'
              (st.1,
               Some {| title := title cur; page_no := page_no cur;
                       content := content cur ++ [text] |})
        | None => scan_lines page_num ls' st
        end
  end.

(** The loop over the blocks of one page: only text blocks are read. *)
Definition scan_blocks (page_num : Z) (bs : list block) (st : scan_state)
  : scan_state :=
  fold_left (fun st b => if type b =? 0 then scan_lines page_num (lines b) st
                         else st) bs st.

(** The loop over the pages, [page_num] counting from [first]. *)
Fixpoint scan_pages (first : Z) (doc : document) (st : scan_state)
  : scan_state :=
  match doc with
  | [] => st
  | p :: doc' => scan_pages (first + 1) doc' (scan_blocks first p st)
  end.

(** [_extract_structure] *)
Definition _extract_structure (doc : document) : list section :=
  let st := scan_pages 0 doc ([], None) in
  match st.2 with
  | Some cur => st.1 ++ [cur]
  | None => st.1
  end.

(** The span [_is_heading] looks at. *)
Definition first_span (l : line) : option span := head (spans l).

(** The bold flag of a span: bit 4 of its font flags. *)
Definition bold (sp : span) : Prop := Z.testbit (flags sp) 4 = true.

(** A four-heading document: three sections, then a references heading
    in a block of its own, the entries of the reference list in the
    next block and on the next page. *)
Definition body_line (s : string) : line := Line [Span (u s) 10 0].
Definition heading_line (s : string) : line := Line [Span (u s) 14 16].

Definition paper : document :=
  [ [ Block 0 [heading_line "Abstract"; body_line "we study reishi." ];
      Block 0 [heading_line "Methods"; body_line "hot water extraction." ];
      Block 0 [heading_line "Results"; body_line "yield went up." ];
      Block 0 [heading_line "References" ];
      Block 0 [body_line "[1] Smith J, Mushrooms, 2020." ] ];
    [ Block 0 [body_line "2. Lee K, Fungi, 2021." ] ] ].

End PdfParser.

(* ===================================================================== *)
(** ** [src/processors/text_chunker.py] *)
(* ===================================================================== *)

Module Chunker.
Import Text.

(** The attributes of a [TextChunker] instance. *)
Record TextChunker := {
  chunk_size : Z;
  chunk_overlap : Z;
  min_chunk_size : Z
}.

(** [TextChunker.__init__]: the three arguments are stored as given. *)
Definition __init__ (chunk_size chunk_overlap min_chunk_size : Z)
  : outcome TextChunker :=
  Returns {| chunk_size := chunk_size;
             chunk_overlap := chunk_overlap;
             min_chunk_size := min_chunk_size |}.

(** The default arguments of [__init__]. *)
Definition default_chunker : TextChunker :=
  {| chunk_size := 1000; chunk_overlap := 200; min_chunk_size := 100 |}.

Definition is_stop (c : N) : bool := (c =? 46)%N || (c =? 33)%N || (c =? 63)%N.

(** [re.split(r'(?<=[.!?])\s+(?=[A-Z])', text)].  A separator is a
    maximal run of white space that follows one of [.!?] and is followed
    by a capital letter.  [after_stop] tells whether the character just
    read is one of [.!?]; [in_sep] whether a separator is being passed
    over; [cur] holds the piece being read, last character first. *)
Fixpoint split_pieces (s : str) (after_stop in_sep : bool) (cur : str)
  : list str :=
  match s with
  | [] => [rev cur]
  | c :: s' =>
      if isspace c && in_sep then split_pieces s' false true cur
      else if isspace c && after_stop
              && match lstrip s with
                 | d :: _ => is_upper_cp d
                 | [] => false
                 end
      then rev cur :: split_pieces s' false true []
      else split_pieces s' (is_stop c) false (c :: cur)
  end.

(** [_split_sentences] *)
Definition _split_sentences (text : str) : list str :=
  strip <$> filter (fun s => nonempty (strip s) = true)
                   (split_pieces text false false []).

(** The inner loop of [_create_chunks] that picks the sentences carried
    over: [rest] is the closed buffer read from its end, and the loop
    breaks at the first sentence that does not fit. *)
Fixpoint overlap_loop (overlap : Z) (rest : list str)
    (overlap_sentences : list str) (overlap_size : Z) : list str * Z :=
  match rest with
  | [] => (overlap_sentences, overlap_size)
  | s :: rest' =>
      if overlap_size + len s <=? overlap
      then overlap_loop overlap rest' (s :: overlap_sentences)
                        (overlap_size + len s)
      else (overlap_sentences, overlap_size)
  end.

(** The state of [_create_chunks]: [chunks], [current_chunk] and
    [current_size]. *)
Record chunk_state := {
  chunks : list str;
  current_chunk : list str;
  current_size : Z
}.

(** [chunks.append(chunk_text)] under the minimum-size test. *)
Definition save_chunk (self : TextChunker) (chunks : list str)
    (current_chunk : list str) : list str :=
  let chunk_text := join (u " ") current_chunk in
  if min_chunk_size self <=? len chunk_text
  then chunks ++ [chunk_text]
  else chunks.

(** The test that closes the current buffer before [sentence] is
    added: the buffer would exceed [chunk_size], and is not empty. *)
Definition closes (self : TextChunker) (st : chunk_state) (sentence : str)
  : bool :=
  (chunk_size self <? current_size st + len sentence)
  && match current_chunk st with [] => false | _ => true end.

(** One iteration of the loop over the sentences. *)
Definition chunk_step (self : TextChunker) (st : chunk_state)
    (sentence : str) : chunk_state :=
  let sentence_size := len sentence in
  let st' :=
    if closes self st sentence
    then
      let ov := overlap_loop (chunk_overlap self) (rev (current_chunk st)) [] 0 in
      {| chunks := save_chunk self (chunks st) (current_chunk st);
         current_chunk := ov.1;
         current_size := ov.2 |}
    else st in
  {| chunks := chunks st';
     current_chunk := current_chunk st' ++ [sentence];
     current_size := current_size st' + sentence_size |}.

(** [_create_chunks] *)
Definition _create_chunks (self : TextChunker) (sentences : list str)
  : list str :=
  let st := fold_left (chunk_step self) sentences
              {| chunks := []; current_chunk := []; current_size := 0 |} in
  match current_chunk st with
  | [] => chunks st
  | _ => save_chunk self (chunks st) (current_chunk st)
  end.

(** [chunk_dict.update(metadata)] when [metadata] is given and not
    empty: the keys of [metadata] replace those of the chunk. *)
Definition update (metadata : option dict) (d : dict) : dict :=
  match metadata with
  | Some m => if decide (m = ∅) then d else m ∪ d
  | None => d
  end.

(** The value the caller's metadata gives for a key, if any. *)
Definition caller_value (metadata : option dict) (k : string) : option value :=
  m ← metadata; m !! k.

(** The dictionary [chunk_text] builds for the chunk at index [i]. *)
Definition chunk_dict (i : nat) (total : nat) (chunk_text : str) : dict :=
  <["chunk_index" := VInt (Z.of_nat i)]>
  (<["total_chunks" := VInt (Z.of_nat total)]>
  (<["content" := VStr chunk_text]>
  (<["char_count" := VInt (len chunk_text)]>
  (<["word_count" := VInt (Z.of_nat (length (split chunk_text)))]> ∅)))).

(** [chunk_text] *)
Definition chunk_text (self : TextChunker) (text : str)
    (metadata : option dict) : list dict :=
  if negb (nonempty text) || negb (nonempty (strip text)) then []
  else
    let sentences := _split_sentences text in
    let chunks := _create_chunks self sentences in
    imap (fun i chunk_text =>
            update metadata (chunk_dict i (length chunks) chunk_text))
         chunks.

(** The chunks of one section in [chunk_by_sections], with the section
    title and page and the caller's metadata written onto them. *)
Definition section_chunks (self : TextChunker) (metadata : option dict)
    (section : PdfParser.section) : list dict :=
  let section_title := PdfParser.title section in
  let section_content := join (u " ") (PdfParser.content section) in
  let section_page := PdfParser.page_no section in
  let section_text := section_title ++ [10; 10]%N ++ section_content in
  (fun chunk =>
     update metadata
       (<["page" := VInt section_page]>
        (<["section" := VStr section_title]> chunk)))
  <$> chunk_text self section_text None.

(** [chunk_by_sections] *)
Definition chunk_by_sections (self : TextChunker)
    (sections : list PdfParser.section) (metadata : option dict)
  : list dict :=
  let all_chunks := concat (section_chunks self metadata <$> sections) in
  let total := length all_chunks in
  imap (fun i chunk =>
          <["total_chunks" := VInt (Z.of_nat total)]>
          (<["chunk_index" := VInt (Z.of_nat i)]> chunk))
       all_chunks.

(** A chunker that keeps every non-empty chunk, the metadata of the
    module's own test and the chunk it makes of a one-sentence text. *)
Definition small_chunker : TextChunker :=
  {| chunk_size := 1000; chunk_overlap := 200; min_chunk_size := 1 |}.
Definition test_metadata : option dict :=
  Some {["source" := VStr (u "test")]}.
Definition hello_chunk : dict :=
  update test_metadata (chunk_dict 0 1 (u "Hello world.")).

End Chunker.

(* ===================================================================== *)
(** ** [src/rag/retriever.py] *)
(* ===================================================================== *)

Module Retriever.
Import Text.

(** The attribute of a [SimpleRetriever] the queries read: the corpus.
    [__init__] sets it to the empty list, [load_chunks] to the list read
    from the chunk file. *)
Record SimpleRetriever := { chunks : list dict }.

(** [keywords_map] of [_translate_query], in insertion order. *)
Definition keywords_map : list (str * str) :=
  [ ([38728; 33437]%N, u "Ganoderma lucidum");
    ([20813; 30123]%N, u "immune immunomodulatory");
    ([30284; 30151]%N, u "cancer tumor");
    ([21151; 25928]%N, u "effect benefit");
    ([33256; 24202]%N, u "clinical");
    ([35430; 39511]%N, u "trial");
    ([22810; 37283; 39636]%N, u "polysaccharide");
    ([19977; 33820]%N, u "triterpenoid") ].

(** [_translate_query] *)
Definition _translate_query (query : str) : str :=
  let translated_parts :=
    snd <$> filter (fun kv => contains kv.1 query = true) keywords_map in
  match translated_parts with
  | [] => query
  | _ => join (u " ") translated_parts ++ u " " ++ query
  end.

(** [chunk.get('content', '').lower()]: a content that is not text has
    no [lower]. *)
Definition content_lower (chunk : dict) : outcome str :=
  match chunk !! "content" with
  | None => Returns (lower [])
  | Some (VStr s) => Returns (lower s)
  | Some (VInt _) => Raises AttributeError
  end.

(** The loop over [query_terms] that adds up the score of one chunk. *)
Definition term_score (content : str) (query_terms : gset str) : Z :=
  set_fold (fun term score =>
              if len term <? 3 then score
              else score + count content term)
           0 query_terms.

(** The loop over the corpus: chunks with a positive score are kept,
    with the score written under the key ['score']. *)
Fixpoint score_chunks (query_terms : gset str) (corpus : list dict)
    (scored_chunks : list dict) : outcome (list dict) :=
  match corpus with
  | [] => Returns scored_chunks
  | chunk :: corpus' =>
      content ← content_lower chunk;
      let score := term_score content query_terms in
      score_chunks query_terms corpus'
        (if 0 <? score
         then scored_chunks ++ [<["score" := VInt score]> chunk]
         else scored_chunks)
  end.

(** The sort key [lambda x: x['score']]. *)
Definition score_key (x : dict) : Z :=
  match x !! "score" with
  | Some (VInt z) => z
  | _ => 0
  end.

(** [l.sort(key=key, reverse=True)]: the stable sort by descending key.
    An element is placed before the first element whose key is smaller
    or equal, each element of the list being inserted in front of those
    that follow it. *)
Fixpoint insert_desc {A} (key : A -> Z) (x : A) (l : list A) : list A :=
  match l with
  | [] => [x]
  | y :: l' =>
      if key x <? key y then y :: insert_desc key x l' else x :: y :: l'
  end.

Fixpoint sort_desc {A} (key : A -> Z) (l : list A) : list A :=
  match l with
  | [] => []
  | x :: l' => insert_desc key x (sort_desc key l')
  end.

(** The order of a list sorted by descending key. *)
Definition desc {A} (key : A -> Z) : relation A := fun x y => key y <= key x.

(** The slice [l[:k]], for a [k] of either sign. *)
Definition slice_to {A} (k : Z) (l : list A) : list A :=
  if 0 <=? k then take (Z.to_nat k) l
  else take (length l - Z.to_nat (- k)) l.

(** [_keyword_retrieval] *)
Definition _keyword_retrieval (self : SimpleRetriever) (query : str)
    (top_k : Z) : outcome (list dict) :=
  let query_lower := lower query in
  let query_terms : gset str := list_to_set (split query_lower) in
  scored_chunks ← score_chunks query_terms (chunks self) [];
  mret (slice_to top_k (sort_desc score_key scored_chunks)).

(** [_vector_retrieval] *)
Definition _vector_retrieval (self : SimpleRetriever) (query : str)
    (top_k : Z) : outcome (list dict) :=
  _keyword_retrieval self query top_k.

(** [retrieve] *)
Definition retrieve (self : SimpleRetriever) (query : str) (top_k : Z)
    (method : string) : outcome (list dict) :=
  match chunks self with
  | [] => Returns []
  | _ =>
      let search_query := _translate_query query in
      if decide (method = "keyword")
      then _keyword_retrieval self search_query top_k
      else if decide (method = "vector")
      then _vector_retrieval self search_query top_k
      else Returns []
  end.

End Retriever.


(* ===================================================================== *)
(** ** The buffers of [_create_chunks], with their positions *)
(* ===================================================================== *)

(** [_create_chunks] keeps only the joined text of a buffer.  To speak
    of the sentences two chunks share, the loop is run once more with a
    record of every buffer it closes and of the index, in the list of
    sentences, of the buffer's first sentence. *)
Module ChunkerTrace.
Import Text Chunker.

(** The combined length of a list of sentences. *)
Definition total_len (l : list str) : Z := foldr (fun s n => len s + n) 0 l.

(** [overlap_sentences] for a closed buffer. *)
Definition carried (self : TextChunker) (buffer : list str) : list str :=
  (overlap_loop (chunk_overlap self) (rev buffer) [] 0).1.

(** The minimum-size test of [save_chunk]. *)
Definition kept (self : TextChunker) (buffer : list str) : bool :=
  min_chunk_size self <=? len (join (u " ") buffer).

Record trace_state := {
  src : chunk_state;                (* the state of the loop itself *)
  closed : list (nat * list str);   (* closed buffers, each with its start *)
  start : nat;                      (* start of the current buffer *)
  consumed : nat                    (* sentences read so far *)
}.

Definition trace_step (self : TextChunker) (g : trace_state) (sentence : str)
  : trace_state :=
  let closing := closes self (src g) sentence in
  {| src := chunk_step self (src g) sentence;
     closed := if closing
               then closed g ++ [(start g, current_chunk (src g))]
               else closed g;
     start := if closing
              then (consumed g
                    - length (carried self (current_chunk (src g))))%nat
              else start g;
     consumed := S (consumed g) |}.

Definition trace_init : trace_state :=
  {| src := {| chunks := []; current_chunk := []; current_size := 0 |};
     closed := []; start := 0; consumed := 0 |}.

(** Every buffer of the run, the last one included, in order. *)
Definition buffers (self : TextChunker) (sentences : list str)
  : list (nat * list str) :=
  let g := fold_left (trace_step self) sentences trace_init in
  match current_chunk (src g) with
  | [] => closed g
  | b => closed g ++ [(start g, b)]
  end.

(** Two consecutive buffers: the second starts where the carried
    sentences of the first start, and opens with them. *)
Definition link (self : TextChunker) (x y : nat * list str) : Prop :=
  (y.1 + length (carried self x.2) = x.1 + length x.2)%nat
  ∧ carried self x.2 `prefix_of` y.2
  ∧ (length (carried self x.2) < length y.2)%nat.

Fixpoint linked (self : TextChunker) (l : list (nat * list str)) : Prop :=
  match l with
  | x :: l' =>
      match l' with
      | y :: _ => link self x y ∧ linked self l'
      | [] => True
      end
  | [] => True
  end.

(** A buffer recorded with start [ab.1] lies in the list of sentences
    at that position, and is not empty. *)
Definition positioned (ss : list str) (ab : nat * list str) : Prop :=
  ab.2 ≠ [] ∧ ∃ front back, ss = front ++ ab.2 ++ back ∧ length front = ab.1.

(** The invariant of the loop after [n] sentences. *)
Record Inv (self : TextChunker) (ss : list str) (n : nat) (g : trace_state)
  : Prop := {
  inv_consumed : consumed g = n;
  inv_pos : ∃ front, take n ss = front ++ current_chunk (src g)
                     ∧ length front = start g;
  inv_size : current_size (src g) = total_len (current_chunk (src g));
  inv_nonempty : (0 < n)%nat → current_chunk (src g) ≠ [];
  inv_chunks : chunks (src g)
               = join (u " ") <$> filter (λ b, kept self b) (closed g).*2;
  inv_closed : Forall (positioned ss) (closed g);
  inv_linked : linked self (closed g ++ [(start g, current_chunk (src g))])
}.

End ChunkerTrace.

(* ===================================================================== *)
(** ** Scoring, in closed form and in the words of the specification *)
(* ===================================================================== *)

Module RetrieverSpec.
Import Text Retriever.

(** The content a chunk is scored on: ['content'], or the empty string. *)
Definition content_of (chunk : dict) : str :=
  match chunk !! "content" with
  | Some (VStr s) => s
  | _ => []
  end.

(** A corpus of text chunks: no chunk has a ['content'] that is not
    text. *)
Definition content_is_text (chunk : dict) : bool :=
  match chunk !! "content" with
  | Some (VInt _) => false
  | _ => true
  end.

Definition text_corpus (corpus : list dict) : Prop :=
  forallb content_is_text corpus = true.

Definition sum_Z (l : list Z) : Z := foldr Z.add 0 l.

(** The distinct tokens of the lower-cased query that have at least 3
    characters. *)
Definition retained_terms (query : str) : list str :=
  filter (λ term, 3 ≤ len term) (remove_dups (split (lower query))).

(** The score of a chunk for a search query: each retained term adds
    the number of its non-overlapping occurrences in the lower-cased
    content. *)
Definition score (query : str) (chunk : dict) : Z :=
  sum_Z ((λ term, count (lower (content_of chunk)) term)
         <$> retained_terms query).

(** The chunk as it is returned, with its score. *)
Definition scored (query : str) (chunk : dict) : dict :=
  <["score" := VInt (score query chunk)]> chunk.

(** The chunks of the corpus with a positive score, in corpus order. *)
Definition candidates (query : str) (corpus : list dict) : list dict :=
  scored query <$> filter (λ chunk, 0 < score query chunk) corpus.

(** Follows the specification's words: the number of places of
    [content] at which [token] occurs, two occurrences being allowed to
    overlap. *)
Fixpoint occurrences (token content : str) : Z :=
  (if startswith token content then 1 else 0)
  + match content with
    | [] => 0
    | _ :: content' => occurrences token content'
    end.

(** Follows the specification's words: the sum, over the
    white-space-delimited tokens of the lower-cased query that have at
    least 3 characters, of the occurrences of the token in the
    lower-cased content. *)
Definition score_as_specified (query content : str) : Z :=
  sum_Z ((λ token, occurrences token (lower content))
         <$> filter (λ token, 3 ≤ len token) (split (lower query))).

(** A five-chunk corpus. *)
Definition text_chunk (s : string) : dict := {["content" := VStr (u s)]}.
Definition corpus5 : SimpleRetriever :=
  {| chunks := [ text_chunk "Ganoderma is here, ganoderma immune";
                 text_chunk "nothing";
                 text_chunk "Ganoderma once";
                 text_chunk "immune immune";
                 text_chunk "aaaa" ] |}.

End RetrieverSpec.

(* ===================================================================== *)
(** ** The lines a scan reads *)
(* ===================================================================== *)

Module PdfLines.
Import Text Regex PdfParser.

(** The lines of the text blocks of a page, and of a document. *)
Definition text_lines (p : page) : list line :=
  concat (lines <$> filter (λ b, type b = 0) p).

Definition doc_lines (doc : document) : list line :=
  concat (text_lines <$> doc).

End PdfLines.

(* ===================================================================== *)
(** ** What sentence splitting keeps *)
(* ===================================================================== *)

Module Sentences.
Import Text Chunker.

(** The characters of a text that are not white space, in order. *)
Definition letters (s : str) : str :=
  List.filter (λ c, negb (isspace c)) s.

(** A piece that opens with a capital letter A-Z. *)
Definition starts_upper (p : str) : Prop :=
  ∃ d r, p = d :: r ∧ is_upper_cp d = true.

(** A piece that closes with one of [.!?]. *)
Definition ends_stop (p : str) : Prop :=
  ∃ r c, p = r ++ [c] ∧ is_stop c = true.

End Sentences.

(* ===================================================================== *)
(** ** Sizes and positions of the buffers *)
(* ===================================================================== *)

Module ChunkerBounds.
Import Text Chunker ChunkerTrace.

(** A buffer that follows [n] carried sentences fits the target size, or
    holds a single sentence besides the carried ones. *)
Definition fits (self : TextChunker) (n : nat) (b : list str) : Prop :=
  total_len b ≤ chunk_size self ∨ length b = S n.

(** Every buffer of a run fits, given the number of sentences carried
    into the first one. *)
Fixpoint fitted (self : TextChunker) (n : nat) (T : list (nat * list str))
  : Prop :=
  match T with
  | [] => True
  | x :: T' => fits self n x.2 ∧ fitted self (length (carried self x.2)) T'
  end.

(** The invariant of the loop on the sizes of its buffers. *)
Definition fit_inv (self : TextChunker) (g : trace_state) : Prop :=
  (closed g = [] ∧ current_chunk (src g) = [])
  ∨ (current_chunk (src g) ≠ []
     ∧ fitted self 0 (closed g ++ [(start g, current_chunk (src g))])).

(** The start of the first buffer of a run in progress. *)
Definition first_start (g : trace_state) : nat :=
  match closed g with
  | x :: _ => x.1
  | [] => start g
  end.

(** The index just past the last sentence of a buffer. *)
Definition buffer_end (x : nat * list str) : nat := (x.1 + length x.2)%nat.

(** A section of one line, and the chunk [chunk_by_sections] makes of
    it for the metadata of the module's own test. *)
Definition methods_section : PdfParser.section :=
  {| PdfParser.title := u "Methods"; PdfParser.page_no := 2;
     PdfParser.content := [u "We used water extraction."] |}.
Definition methods_chunk : dict :=
  <["total_chunks" := VInt 1]>
  (<["chunk_index" := VInt 0]>
  (update test_metadata
    (<["page" := VInt 2]>
    (<["section" := VStr (u "Methods")]>
    (chunk_dict 0 1 (u "Methods" ++ [10; 10]%N
                       ++ u "We used water extraction.")))))).

(** The text [chunk_by_sections] makes of a section. *)
Definition section_text (section : PdfParser.section) : str :=
  PdfParser.title section ++ [10; 10]%N
  ++ join (u " ") (PdfParser.content section).

End ChunkerBounds.

(* ===================================================================== *)
(** ** Query terms *)
(* ===================================================================== *)

Module RetrieverTerms.
Import Text Retriever RetrieverSpec.

(** A character that [lower] leaves alone and that is the lower-case
    form of no other character: not an ASCII letter. *)
Definition caseless (c : N) : bool :=
  negb (is_upper_cp c) && negb (is_lower_cp c).

(** A chunk whose content is a number, as a chunk file may hold. *)
Definition number_chunk : dict := {["content" := VInt 7]}.

End RetrieverTerms.

(* ===================================================================== *)
(** ** Regular expressions with match extents ([re.sub], groups) *)
(* ===================================================================== *)

(** [re.sub] and [match.group] need to know where a match ends and what
    its groups hold, and that depends on the order in which [re] tries
    the alternatives: the first of [r1|r2] first, one more repetition
    before none for a greedy [*], none before one more for a lazy one.
    [run] is that backtracking search, with the rest of the pattern as
    a continuation. *)
Module Re.
Import Text.

Inductive re :=
  | Chr (p : N → bool)          (* one character of a class *)
  | Emp                         (* the empty pattern *)
  | Seq (r1 r2 : re)            (* r1 r2 *)
  | Or (r1 r2 : re)             (* r1|r2 *)
  | Rep (greedy : bool) (r : re)  (* r* and r*? *)
  | Grp (i : nat) (r : re)      (* the capturing group number i *)
  | Eol.                        (* $ *)

Abbreviation groups := (gmap nat str).

(** The repetitions of a starred pattern [body], at most [n] of them,
    each taking at least one character. *)
Fixpoint rep_loop {R : Type}
    (body : str → groups → (str → groups → option R) → option R)
    (greedy : bool) (k : str → groups → option R)
    (n : nat) (s : str) (g : groups) : option R :=
  match n with
  | O => k s g
  | S n' =>
      let more :=
        body s g
          (λ s' g', if (length s' <? length s)%nat
                    then rep_loop body greedy k n' s' g' else None) in
      if greedy
      then match more with Some x => Some x | None => k s g end
      else match k s g with Some x => Some x | None => more end
  end.

Fixpoint run {R : Type} (r : re) (s : str) (g : groups)
    (k : str → groups → option R) : option R :=
  match r with
  | Chr p =>
      match s with
      | c :: s' => if p c then k s' g else None
      | [] => None
      end
  | Emp => k s g
  | Seq r1 r2 => run r1 s g (λ s' g', run r2 s' g' k)
  | Or r1 r2 =>
      match run r1 s g k with
      | Some x => Some x
      | None => run r2 s g k
      end
  | Rep greedy r1 => rep_loop (run r1) greedy k (length s) s g
  | Grp i r1 =>
      run r1 s g
        (λ s' g', k s' (<[i := take (length s - length s') s]> g'))
  | Eol =>
      match s with
      | [] => k s g
      | [c] => if (c =? 10)%N then k s g else None
      | _ => None
      end
  end.

Definition Plus (greedy : bool) (r : re) : re := Seq r (Rep greedy r).
Definition Opt (r : re) : re := Or r Emp.

(** A literal word, and a literal word under [re.IGNORECASE] on the
    ASCII range. *)
Fixpoint lit (w : str) : re :=
  match w with
  | [] => Emp
  | c :: w' => Seq (Chr (λ x, (x =? c)%N)) (lit w')
  end.

Fixpoint lit_ci (w : str) : re :=
  match w with
  | [] => Emp
  | c :: w' => Seq (Chr (λ x, (lower_cp x =? lower_cp c)%N)) (lit_ci w')
  end.

(** The match of [r] at the start of [s], if any: what follows the
    match, and the groups. *)
Definition exec (r : re) (s : str) : option (str * groups) :=
  run r s ∅ (λ s' g, Some (s', g)).

(** [re.search(r, s)]: the match at the leftmost place that has one. *)
Fixpoint search (r : re) (s : str) : option (str * groups) :=
  match exec r s with
  | Some m => Some m
  | None =>
      match s with
      | [] => None
      | _ :: s' => search r s'
      end
  end.

(** [match.group(i)] *)
Definition group (g : groups) (i : nat) : str := default [] (g !! i).

(** [re.sub(r, repl, s)], the replacement given as a function of the
    groups.  [skip] counts the characters of the last match still to be
    passed over.  A match of no character is replaced and the scan
    moves on by one character. *)
Fixpoint sub_from (r : re) (repl : groups → str) (s : str) (skip : nat)
  : str :=
  match s with
  | [] =>
      match skip, exec r [] with
      | O, Some (_, g) => repl g
      | _, _ => []
      end
  | c :: s' =>
      match skip with
      | S n => sub_from r repl s' n
      | O =>
          match exec r s with
          | Some (rest, g) =>
              match (length s - length rest)%nat with
              | O => repl g ++ c :: sub_from r repl s' 0
              | S n => repl g ++ sub_from r repl s' n
              end
          | None => c :: sub_from r repl s' 0
          end
      end
  end.

Definition sub (r : re) (repl : groups → str) (s : str) : str :=
  sub_from r repl s 0.

End Re.

(* ===================================================================== *)
(** ** [src/processors/pdf_parser.py]: text cleaning and the abstract *)
(* ===================================================================== *)

Module PdfText.
Import Text Re.

Section clean.
(** The characters [\w] and [\d] match: Python reads them off the
    Unicode tables; what follows holds for any two classes. *)
Variables (word_char digit_char : N → bool).

Definition ws : re := Chr isspace.
Definition nl : re := Chr (λ c, (c =? 10)%N).

(** [\s+] *)
Definition spaces_pattern : re := Plus true ws.

(** [\n\s*\d+\s*\n] *)
Definition page_number_pattern : re :=
  Seq nl (Seq (Rep true ws)
    (Seq (Plus true (Chr digit_char)) (Seq (Rep true ws) nl))).

(** [(\w+)-\s*\n\s*(\w+)] *)
Definition hyphen_pattern : re :=
  Seq (Grp 1 (Plus true (Chr word_char)))
    (Seq (Chr (λ c, (c =? 45)%N))
      (Seq (Rep true ws) (Seq nl (Seq (Rep true ws)
        (Grp 2 (Plus true (Chr word_char))))))).

(** [_clean_text] *)
Definition _clean_text (text : str) : str :=
  let text := sub spaces_pattern (λ _, u " ") text in
  let text := sub page_number_pattern (λ _, [10%N]) text in
  let text := sub hyphen_pattern (λ g, group g 1 ++ group g 2) text in
  strip text.

(** [_extract_text], given the text [page.get_text()] returns for each
    page. *)
Definition _extract_text (pages : list str) : str :=
  let text_parts :=
    filter (λ text, nonempty (strip text) = true) (_clean_text <$> pages) in
  join [10; 10]%N text_parts.

End clean.

(** The parts of the dictionary [parse_pdf] returns that
    [extract_abstract] reads. *)
Record parsed_content := {
  structure : list PdfParser.section;
  content : str
}.

(** [abstract\s*[:\-]?\s*(.+?)(?:introduction|keywords|$)], compiled
    with [re.IGNORECASE | re.DOTALL]. *)
Definition abstract_pattern : re :=
  Seq (lit_ci (u "abstract"))
    (Seq (Rep true ws)
      (Seq (Opt (Chr (λ c, (c =? 58)%N || (c =? 45)%N)))
        (Seq (Rep true ws)
          (Seq (Grp 1 (Plus false (Chr (λ _, true))))
            (Or (lit_ci (u "introduction"))
              (Or (lit_ci (u "keywords")) Eol)))))).

(** The test of the loop over the sections: ['abstract' in title]. *)
Definition is_abstract_section (section : PdfParser.section) : bool :=
  contains (u "abstract") (lower (PdfParser.title section)).

(** [extract_abstract] *)
Definition extract_abstract (parsed : parsed_content) : option str :=
  match List.find is_abstract_section (structure parsed) with
  | Some section => Some (join (u " ") (PdfParser.content section))
  | None =>
      match search abstract_pattern (content parsed) with
      | Some (_, g) =>
          let abstract := strip (group g 1) in
          Some (if 2000 <? len abstract
                then take 2000 abstract ++ u "..."
                else abstract)
      | None => None
      end
  end.

(** A parsed paper without sections. *)
Definition paper_without_sections : parsed_content :=
  {| structure := [];
     content := u "Title. Abstract: we study reishi. Keywords: fungus" |}.

(** The ASCII classes, to run the functions on examples. *)
Definition ascii_word (c : N) : bool :=
  is_upper_cp c || is_lower_cp c || is_digit_cp c || (c =? 95)%N.

(** Every run of white space replaced by one space.  [in_run] tells
    whether the character before was white space. *)
Fixpoint collapse (s : str) (in_run : bool) : str :=
  match s with
  | [] => []
  | c :: s' =>
      if isspace c
      then if in_run then collapse s' true else 32%N :: collapse s' true
      else c :: collapse s' false
  end.

(** The number of white-space characters a text opens with. *)
Definition lead (s : str) : nat := (length s - length (lstrip s))%nat.

(** A text without any line break. *)
Definition one_line (s : str) : Prop := 10%N ∉ s.

(** A pattern every match of which holds a line break. *)
Fixpoint needs_break (r : re) : Prop :=
  match r with
  | Chr p => ∀ c, p c = true → c = 10%N
  | Seq r1 r2 => needs_break r1 ∨ needs_break r2
  | Or r1 r2 => needs_break r1 ∧ needs_break r2
  | Grp _ r1 => needs_break r1
  | _ => False
  end.

End PdfText.

(* ===================================================================== *)
(** ** Python's Unicode tables *)
(* ===================================================================== *)

(** [str.lower], [str.isupper], [re.IGNORECASE] and [\d] are read off
    the Unicode database of the interpreter, which is no part of the
    repository.  The definitions above take them on the ASCII range,
    where they can be run; the definitions below take them as a
    parameter, so that what is proved of them holds of the code on every
    text, whatever the tables of the interpreter are. *)
Module Unicode.

Record tables := {
  (** [s.lower()] *)
  str_lower : str → str;
  (** [s.isupper()] *)
  str_isupper : str → bool;
  (** [ignore_case c x]: under [re.IGNORECASE] the literal character [c]
      of a pattern matches the character [x] of the text. *)
  ignore_case : N → N → bool;
  (** Under [re.IGNORECASE] the class [[A-Z]] matches [x]. *)
  az_ignore_case : N → bool;
  (** [\d] matches [x]. *)
  decimal : N → bool
}.

(** The tables on the ASCII range, as the definitions above have them. *)
Definition ascii : tables :=
  {| str_lower := Text.lower;
     str_isupper := Text.isupper;
     ignore_case := λ c x, (Text.lower_cp x =? Text.lower_cp c)%N;
     az_ignore_case :=
       λ x, Text.is_upper_cp x || Text.is_upper_cp (Text.upper_cp x);
     decimal := Text.is_digit_cp |}.

End Unicode.

(* ===================================================================== *)
(** ** The texts a regular expression matches *)
(* ===================================================================== *)

Module RegexSem.
Import Regex.

(** [matches r s]: the whole of [s] is a match of [r]. *)
Inductive matches : regex → str → Prop :=
  | matches_eps : matches Eps []
  | matches_cls p c : p c = true → matches (Cls p) [c]
  | matches_cat r1 r2 s1 s2 :
      matches r1 s1 → matches r2 s2 → matches (Cat r1 r2) (s1 ++ s2)
  | matches_alt_l r1 r2 s : matches r1 s → matches (Alt r1 r2) s
  | matches_alt_r r1 r2 s : matches r2 s → matches (Alt r1 r2) s
  | matches_star_nil r : matches (Star r) []
  | matches_star_cons r s1 s2 :
      matches r s1 → matches (Star r) s2 → matches (Star r) (s1 ++ s2).

End RegexSem.

(* ===================================================================== *)
(** ** [src/processors/pdf_parser.py], over the Unicode tables *)
(* ===================================================================== *)

Module PdfParserU.
Import Text Regex PdfParser Unicode.

Section tables.
Variable T : tables.

(** A literal character and a literal word under [re.IGNORECASE]. *)
Definition chr_ci (c : N) : regex := Cls (ignore_case T c).

Fixpoint word_ci (w : str) : regex :=
  match w with
  | [] => Eps
  | c :: w' => Cat (chr_ci c) (word_ci w')
  end.

(** [[A-Z]] under [re.IGNORECASE], and [\d]. *)
Definition upper_ci : regex := Cls (az_ignore_case T).
Definition digit : regex := Cls (decimal T).

(** [heading_patterns] of [_is_heading], compiled with [re.IGNORECASE]:
    [^(Abstract|Introduction|Methods?|Results?|Discussion|Conclusion|References?)]
    and [^\d+\.?\s+[A-Z]]. *)
Definition heading_patterns : list regex :=
  [ alts [ word_ci (u "Abstract");
           word_ci (u "Introduction");
           Cat (word_ci (u "Method")) (Opt (chr_ci 115));
           Cat (word_ci (u "Result")) (Opt (chr_ci 115));
           word_ci (u "Discussion");
           word_ci (u "Conclusion");
           Cat (word_ci (u "Reference")) (Opt (chr_ci 115)) ];
    Cat (Plus digit) (Cat (Opt (chr_ci 46)) (Cat (Plus space) upper_ci)) ].

(** [References?|Bibliography|參考文獻], compiled with [re.IGNORECASE]. *)
Definition references_pattern : regex :=
  alts [ Cat (word_ci (u "Reference")) (Opt (chr_ci 115));
         word_ci (u "Bibliography");
         word_ci [21443; 32771; 25991; 29563]%N ].

(** The local variables of [_is_heading] that read the tables;
    [is_bold], [is_large] and [is_short] are as above. *)
Definition is_uppercase (sp : span) : bool :=
  str_isupper T (strip (text sp)) && (3 <? len (strip (text sp))).
Definition matches_pattern (sp : span) : bool :=
  existsb (fun pattern => re_match pattern (strip (text sp))) heading_patterns.

(** [_is_heading] *)
Definition _is_heading (l : line) : bool :=
  match spans l with
  | [] => false
  | sp :: _ =>
      (negb (is_bold sp =? 0) && is_large sp)
      || (is_large sp && is_short sp)
      || is_uppercase sp
      || matches_pattern sp
  end.

(** The loop over the lines of one block; [break] leaves this loop
    only. *)
Fixpoint scan_lines (page_num : Z) (ls : list line) (st : scan_state)
  : scan_state :=
  match ls with
  | [] => st
  | l :: ls' =>
      let text := line_text l in
      if negb (nonempty text) then scan_lines page_num ls' st
      else if _is_heading l then
        if re_search references_pattern text then st
        else
          let sections :=
            match st.2 with
            | Some cur => st.1 ++ [cur]
            | None => st.1
            end in
          scan_lines page_num ls'
            (sections,
             Some {| title := text; page_no := page_num + 1; content := [] |})
      else
        match st.2 with
        | Some cur =>
            scan_lines page_num ls'
              (st.1,
               Some {| title := title cur; page_no := page_no cur;
                       content := content cur ++ [text] |})
        | None => scan_lines page_num ls' st
        end
  end.

(** The loop over the blocks of one page: only text blocks are read. *)
Definition scan_blocks (page_num : Z) (bs : list block) (st : scan_state)
  : scan_state :=
  fold_left (fun st b => if type b =? 0 then scan_lines page_num (lines b) st
                         else st) bs st.

(** The loop over the pages, [page_num] counting from [first]. *)
Fixpoint scan_pages (first : Z) (doc : document) (st : scan_state)
  : scan_state :=
  match doc with
  | [] => st
  | p :: doc' => scan_pages (first + 1) doc' (scan_blocks first p st)
  end.

(** [_extract_structure] *)
Definition _extract_structure (doc : document) : list section :=
  let st := scan_pages 0 doc ([], None) in
  match st.2 with
  | Some cur => st.1 ++ [cur]
  | None => st.1
  end.

(** A line that ends the scan of its block: a heading with a text that
    the references pattern finds. *)
Definition is_references_heading (l : line) : bool :=
  nonempty (line_text l) && _is_heading l
  && re_search references_pattern (line_text l).

(** A section made of lines of [L], on a page after [lo] and up to
    [hi]: its title is the text of a heading line that is not a
    references heading, its content the non-empty texts of lines that
    are no headings. *)
Definition section_from (L : list line) (lo hi : Z) (s : section) : Prop :=
  title s ≠ []
  ∧ re_search references_pattern (title s) = false
  ∧ (∃ l, l ∈ L ∧ _is_heading l = true ∧ line_text l = title s)
  ∧ lo < page_no s ≤ hi
  ∧ Forall (λ c, c ≠ [] ∧ ∃ l, l ∈ L ∧ _is_heading l = false
                              ∧ line_text l = c) (content s).

Definition state_from (L : list line) (lo hi : Z) (st : scan_state) : Prop :=
  Forall (section_from L lo hi) st.1
  ∧ ∀ cur, st.2 = Some cur → section_from L lo hi cur.

(** [reads w p]: the text [p] is the word [w] written in some case, each
    character of [p] matching the character of [w] at its place under
    [re.IGNORECASE]. *)
Definition reads (w p : str) : Prop :=
  Forall2 (λ c x, ignore_case T c x = true) w p.

(** The text opens with the word [w], in some case. *)
Definition opens_with (w text : str) : Prop :=
  ∃ p rest, text = p ++ rest ∧ reads w p.

(** The text opens as a numbered heading does: digits, a dot or none,
    white space, a letter. *)
Definition numbered (text : str) : Prop :=
  ∃ digits dot spaces c rest,
    text = digits ++ dot ++ spaces ++ c :: rest
    ∧ digits ≠ [] ∧ Forall (λ d, decimal T d = true) digits
    ∧ (dot = [] ∨ ∃ x, dot = [x] ∧ ignore_case T 46 x = true)
    ∧ spaces ≠ [] ∧ Forall (λ x, isspace x = true) spaces
    ∧ az_ignore_case T c = true.

End tables.

(** The words a heading opens with, by the first of the patterns. *)
Definition heading_words : list str :=
  [ u "Abstract"; u "Introduction"; u "Method"; u "Result";
    u "Discussion"; u "Conclusion"; u "Reference" ].

(** A line of one span that is neither bold nor large: its text
    alone decides. *)
Definition plain_line (text : str) : line := Line [Span text 10 0].

End PdfParserU.

(* ===================================================================== *)
(** ** [src/rag/retriever.py], over the Unicode tables *)
(* ===================================================================== *)

Module RetrieverU.
Import Text Retriever RetrieverSpec Unicode.

Section tables.
Variable T : tables.

(** [chunk.get('content', '').lower()] *)
Definition content_lower (chunk : dict) : outcome str :=
  match chunk !! "content" with
  | None => Returns (str_lower T [])
  | Some (VStr s) => Returns (str_lower T s)
  | Some (VInt _) => Raises AttributeError
  end.

(** The loop over the corpus. *)
Fixpoint score_chunks (query_terms : gset str) (corpus : list dict)
    (scored_chunks : list dict) : outcome (list dict) :=
  match corpus with
  | [] => Returns scored_chunks
  | chunk :: corpus' =>
      content ← content_lower chunk;
      let score := term_score content query_terms in
      score_chunks query_terms corpus'
        (if 0 <? score
         then scored_chunks ++ [<["score" := VInt score]> chunk]
         else scored_chunks)
  end.

(** [_keyword_retrieval] *)
Definition _keyword_retrieval (self : SimpleRetriever) (query : str)
    (top_k : Z) : outcome (list dict) :=
  let query_lower := str_lower T query in
  let query_terms : gset str := list_to_set (split query_lower) in
  scored_chunks ← score_chunks query_terms (chunks self) [];
  mret (slice_to top_k (sort_desc score_key scored_chunks)).

(** [_vector_retrieval] *)
Definition _vector_retrieval (self : SimpleRetriever) (query : str)
    (top_k : Z) : outcome (list dict) :=
  _keyword_retrieval self query top_k.

(** [retrieve] *)
Definition retrieve (self : SimpleRetriever) (query : str) (top_k : Z)
    (method : string) : outcome (list dict) :=
  match chunks self with
  | [] => Returns []
  | _ =>
      let search_query := _translate_query query in
      if decide (method = "keyword")
      then _keyword_retrieval self search_query top_k
      else if decide (method = "vector")
      then _vector_retrieval self search_query top_k
      else Returns []
  end.

(** The distinct tokens of the lower-cased query that have at least 3
    characters. *)
Definition retained_terms (query : str) : list str :=
  filter (λ term, 3 ≤ len term) (remove_dups (split (str_lower T query))).

(** The score of a chunk for a search query: each retained term adds
    the number of its non-overlapping occurrences in the lower-cased
    content. *)
Definition score (query : str) (chunk : dict) : Z :=
  sum_Z ((λ term, count (str_lower T (content_of chunk)) term)
         <$> retained_terms query).

(** The chunk as it is returned, with its score. *)
Definition scored (query : str) (chunk : dict) : dict :=
  <["score" := VInt (score query chunk)]> chunk.

(** The chunks of the corpus with a positive score, in corpus order. *)
Definition candidates (query : str) (corpus : list dict) : list dict :=
  scored query <$> filter (λ chunk, 0 < score query chunk) corpus.

(** The chunks of the corpus with a positive score, each with its
    position in the corpus. *)
Definition positions (query : str) (corpus : list dict) : list (nat * dict) :=
  filter (λ ic, 0 < score query ic.2) (imap (λ i chunk, (i, chunk)) corpus).

(** [ranks_before query x y]: the chunk [x] has the higher score, or
    the same score and the earlier place in the corpus. *)
Definition ranks_before (query : str) (x y : nat * dict) : Prop :=
  score query y.2 < score query x.2
  ∨ (score query y.2 = score query x.2 ∧ (x.1 < y.1)%nat).

End tables.

End RetrieverU.

(* ===================================================================== *)
(** ** The abstract, over the Unicode tables *)
(* ===================================================================== *)

Module PdfTextU.
Import Text Re PdfText Unicode.

Section tables.
Variable T : tables.

(** A literal word under [re.IGNORECASE]. *)
Fixpoint lit_ci (w : str) : re :=
  match w with
  | [] => Emp
  | c :: w' => Seq (Chr (ignore_case T c)) (lit_ci w')
  end.

(** [abstract\s*[:\-]?\s*(.+?)(?:introduction|keywords|$)], compiled
    with [re.IGNORECASE | re.DOTALL]. *)
Definition abstract_pattern : re :=
  Seq (lit_ci (u "abstract"))
    (Seq (Rep true ws)
      (Seq (Opt (Chr (λ c, (c =? 58)%N || (c =? 45)%N)))
        (Seq (Rep true ws)
          (Seq (Grp 1 (Plus false (Chr (λ _, true))))
            (Or (lit_ci (u "introduction"))
              (Or (lit_ci (u "keywords")) Eol)))))).

(** The test of the loop over the sections: ['abstract' in title]. *)
Definition is_abstract_section (section : PdfParser.section) : bool :=
  contains (u "abstract") (str_lower T (PdfParser.title section)).

(** [extract_abstract] *)
Definition extract_abstract (parsed : parsed_content) : option str :=
  match List.find is_abstract_section (structure parsed) with
  | Some section => Some (join (u " ") (PdfParser.content section))
  | None =>
      match search abstract_pattern (content parsed) with
      | Some (_, g) =>
          let abstract := strip (group g 1) in
          Some (if 2000 <? len abstract
                then take 2000 abstract ++ u "..."
                else abstract)
      | None => None
      end
  end.

(** The text opens with the word [w], read under [re.IGNORECASE]. *)
Fixpoint reads_at (w s : str) : bool :=
  match w, s with
  | [], _ => true
  | _ :: _, [] => false
  | c :: w', x :: s' => ignore_case T c x && reads_at w' s'
  end.

(** The word [w] can be read, under [re.IGNORECASE], at some place of
    the text. *)
Fixpoint reads_somewhere (w s : str) : bool :=
  reads_at w s ||
  match s with
  | [] => false
  | _ :: s' => reads_somewhere w s'
  end.

End tables.

End PdfTextU.

(* ===================================================================== *)
(** ** A chunker that cannot hold two sentences *)
(* ===================================================================== *)

Module ChunkerNarrow.
Import Text Chunker ChunkerTrace.

(** The buffers of a run in which every sentence closes the buffer
    before it: each holds the sentences carried over from the one
    before, [carry] for the first, and one sentence more. *)
Fixpoint one_sentence_buffers (self : TextChunker) (carry : list str)
    (sentences : list str) : list (list str) :=
  match sentences with
  | [] => []
  | s :: sentences' =>
      (carry ++ [s])
      :: one_sentence_buffers self (carried self (carry ++ [s])) sentences'
  end.

(** A text of two sentences, and a chunker it fits. *)
Definition two_sentences : str := u "Reishi grows on wood. It is a fungus.".
Definition fitting_chunker : TextChunker :=
  {| chunk_size := 40; chunk_overlap := 10; min_chunk_size := 10 |}.

End ChunkerNarrow.
(* ===================================================================== *)
(** ** Structure extraction: the heading classifier *)
(* ===================================================================== *)

Module PdfParserFacts.
Import Text Regex PdfParser.

Lemma is_bold_testbit sp : is_bold sp ≠ 0 ↔ bold sp.
Proof.
  unfold is_bold, bold.
  assert (Hland : Z.land (flags sp) (2 ^ 4)
                  = if Z.testbit (flags sp) 4 then 2 ^ 4 else 0).
  { apply Z.bits_inj'. intros n Hn.
    rewrite Z.land_spec, Z.pow2_bits_eqb by lia.
    destruct (Z.eqb_spec 4 n) as [<-|Hne].
    - rewrite andb_true_r. destruct (Z.testbit (flags sp) 4) eqn:E.
      + now rewrite Z.pow2_bits_true by lia.
      + now rewrite Z.bits_0.
    - rewrite andb_false_r. destruct (Z.testbit (flags sp) 4).
      + rewrite Z.pow2_bits_false; [done | lia].
      + now rewrite Z.bits_0. }
  rewrite Hland. destruct (Z.testbit (flags sp) 4); split; intros; try done; lia.
Qed.

Lemma is_large_lt sp : is_large sp = true ↔ (12 < size sp)%Q.
Proof.
  unfold is_large. rewrite negb_true_iff.
  split.
  - intros Hb. apply Qnot_le_lt. intros Hle.
    apply Qle_bool_iff in Hle. congruence.
  - intros Hlt. destruct (Qle_bool (size sp) 12) eqn:E; [|done].
    apply Qle_bool_iff in E. apply Qlt_not_le in Hlt. contradiction.
Qed.

(** The heading patterns match at the start of the text and ignore
    case; the numbered pattern wants digits, an optional dot, white
    space and a letter. *)
Example heading_patterns_examples :
  let heading s := matches_pattern (Span (u s) 10 0) in
  heading "Abstract" = true
  ∧ heading "RESULTS AND DISCUSSION" = true
  ∧ heading "methodology of the trial" = true
  ∧ heading "1. Introduction" = true
  ∧ heading "12 materials" = true
  ∧ heading "The Methods" = false
  ∧ heading "1.Introduction" = false
  ∧ heading "3.5 mg per dose" = false.
Proof. vm_compute. done. Qed.

(** The references pattern is searched for anywhere in the text. *)
Example references_pattern_examples :
  re_search references_pattern (u "References") = true
  ∧ re_search references_pattern (u "Cited reference list") = true
  ∧ re_search references_pattern (u "BIBLIOGRAPHY") = true
  ∧ re_search references_pattern [21443; 32771; 25991; 29563]%N = true
  ∧ re_search references_pattern (u "Results") = false.
Proof. vm_compute. done. Qed.

(** C8, counterexample.  Two lines that read as the same text ["ABCD"],
    all of whose spans have font size 10 and no flag set: the one that
    holds the text in one span is a heading, the one that holds it in
    two spans is not, although its text is upper case and longer than 3
    characters. *)
Lemma is_heading_not_by_line_text :
  let l1 := Line [Span (u "AB") 10 0; Span (u "CD") 10 0] in
  let l2 := Line [Span (u "ABCD") 10 0] in
  line_text l1 = line_text l2
  ∧ isupper (line_text l1) = true ∧ 3 < len (line_text l1)
  ∧ _is_heading l1 = false
  ∧ _is_heading l2 = true.
Proof. vm_compute. repeat split; intros; discriminate. Qed.

(** C1, the run of [_extract_structure] on [paper].  The heading
    "References" ends the scan of its own block only: the first entry of
    the reference list lands in the section "Results", and the second,
    which reads as a numbered heading, opens a fourth section. *)
Theorem extract_structure_past_references :
  _extract_structure paper =
  [ {| title := u "Abstract"; page_no := 1;
       content := [u "we study reishi."] |};
    {| title := u "Methods"; page_no := 1;
       content := [u "hot water extraction."] |};
    {| title := u "Results"; page_no := 1;
       content := [u "yield went up."; u "[1] Smith J, Mushrooms, 2020."] |};
    {| title := u "2. Lee K, Fungi, 2021."; page_no := 2; content := [] |} ].
Proof. vm_compute. reflexivity. Qed.

End PdfParserFacts.

(* ===================================================================== *)
(** ** Chunking *)
(* ===================================================================== *)

Module ChunkerFacts.
Import Text Chunker ChunkerTrace.

Lemma len_nonneg s : 0 ≤ len s.
Proof. unfold len. lia. Qed.

Lemma total_len_app l1 l2 : total_len (l1 ++ l2) = total_len l1 + total_len l2.
Proof. induction l1 as [|s l1 IH]; simpl; [done | rewrite IH; lia]. Qed.

Lemma total_len_nonneg l : 0 ≤ total_len l.
Proof. induction l as [|s l IH]; simpl; [done | pose proof (len_nonneg s); lia]. Qed.

Lemma total_len_rev l : total_len (rev l) = total_len l.
Proof.
  induction l as [|s l IH]; simpl; [done|].
  rewrite total_len_app, IH. simpl. lia.
Qed.

Lemma total_len_drop n l : total_len (drop n l) ≤ total_len l.
Proof.
  rewrite <- (take_drop n l) at 2. rewrite total_len_app.
  pose proof (total_len_nonneg (take n l)). lia.
Qed.

(** The inner loop takes the first [k] sentences it is given, for the
    largest [k] whose sentences fit the budget one after the other. *)
Lemma overlap_loop_spec ov rest acc sz :
  ∃ k : nat,
    (k ≤ length rest)%nat
    ∧ (overlap_loop ov rest acc sz).1 = rev (take k rest) ++ acc
    ∧ (overlap_loop ov rest acc sz).2 = sz + total_len (take k rest)
    ∧ (k = 0%nat ∨ sz + total_len (take k rest) ≤ ov)
    ∧ (∀ s, rest !! k = Some s → ov < sz + total_len (take k rest) + len s).
Proof.
  revert acc sz. induction rest as [|s rest IH]; intros acc sz; simpl.
  - exists 0%nat. simpl. split_and!; [lia | done | lia | by left | done].
  - destruct (Z.leb_spec (sz + len s) ov) as [Hfit|Hover].
    + destruct (IH (s :: acc) (sz + len s)) as (k & Hk & H1 & H2 & H3 & H4).
      exists (S k). simpl. rewrite H1, H2.
      split_and!.
      * lia.
      * by rewrite <- app_assoc.
      * lia.
      * right. destruct H3 as [->|H3]; simpl in *; lia.
      * intros s' Hs'. specialize (H4 s' Hs'). lia.
    + exists 0%nat. simpl. split_and!; [lia | done | lia | by left |].
      intros s' [= <-]. lia.
Qed.

(** The carried sentences are a suffix of the closed buffer: the longest
    one that fits the overlap budget, and empty when the budget is
    negative. *)
Lemma carried_spec self b :
  ∃ front,
    b = front ++ carried self b
    ∧ (overlap_loop (chunk_overlap self) (rev b) [] 0).2
      = total_len (carried self b)
    ∧ total_len (carried self b) ≤ Z.max 0 (chunk_overlap self)
    ∧ (front = [] ∨
       ∃ front' s, front = front' ++ [s]
                   ∧ chunk_overlap self < total_len (carried self b) + len s).
Proof.
  unfold carried.
  destruct (overlap_loop_spec (chunk_overlap self) (rev b) [] 0)
    as (k & Hk & H1 & H2 & H3 & H4).
  rewrite H1, H2, app_nil_r, total_len_rev.
  exists (rev (drop k (rev b))). split_and!.
  - rewrite <- rev_app_distr, take_drop. by rewrite rev_involutive.
  - lia.
  - destruct H3 as [->|H3]; simpl; lia.
  - destruct (rev b !! k) as [s|] eqn:Hs.
    + right. exists (rev (drop (S k) (rev b))), s. split.
      * rewrite (drop_S _ _ _ Hs). done.
      * specialize (H4 s eq_refl). lia.
    + left. apply lookup_ge_None in Hs. by rewrite drop_ge.
Qed.

Lemma carried_suffix self b : carried self b `suffix_of` b.
Proof. destruct (carried_spec self b) as (front & Hb & _). by exists front. Qed.

Lemma carried_length self b : (length (carried self b) ≤ length b)%nat.
Proof. apply suffix_length, carried_suffix. Qed.

Lemma linked_grow self l a b b' :
  linked self (l ++ [(a, b)]) → b `prefix_of` b' →
  linked self (l ++ [(a, b')]).
Proof.
  intros Hl Hpre. induction l as [|x l IH]; [done|].
  destruct l as [|y l]; simpl in *.
  - destruct Hl as [(H1 & H2 & H3) _]. split; [|done].
    split_and!; simpl in *; [done | by etrans |].
    apply prefix_length in Hpre. lia.
  - destruct Hl as [Hxy Hl]. split; [done | by apply IH].
Qed.

Lemma linked_snoc self l x y :
  linked self (l ++ [x]) → link self x y → linked self ((l ++ [x]) ++ [y]).
Proof.
  intros Hl Hxy. induction l as [|z l IH]; simpl in *; [done|].
  destruct l as [|w l]; simpl in *.
  - destruct Hl as [Hzx _]. done.
  - destruct Hl as [Hzw Hl]. split; [done | by apply IH].
Qed.

Lemma save_chunk_kept self chunks b :
  save_chunk self chunks b
  = chunks ++ (join (u " ") <$> filter (λ b, kept self b) [b]).
Proof.
  unfold save_chunk.
  change (min_chunk_size self <=? len (join (u " ") b)) with (kept self b).
  rewrite filter_cons, filter_nil.
  destruct (kept self b); simpl; [done | by rewrite app_nil_r].
Qed.

Lemma inv_init self ss : Inv self ss 0 trace_init.
Proof.
  split; simpl; try done.
  - exists []. by rewrite take_0.
  - lia.
Qed.

Lemma inv_step self ss n g s :
  ss !! n = Some s → Inv self ss n g → Inv self ss (S n) (trace_step self g s).
Proof.
  intros Hs [Hc (front & Hfront & Hlen) Hsize Hne Hchunks Hclosed Hlinked].
  assert (Hn : (n < length ss)%nat) by (by eapply lookup_lt_Some).
  assert (Htake : take (S n) ss = take n ss ++ [s]) by (by apply take_S_r).
  assert (Hcount : n = (length front + length (current_chunk (src g)))%nat).
  { rewrite <- length_app, <- Hfront, length_take. lia. }
  unfold trace_step, chunk_step.
  destruct (closes self (src g) s) eqn:Hcl; simpl.
  - destruct (carried_spec self (current_chunk (src g)))
      as (f2 & Hcur & Hov & _).
    fold (carried self (current_chunk (src g))).
    assert (Hcne : current_chunk (src g) ≠ []).
    { unfold closes in Hcl. apply andb_true_iff in Hcl as [_ Hcl].
      by destruct (current_chunk (src g)). }
    assert (Hlf2 : length (current_chunk (src g))
                   = (length f2 + length (carried self (current_chunk (src g))))%nat).
    { rewrite Hcur at 1. by rewrite length_app. }
    split; simpl.
    + by rewrite Hc.
    + exists (front ++ f2). split.
      * rewrite Htake, Hfront. rewrite Hcur at 1. by rewrite <- !app_assoc.
      * rewrite length_app, Hc. lia.
    + rewrite total_len_app, Hov. simpl. lia.
    + intros _. by destruct (carried self (current_chunk (src g))).
    + rewrite save_chunk_kept, Hchunks, fmap_app, filter_app, fmap_app. done.
    + apply Forall_app. split; [done|]. apply Forall_singleton.
      split; [done|]. exists front, (drop n ss). simpl. split; [|done].
      rewrite app_assoc, <- Hfront. by rewrite take_drop.
    + apply linked_snoc; [done|]. split_and!; simpl.
      * rewrite Hc. lia.
      * by apply prefix_app_r.
      * rewrite length_app. simpl. lia.
  - split; simpl.
    + by rewrite Hc.
    + exists front. split; [|done]. by rewrite Htake, Hfront, <- app_assoc.
    + rewrite total_len_app, Hsize. simpl. lia.
    + intros _. by destruct (current_chunk (src g)).
    + done.
    + done.
    + eapply linked_grow; [done|]. by apply prefix_app_r.
Qed.

Lemma inv_fold self ss rest n g :
  drop n ss = rest → (n ≤ length ss)%nat → Inv self ss n g →
  Inv self ss (length ss) (fold_left (trace_step self) rest g).
Proof.
  revert n g. induction rest as [|s rest IH]; intros n g Hdrop Hle Hinv; simpl.
  - apply (f_equal length) in Hdrop. rewrite length_drop in Hdrop.
    simpl in Hdrop. by replace (length ss) with n by lia.
  - assert (Hs : ss !! n = Some s).
    { rewrite <- (Nat.add_0_r n), <- lookup_drop, Hdrop. done. }
    apply (IH (S n)).
    + rewrite (drop_S _ _ _ Hs) in Hdrop. by injection Hdrop.
    + by apply lookup_lt_Some in Hs.
    + by apply inv_step.
Qed.

Lemma src_fold self ss g :
  src (fold_left (trace_step self) ss g)
  = fold_left (chunk_step self) ss (src g).
Proof. revert g. induction ss as [|s ss IH]; intros g; simpl; [done|]. by rewrite IH. Qed.

(** The buffers of a run lie in the list of sentences at their recorded
    positions, each is linked to the next, and the chunks returned are
    the joined texts of the buffers that pass the minimum-size test. *)
Lemma buffers_spec self ss :
  _create_chunks self ss
  = join (u " ") <$> filter (λ b, kept self b) (buffers self ss).*2
  ∧ Forall (positioned ss) (buffers self ss)
  ∧ linked self (buffers self ss).
Proof.
  unfold _create_chunks, buffers.
  pose proof (inv_fold self ss ss 0 trace_init (drop_0 ss) ltac:(lia)
                (inv_init self ss))
    as [Hc (front & Hfront & Hlen) Hsize Hne Hchunks Hclosed Hlinked].
  change {| chunks := []; current_chunk := []; current_size := 0 |}
    with (src trace_init).
  rewrite <- src_fold.
  set (g := fold_left (trace_step self) ss trace_init) in *.
  destruct (current_chunk (src g)) as [|s0 b0] eqn:Hcur.
  - split_and!; [done | done |].
    clear -Hlinked. induction (closed g) as [|x l IH]; [done|].
    destruct l as [|y l]; simpl in *; [done|].
    destruct Hlinked as [Hxy Hl]. split; [done | by apply IH].
  - split_and!.
    + rewrite save_chunk_kept, Hchunks, fmap_app, filter_app, fmap_app. done.
    + apply Forall_app. split; [done|]. apply Forall_singleton.
      split; [done|]. exists front, []. simpl. split; [|done].
      rewrite take_ge in Hfront by done. by rewrite app_nil_r.
    + done.
Qed.

Lemma linked_lookup self T i x y :
  linked self T → T !! i = Some x → T !! S i = Some y → link self x y.
Proof.
  revert i. induction T as [|z T IH]; intros i Hl Hx Hy; [done|].
  destruct T as [|w T]; [done|]. destruct Hl as [Hzw Hl].
  destruct i as [|i]; simpl in *.
  - by simplify_eq.
  - by eapply IH.
Qed.

(** A later buffer starts no earlier than the carried sentences of an
    earlier one. *)
Lemma linked_later self T i j x y :
  linked self T → (i < j)%nat → T !! i = Some x → T !! j = Some y →
  (x.1 + length x.2 ≤ y.1 + length (carried self x.2))%nat
  ∧ (x.1 ≤ y.1)%nat.
Proof.
  intros Hl Hij Hx. revert y. induction j as [|j IH]; intros y Hy; [lia|].
  assert (is_Some (T !! j)) as [w Hw].
  { apply lookup_lt_is_Some. apply lookup_lt_Some in Hy. lia. }
  destruct (linked_lookup self T j w y Hl Hw Hy) as (H1 & _ & _).
  pose proof (carried_length self w.2).
  pose proof (carried_length self x.2).
  destruct (decide (i = j)) as [->|Hne].
  - simplify_eq. lia.
  - destruct (IH ltac:(lia) w Hw). lia.
Qed.

(** *** Chunk dictionaries *)

Lemma update_lookup md (d : dict) k :
  update md d !! k
  = match caller_value md k with Some v => Some v | None => d !! k end.
Proof.
  destruct md as [m|]; simpl; [|done].
  destruct (decide (m = ∅)) as [->|_].
  - by rewrite lookup_empty.
  - rewrite lookup_union. by destruct (m !! k), (d !! k).
Qed.

Lemma chunk_text_lookup self text md i d :
  chunk_text self text md !! i = Some d →
  ∃ c, _create_chunks self (_split_sentences text) !! i = Some c
       ∧ d = update md (chunk_dict i
                 (length (_create_chunks self (_split_sentences text))) c).
Proof.
  unfold chunk_text.
  destruct (negb (nonempty text) || negb (nonempty (strip text))); [done|].
  rewrite list_lookup_imap.
  destruct (_create_chunks self (_split_sentences text) !! i) as [c|];
    simpl; [|done].
  intros [= <-]. by exists c.
Qed.

Lemma chunk_text_length self text md :
  length (chunk_text self text md)
  = if negb (nonempty text) || negb (nonempty (strip text)) then 0%nat
    else length (_create_chunks self (_split_sentences text)).
Proof.
  unfold chunk_text.
  destruct (negb (nonempty text) || negb (nonempty (strip text))); [done|].
  by rewrite length_imap.
Qed.

Lemma create_chunks_min_size self ss :
  Forall (λ c, min_chunk_size self ≤ len c) (_create_chunks self ss).
Proof.
  destruct (buffers_spec self ss) as (-> & _ & _).
  apply Forall_fmap, Forall_forall. intros b Hb.
  apply list_elem_of_filter in Hb as [Hk _].
  apply Is_true_true in Hk. by apply Z.leb_le in Hk.
Qed.

(** C2 (as amended).  Every chunk text [_create_chunks] returns is at
    least [min_chunk_size] long, and so is the content of every chunk of
    [chunk_text] whose content the caller's metadata does not replace.
    No buffer is exempt: the chunks are the joined buffers of the run
    that pass the minimum-size test, the last buffer among them. *)
Theorem chunks_reach_min_size (self : TextChunker) :
  (∀ sentences,
     Forall (λ c, min_chunk_size self ≤ len c) (_create_chunks self sentences)
     ∧ _create_chunks self sentences
       = join (u " ") <$> filter (λ b, kept self b) (buffers self sentences).*2)
  ∧ (∀ text metadata d,
       caller_value metadata "content" = None →
       d ∈ chunk_text self text metadata →
       ∃ c, d !! "content" = Some (VStr c) ∧ min_chunk_size self ≤ len c).
Proof.
  split.
  - intros ss. split; [apply create_chunks_min_size | apply buffers_spec].
  - intros text md d Hmd [i Hd]%list_elem_of_lookup.
    apply chunk_text_lookup in Hd as (c & Hc & ->).
    exists c. split.
    + rewrite update_lookup, Hmd. unfold chunk_dict. by simplify_map_eq.
    + pose proof (create_chunks_min_size self (_split_sentences text)) as Hall.
      rewrite Forall_forall in Hall. apply Hall.
      apply list_elem_of_lookup. by exists i.
Qed.

(** C2, counterexample.  With the default configuration the text "Hi."
    makes one buffer, the final remainder of the document; it is shorter
    than [min_chunk_size] and is dropped: no chunk is returned. *)
Lemma final_remainder_dropped :
  buffers default_chunker (_split_sentences (u "Hi.")) = [(0%nat, [u "Hi."])]
  ∧ _create_chunks default_chunker (_split_sentences (u "Hi.")) = []
  ∧ chunk_text default_chunker (u "Hi.") None = [].
Proof. vm_compute. done. Qed.

Lemma positioned_sublist ss ab :
  positioned ss ab → sublist_lookup ab.1 (length ab.2) ss = Some ab.2.
Proof.
  intros (_ & front & back & -> & <-). unfold sublist_lookup.
  rewrite option_guard_True by (rewrite !length_app; lia). simpl.
  by rewrite drop_app_length, take_app_length.
Qed.

(** C5.  Write [T] for the buffers of a run of
    [_create_chunks], each with the index of its first sentence; the
    chunks returned are the joined buffers of [T] that pass the
    minimum-size test.  Every buffer is a run of whole consecutive
    sentences of the input.  Whenever a buffer [b] is closed, the next
    buffer opens with [carried self b], a suffix of the sentences of [b]
    picked from the end backward: either all of [b], or stopping at a
    sentence that would exceed [chunk_overlap].  The sentences any
    buffer shares with a later one (those of [b] from the start of the
    later buffer on) have a combined length of at most [chunk_overlap]
    ([Z.max 0 (chunk_overlap self)] is [chunk_overlap self] for an
    overlap that is a number of characters; nothing is carried when it
    is negative). *)
Theorem overlap_whole_sentences (self : TextChunker) (sentences : list str) :
  let T := buffers self sentences in
  _create_chunks self sentences
  = join (u " ") <$> filter (λ b, kept self b) T.*2
  ∧ (∀ a b, (a, b) ∈ T →
       b ≠ [] ∧ sublist_lookup a (length b) sentences = Some b)
  ∧ (∀ i a b a' b',
       T !! i = Some (a, b) → T !! S i = Some (a', b') →
       carried self b `suffix_of` b
       ∧ carried self b `prefix_of` b'
       ∧ (length (carried self b) < length b')%nat
       ∧ (a' + length (carried self b) = a + length b)%nat
       ∧ total_len (carried self b) ≤ Z.max 0 (chunk_overlap self)
       ∧ (carried self b = b ∨
          ∃ front s, b = front ++ s :: carried self b
                     ∧ chunk_overlap self < total_len (carried self b) + len s))
  ∧ (∀ i j a b a' b',
       (i < j)%nat → T !! i = Some (a, b) → T !! j = Some (a', b') →
       (a ≤ a')%nat
       ∧ total_len (drop (a' - a) b) ≤ Z.max 0 (chunk_overlap self)).
Proof.
  intros T. destruct (buffers_spec self sentences) as (Hout & Hpos & Hlink).
  fold T in Hout, Hpos, Hlink. split_and!.
  - done.
  - intros a b Hab. rewrite Forall_forall in Hpos.
    specialize (Hpos _ Hab). split; [apply Hpos|].
    by apply (positioned_sublist sentences (a, b)).
  - intros i a b a' b' Hi HSi.
    destruct (linked_lookup self T i _ _ Hlink Hi HSi) as (H1 & H2 & H3).
    destruct (carried_spec self b) as (front & Hb & _ & Hbound & Hmax).
    simpl in *. split_and!; try done.
    + by exists front.
    + destruct Hmax as [->|(front' & s & -> & Hs)].
      * left. by rewrite Hb at 2.
      * right. exists front', s. split; [|done].
        rewrite Hb at 1. by rewrite <- app_assoc.
  - intros i j a b a' b' Hij Hi Hj.
    destruct (linked_later self T i j _ _ Hlink Hij Hi Hj) as [H1 H2].
    destruct (carried_spec self b) as (front & Hb & _ & Hbound & _).
    simpl in *. split; [done|].
    assert (Hlen : length b = (length front + length (carried self b))%nat).
    { rewrite Hb at 1. by rewrite length_app. }
    rewrite Hb. rewrite drop_app_ge by lia.
    etrans; [apply total_len_drop | done].
Qed.

(** A run with three buffers, the middle one carrying one sentence on
    each side. *)
Example buffers_three :
  buffers {| chunk_size := 5; chunk_overlap := 3; min_chunk_size := 1 |}
          [u "Aa."; u "Bb."; u "Cccccc."; u "D."]
  = [(0%nat, [u "Aa."]); (0%nat, [u "Aa."; u "Bb."]);
     (1%nat, [u "Bb."; u "Cccccc."]); (3%nat, [u "D."])].
Proof. vm_compute. done. Qed.

(** C6 (as amended).  In the output of [chunk_text], when the caller's
    metadata has neither of the keys [chunk_index] and [total_chunks],
    and in the output of [chunk_by_sections] whatever the metadata, the
    chunk at position [i] has [chunk_index = i] and every chunk has
    [total_chunks] equal to the length of the output.  The output of
    [chunk_by_sections] is the concatenation, in section order, of the
    chunks of the sections, with these two keys rewritten and every
    other key left as it was. *)
Theorem index_density (self : TextChunker) :
  (∀ text metadata i d,
     caller_value metadata "chunk_index" = None →
     caller_value metadata "total_chunks" = None →
     chunk_text self text metadata !! i = Some d →
     d !! "chunk_index" = Some (VInt (Z.of_nat i))
     ∧ d !! "total_chunks"
       = Some (VInt (Z.of_nat (length (chunk_text self text metadata)))))
  ∧ (∀ sections metadata,
       let per_section := concat (section_chunks self metadata <$> sections) in
       let out := chunk_by_sections self sections metadata in
       length out = length per_section
       ∧ ∀ i d,
           out !! i = Some d →
           d !! "chunk_index" = Some (VInt (Z.of_nat i))
           ∧ d !! "total_chunks" = Some (VInt (Z.of_nat (length out)))
           ∧ ∃ d0, per_section !! i = Some d0
                   ∧ ∀ k, k ≠ "chunk_index" → k ≠ "total_chunks" →
                          d !! k = d0 !! k).
Proof.
  split.
  - intros text md i d Hci Htc Hd.
    pose proof (chunk_text_length self text md) as Hlen.
    pose proof Hd as Hd'. unfold chunk_text in Hd'.
    destruct (negb (nonempty text) || negb (nonempty (strip text)));
      [done|]. clear Hd'.
    apply chunk_text_lookup in Hd as (c & Hc & ->).
    rewrite !update_lookup, Hci, Htc, Hlen. unfold chunk_dict.
    by simplify_map_eq.
  - intros sections md per_section out.
    assert (Hlen : length out = length per_section).
    { unfold out, chunk_by_sections. by rewrite length_imap. }
    split; [done|]. intros i d Hd.
    unfold out, chunk_by_sections in Hd. rewrite list_lookup_imap in Hd.
    fold per_section in Hd.
    destruct (per_section !! i) as [d0|] eqn:Hd0; simpl in Hd; [|done].
    injection Hd as <-. rewrite Hlen. split_and!.
    + by simplify_map_eq.
    + by simplify_map_eq.
    + exists d0. split; [done|]. intros k Hk1 Hk2. by simplify_map_eq.
Qed.

(** C6, counterexample.  A caller whose metadata has the key
    [chunk_index] gets that value in every chunk of [chunk_text]: the
    only chunk of the output has index 7, not 0. *)
Lemma caller_chunk_index_wins :
  let out := chunk_text small_chunker (u "Hello world.")
               (Some {["chunk_index" := VInt 7]}) in
  length out = 1%nat
  ∧ (out !! 0%nat) ≫= (λ d : dict, d !! "chunk_index") = Some (VInt 7).
Proof. vm_compute. done. Qed.

(** C7 (as amended).  The chunk at position [i] of [chunk_text] is built
    from the [i]-th chunk text [c]: every key of the caller's metadata
    has the caller's value, and each of [content], [char_count] and
    [word_count] that the caller does not supply is [c], the length of
    [c] and the number of white-space-delimited tokens of [c]. *)
Theorem chunk_fields (self : TextChunker) text metadata i (d : dict) :
  chunk_text self text metadata !! i = Some d →
  ∃ c, _create_chunks self (_split_sentences text) !! i = Some c
    ∧ (∀ k v, caller_value metadata k = Some v → d !! k = Some v)
    ∧ (caller_value metadata "content" = None →
       d !! "content" = Some (VStr c))
    ∧ (caller_value metadata "char_count" = None →
       d !! "char_count" = Some (VInt (len c)))
    ∧ (caller_value metadata "word_count" = None →
       d !! "word_count" = Some (VInt (Z.of_nat (length (split c))))).
Proof.
  intros (c & Hc & ->)%chunk_text_lookup. exists c. split_and!.
  - done.
  - intros k v Hk. by rewrite update_lookup, Hk.
  - intros Hk. rewrite update_lookup, Hk. unfold chunk_dict. by simplify_map_eq.
  - intros Hk. rewrite update_lookup, Hk. unfold chunk_dict. by simplify_map_eq.
  - intros Hk. rewrite update_lookup, Hk. unfold chunk_dict. by simplify_map_eq.
Qed.

(** C7, at the chunk the module's own test makes of a one-sentence
    text. *)
Lemma chunk_fields_witness :
  ∃ c, _create_chunks small_chunker
         (_split_sentences (u "Hello world.")) !! 0%nat = Some c
    ∧ (∀ k v, caller_value test_metadata k = Some v → hello_chunk !! k = Some v)
    ∧ (caller_value test_metadata "content" = None →
       hello_chunk !! "content" = Some (VStr c))
    ∧ (caller_value test_metadata "char_count" = None →
       hello_chunk !! "char_count" = Some (VInt (len c)))
    ∧ (caller_value test_metadata "word_count" = None →
       hello_chunk !! "word_count" = Some (VInt (Z.of_nat (length (split c))))).
Proof.
  apply (chunk_fields small_chunker (u "Hello world.") test_metadata 0
           hello_chunk).
  vm_compute. reflexivity.
Defined.

(** C7, counterexample.  A caller whose metadata has the key
    [char_count] gets that value: the chunk has [char_count = 0] while
    its content is the 12 characters of the text. *)
Lemma caller_char_count_wins :
  let out := chunk_text small_chunker (u "Hello world.")
               (Some {["char_count" := VInt 0]}) in
  (out !! 0%nat) ≫= (λ d : dict, d !! "char_count") = Some (VInt 0)
  ∧ (out !! 0%nat) ≫= (λ d : dict, d !! "content")
    = Some (VStr (u "Hello world."))
  ∧ len (u "Hello world.") = 12.
Proof. vm_compute. done. Qed.

(** C9, counterexample.  A chunker with [chunk_size = 0] is constructed
    without any exception, and chunks a text: every sentence closes the
    buffer before it. *)
Lemma init_accepts_zero_chunk_size :
  __init__ 0 200 100
  = Returns {| chunk_size := 0; chunk_overlap := 200; min_chunk_size := 100 |}
  ∧ (∀ e, __init__ 0 200 100 ≠ Raises e)
  ∧ _create_chunks {| chunk_size := 0; chunk_overlap := 0; min_chunk_size := 0 |}
      [u "Aa."; u "Bb."] = [u "Aa."; u "Bb."].
Proof. split_and!; [done | done | by vm_compute]. Qed.

End ChunkerFacts.

(* ===================================================================== *)
(** ** Retrieval *)
(* ===================================================================== *)

Module RetrieverFacts.
Import Text Retriever RetrieverSpec.

(** *** The stable sort *)

Section sort.
Context {A : Type} (key : A → Z).


Lemma insert_desc_perm x l : insert_desc key x l ≡ₚ x :: l.
Proof.
  induction l as [|y l IH]; simpl; [done|].
  destruct (key x <? key y); [|done].
  rewrite IH. apply Permutation_swap.
Qed.

Lemma sort_desc_perm l : sort_desc key l ≡ₚ l.
Proof.
  induction l as [|x l IH]; simpl; [done|].
  by rewrite insert_desc_perm, IH.
Qed.

Lemma insert_desc_sorted x l :
  StronglySorted (desc key) l → StronglySorted (desc key) (insert_desc key x l).
Proof.
  induction 1 as [|y l Hl IH Hy]; simpl.
  - repeat constructor.
  - destruct (Z.ltb_spec (key x) (key y)) as [Hlt|Hge].
    + constructor; [done|].
      rewrite insert_desc_perm. constructor; [unfold desc; lia | done].
    + constructor; [by constructor|].
      constructor; [done|].
      eapply Forall_impl; [exact Hy|]. unfold desc. intros z Hz. lia.
Qed.

Lemma sort_desc_sorted l : StronglySorted (desc key) (sort_desc key l).
Proof.
  induction l as [|x l IH]; simpl; [constructor|].
  by apply insert_desc_sorted.
Qed.

(** Stability: the elements of any one key keep their order. *)
Lemma insert_desc_stable v x l :
  filter (λ y, key y = v) (insert_desc key x l)
  = filter (λ y, key y = v) (x :: l).
Proof.
  induction l as [|y l IH]; simpl; [done|].
  destruct (Z.ltb_spec (key x) (key y)) as [Hlt|Hge]; [|done].
  rewrite filter_cons, IH, !filter_cons.
  destruct (decide (key y = v)), (decide (key x = v)); try done. lia.
Qed.

Lemma sort_desc_stable v l :
  filter (λ y, key y = v) (sort_desc key l) = filter (λ y, key y = v) l.
Proof.
  induction l as [|x l IH]; simpl; [done|].
  by rewrite insert_desc_stable, !filter_cons, IH.
Qed.

Lemma slice_to_take k (l : list A) :
  0 ≤ k → slice_to k l = take (Z.to_nat k) l.
Proof. intros Hk. unfold slice_to. by destruct (Z.leb_spec 0 k); [|lia]. Qed.
End sort.

(** *** The score *)

Lemma elements_list_to_set_dups (l : list str) :
  elements (list_to_set l : gset str) ≡ₚ remove_dups l.
Proof.
  apply NoDup_Permutation.
  - apply NoDup_elements.
  - apply NoDup_remove_dups.
  - intros x. rewrite elem_of_elements, elem_of_list_to_set.
    by rewrite elem_of_remove_dups.
Qed.

(** The loop over the set of terms adds up, in whatever order the set
    is read, the counts of the retained terms. *)
Lemma term_score_sum content query :
  term_score content (list_to_set (split (lower query)))
  = sum_Z ((λ term, count content term) <$> retained_terms query).
Proof.
  unfold term_score, set_fold, retained_terms. simpl.
  set (f := λ (term : str) (score : Z),
              if len term <? 3 then score else score + count content term).
  trans (foldr f 0 (remove_dups (split (lower query)))).
  - apply (foldr_permutation_proper (=) f 0).
    + intros a1 a2 b. unfold f.
      destruct (len a1 <? 3), (len a2 <? 3); lia.
    + apply elements_list_to_set_dups.
  - induction (remove_dups (split (lower query))) as [|term l IH]; [done|].
    simpl. rewrite IH, filter_cons. unfold f at 1.
    destruct (Z.ltb_spec (len term) 3) as [Hlt|Hge].
    + rewrite decide_False by lia. done.
    + rewrite decide_True by lia. rewrite fmap_cons.
      change (sum_Z (?x :: ?l)) with (x + sum_Z l). lia.
Qed.

Lemma content_lower_text chunk :
  content_is_text chunk = true →
  content_lower chunk = Returns (lower (content_of chunk)).
Proof.
  unfold content_is_text, content_lower, content_of.
  by destruct (chunk !! "content") as [[s|z]|].
Qed.

Lemma score_chunks_text query corpus acc :
  text_corpus corpus →
  score_chunks (list_to_set (split (lower query))) corpus acc
  = Returns (acc ++ candidates query corpus).
Proof.
  unfold text_corpus. revert acc.
  induction corpus as [|chunk corpus IH]; intros acc Hall; simpl.
  - unfold candidates. simpl. by rewrite app_nil_r.
  - simpl in Hall. apply andb_true_iff in Hall as [Htext Hall].
    rewrite content_lower_text by done. simpl.
    rewrite term_score_sum. fold (score query chunk).
    rewrite IH by done. unfold candidates. rewrite filter_cons.
    destruct (Z.ltb_spec 0 (score query chunk)) as [Hpos|Hle].
    + rewrite decide_True by done. simpl. by rewrite <- app_assoc.
    + rewrite decide_False by lia. done.
Qed.

Lemma keyword_retrieval_text self query top_k :
  text_corpus (chunks self) →
  _keyword_retrieval self query top_k
  = Returns (slice_to top_k (sort_desc score_key (candidates query (chunks self)))).
Proof.
  intros Hall. unfold _keyword_retrieval.
  by rewrite (score_chunks_text _ _ [] Hall).
Qed.

Lemma retrieve_keyword_text self query top_k :
  text_corpus (chunks self) →
  retrieve self query top_k "keyword"
  = Returns (slice_to top_k
               (sort_desc score_key
                  (candidates (_translate_query query) (chunks self)))).
Proof.
  intros Hall. unfold retrieve.
  destruct (chunks self) as [|c cs] eqn:Hcs.
  - unfold slice_to, candidates. simpl.
    destruct (0 <=? top_k); by rewrite ?take_nil.
  - rewrite decide_True by done. rewrite <- Hcs in *.
    by apply keyword_retrieval_text.
Qed.

Lemma score_key_scored query chunk :
  score_key (scored query chunk) = score query chunk.
Proof. unfold score_key, scored. by rewrite lookup_insert_eq. Qed.

Lemma elem_of_slice_to {A} k (l : list A) x : x ∈ slice_to k l → x ∈ l.
Proof.
  unfold slice_to. destruct (0 <=? k); intros Hx.
  - by eapply subseteq_take.
  - by eapply subseteq_take.
Qed.

Lemma elem_of_candidates query corpus r :
  r ∈ candidates query corpus ↔
  ∃ chunk, chunk ∈ corpus ∧ 0 < score query chunk ∧ r = scored query chunk.
Proof.
  unfold candidates. rewrite list_elem_of_fmap. split.
  - intros (chunk & -> & [Hpos Hin]%list_elem_of_filter). by exists chunk.
  - intros (chunk & Hin & Hpos & ->). exists chunk. split; [done|].
    by apply list_elem_of_filter.
Qed.

(** C3, counterexample.  The token "aaa" occurs at two places of the
    content "aaaa", which overlap; the chunk is returned with score 1.
    The query "immune immune" has the token "immune" twice; the chunk
    "immune immune" is returned with score 2, the count of the token
    taken once, where the sum over the tokens of the query is 4. *)
Lemma score_counts_disjoint_matches_once :
  retrieve {| chunks := [text_chunk "aaaa"] |} (u "aaa") 5 "keyword"
  = Returns [<["score" := VInt 1]> (text_chunk "aaaa")]
  ∧ score_as_specified (_translate_query (u "aaa")) (u "aaaa") = 2
  ∧ retrieve {| chunks := [text_chunk "immune immune"] |}
             (u "immune immune") 5 "keyword"
    = Returns [<["score" := VInt 2]> (text_chunk "immune immune")]
  ∧ score_as_specified (_translate_query (u "immune immune"))
                       (u "immune immune") = 4.
Proof. vm_compute. done. Qed.

(** The ranking of [corpus5] for the query "Ganoderma immune": the
    chunk with both terms first, then the two chunks of one term by
    score. *)
Example retrieve_corpus5 :
  retrieve corpus5 (u "Ganoderma immune") 5 "keyword"
  = Returns
      [ <["score" := VInt 3]> (text_chunk "Ganoderma is here, ganoderma immune");
        <["score" := VInt 2]> (text_chunk "immune immune");
        <["score" := VInt 1]> (text_chunk "Ganoderma once") ].
Proof. vm_compute. done. Qed.

(** C10.  [retrieve] with the method "vector" returns what it returns
    with the method "keyword"; with any other method it returns the
    empty list. *)
Theorem vector_is_keyword (self : SimpleRetriever) (query : str) (top_k : Z) :
  retrieve self query top_k "vector" = retrieve self query top_k "keyword"
  ∧ ∀ method, method ≠ "keyword" → method ≠ "vector" →
              retrieve self query top_k method = Returns [].
Proof.
  unfold retrieve, _vector_retrieval. split.
  - by destruct (chunks self).
  - intros method H1 H2. destruct (chunks self); [done|].
    by rewrite !decide_False.
Qed.

End RetrieverFacts.

(* ===================================================================== *)
(** ** Structure extraction: what the scan reads and returns *)
(* ===================================================================== *)

Module PdfParserMore.
Import Text Regex PdfParser PdfLines.

(** The scan of a page is the scan of the lines of its text blocks,
    block by block. *)
Lemma scan_blocks_filter n p st :
  scan_blocks n (filter (λ b, type b = 0) p) st = scan_blocks n p st.
Proof.
  unfold scan_blocks. revert st.
  induction p as [|b p IH]; intros st; [done|].
  rewrite filter_cons. simpl.
  destruct (Z.eqb_spec (type b) 0) as [H0|Hne].
  - rewrite decide_True by done. simpl.
    destruct (Z.eqb_spec (type b) 0); [|done]. apply IH.
  - rewrite decide_False by done. apply IH.
Qed.

(** X4.  Blocks that are not text blocks (images) play no part: the
    structure of a document is that of the document with these blocks
    removed. *)
Theorem extract_structure_text_blocks (doc : document) :
  _extract_structure (filter (λ b, type b = 0) <$> doc)
  = _extract_structure doc.
Proof.
  unfold _extract_structure.
  assert (H : ∀ first st,
            scan_pages first (filter (λ b, type b = 0) <$> doc) st
            = scan_pages first doc st).
  { induction doc as [|p doc IH]; intros first st; simpl; [done|].
    by rewrite scan_blocks_filter, IH. }
  by rewrite H.
Qed.

End PdfParserMore.

(* ===================================================================== *)
(** ** Stripping and sentence splitting *)
(* ===================================================================== *)

Module SentenceFacts.
Import Text Chunker ChunkerTrace Sentences.

Lemma lstrip_blank s : Forall (λ c, isspace c = true) s → lstrip s = [].
Proof. induction 1 as [|c s Hc _ IH]; simpl; [done|]. by rewrite Hc. Qed.

Lemma strip_blank s : Forall (λ c, isspace c = true) s → strip s = [].
Proof. intros H. unfold strip, rstrip. by rewrite (lstrip_blank s H). Qed.

Lemma lstrip_cons_space c s : isspace c = true → lstrip (c :: s) = lstrip s.
Proof. intros H. simpl. by rewrite H. Qed.

Lemma lstrip_cons_letter c s : isspace c = false → lstrip (c :: s) = c :: s.
Proof. intros H. simpl. by rewrite H. Qed.

Lemma lstrip_head s :
  lstrip s = [] ∨ ∃ c t, lstrip s = c :: t ∧ isspace c = false.
Proof.
  induction s as [|c s IH]; simpl; [by left|].
  destruct (isspace c) eqn:E; [done|]. right. by exists c, s.
Qed.

Lemma lstrip_snoc l c : isspace c = false → lstrip (l ++ [c]) = lstrip l ++ [c].
Proof.
  intros H. induction l as [|x l IH]; simpl; [by rewrite H|].
  by destruct (isspace x).
Qed.

Lemma rstrip_cons c s : isspace c = false → rstrip (c :: s) = c :: rstrip s.
Proof.
  intros H. unfold rstrip. simpl.
  by rewrite lstrip_snoc, rev_app_distr.
Qed.

Lemma rstrip_snoc s c : isspace c = false → rstrip (s ++ [c]) = s ++ [c].
Proof.
  intros H. unfold rstrip. rewrite rev_app_distr. simpl. rewrite H.
  simpl. by rewrite rev_involutive.
Qed.

Lemma rstrip_last s :
  rstrip s = [] ∨ ∃ t c, rstrip s = t ++ [c] ∧ isspace c = false.
Proof.
  unfold rstrip. destruct (lstrip_head (rev s)) as [->|(c & t & -> & Hc)].
  - by left.
  - right. exists (rev t), c. by simpl.
Qed.

(** A stripped text is empty, or opens and closes with a character that
    is not white space. *)
Lemma strip_ends s :
  strip s = [] ∨
  ((∃ c t, strip s = c :: t ∧ isspace c = false)
   ∧ (∃ t c, strip s = t ++ [c] ∧ isspace c = false)).
Proof.
  unfold strip. destruct (lstrip_head s) as [->|(c & t & -> & Hc)].
  - by left.
  - right. split.
    + exists c, (rstrip t). by rewrite rstrip_cons.
    + destruct (rstrip_last (c :: t)) as [Hnil|Hlast]; [|done].
      by rewrite rstrip_cons in Hnil.
Qed.

Lemma strip_letter_first c t :
  isspace c = false → ∃ t', strip (c :: t) = c :: t'.
Proof.
  intros H. unfold strip. rewrite lstrip_cons_letter by done.
  exists (rstrip t). by apply rstrip_cons.
Qed.

Lemma strip_letter_last t c :
  isspace c = false → ∃ t', strip (t ++ [c]) = t' ++ [c].
Proof.
  intros H. unfold strip. rewrite lstrip_snoc by done.
  exists (lstrip t). by apply rstrip_snoc.
Qed.

Lemma length_lstrip s : (length (lstrip s) ≤ length s)%nat.
Proof.
  induction s as [|c s IH]; simpl; [done|].
  destruct (isspace c); simpl; lia.
Qed.

Lemma length_strip s : (length (strip s) ≤ length s)%nat.
Proof.
  unfold strip, rstrip. rewrite length_rev.
  etrans; [apply length_lstrip|]. rewrite length_rev. apply length_lstrip.
Qed.

(** *** Stripping removes white space only *)

Lemma letters_app s1 s2 : letters (s1 ++ s2) = letters s1 ++ letters s2.
Proof. apply List.filter_app. Qed.

Lemma letters_lstrip s : letters (lstrip s) = letters s.
Proof.
  induction s as [|c s IH]; simpl; [done|].
  destruct (isspace c) eqn:E; simpl; [done|]. by rewrite E.
Qed.

Lemma letters_strip s : letters (strip s) = letters s.
Proof.
  unfold strip, rstrip, letters.
  rewrite List.filter_rev. fold (letters (lstrip (rev (lstrip s)))).
  rewrite letters_lstrip. unfold letters.
  rewrite List.filter_rev, rev_involutive.
  apply letters_lstrip.
Qed.

Lemma letters_nil_strip s : strip s = [] → letters s = [].
Proof. intros H. by rewrite <- letters_strip, H. Qed.

Lemma strip_nonempty_letters s : strip s ≠ [] → letters s ≠ [].
Proof.
  intros H. destruct (strip_ends s) as [|[(c & t & Hs & Hc) _]]; [done|].
  rewrite <- letters_strip, Hs. simpl. by rewrite Hc.
Qed.

Lemma letters_split_pieces s a i cur :
  letters (concat (split_pieces s a i cur)) = letters (rev cur ++ s).
Proof.
  revert a i cur. induction s as [|c s IH]; intros a i cur; simpl.
  - by rewrite !app_nil_r.
  - destruct (isspace c) eqn:Hc; simpl.
    + destruct i; simpl.
      * rewrite IH, !letters_app. simpl. by rewrite Hc.
      * destruct (a && match lstrip s with
                       | [] => false
                       | d :: _ => is_upper_cp d
                       end).
        -- simpl. rewrite letters_app, IH, !letters_app. simpl. by rewrite Hc.
        -- rewrite IH. simpl. by rewrite <- app_assoc.
    + rewrite IH. simpl. by rewrite <- app_assoc.
Qed.

Lemma letters_sentences pieces :
  letters (concat (strip <$> filter (λ s, nonempty (strip s) = true) pieces))
  = letters (concat pieces).
Proof.
  induction pieces as [|p pieces IH]; [done|].
  rewrite filter_cons. simpl. rewrite letters_app, <- IH.
  destruct (decide (nonempty (strip p) = true)) as [Hp|Hp]; simpl.
  - by rewrite letters_app, letters_strip.
  - rewrite (letters_nil_strip p); [done|].
    by destruct (strip p).
Qed.

(** X13.  Sentence splitting loses nothing but white space: the
    characters of the sentences that are not white space are, in order,
    those of the text. *)
Theorem split_sentences_letters (text : str) :
  letters (concat (_split_sentences text)) = letters text.
Proof.
  unfold _split_sentences.
  by rewrite letters_sentences, letters_split_pieces.
Qed.

(** X12.  Every sentence opens and closes with a character that is not
    white space; in particular no sentence is empty. *)
Theorem split_sentences_stripped (text : str) :
  Forall (λ s, (∃ c t, s = c :: t ∧ isspace c = false)
               ∧ (∃ t c, s = t ++ [c] ∧ isspace c = false))
         (_split_sentences text).
Proof.
  unfold _split_sentences. apply Forall_fmap, Forall_forall.
  intros p [Hp _]%list_elem_of_filter. simpl.
  destruct (strip_ends p) as [Hnil|H]; [|done].
  by rewrite Hnil in Hp.
Qed.

(** *** Where sentences begin and end *)

Lemma upper_not_space d : is_upper_cp d = true → isspace d = false.
Proof.
  unfold is_upper_cp, isspace, in_range.
  rewrite andb_true_iff, !N.leb_le.
  rewrite !orb_false_iff, !andb_false_iff, !N.leb_gt, !N.eqb_neq. lia.
Qed.

Lemma stop_not_space c : is_stop c = true → isspace c = false.
Proof.
  unfold is_stop, isspace, in_range.
  rewrite !orb_true_iff, !N.eqb_eq.
  rewrite !orb_false_iff, !andb_false_iff, !N.leb_gt, !N.eqb_neq. lia.
Qed.

(** The pieces [re.split] returns: every piece but the first opens with
    a capital letter, every piece but the last closes with one of
    [.!?]. *)
Lemma split_pieces_shape s a i cur :
  (a = true → ∃ c cur', cur = c :: cur' ∧ is_stop c = true) →
  (i = true → cur = [] ∧ ∃ d r, lstrip s = d :: r ∧ is_upper_cp d = true) →
  ∃ p0 others,
    split_pieces s a i cur = p0 :: others
    ∧ rev cur `prefix_of` p0
    ∧ (i = true → starts_upper p0)
    ∧ Forall starts_upper others
    ∧ Forall ends_stop (removelast (p0 :: others)).
Proof.
  revert a i cur. induction s as [|c s IH]; intros a i cur Ha Hi.
  - exists (rev cur), []. simpl. split_and!; try done.
    intros ->. by destruct (Hi eq_refl) as (_ & d & r & ? & _).
  - assert (Helse : (i = true → isspace c = false) →
              ∃ p0 others,
                split_pieces s (is_stop c) false (c :: cur) = p0 :: others
                ∧ rev cur `prefix_of` p0
                ∧ (i = true → starts_upper p0)
                ∧ Forall starts_upper others
                ∧ Forall ends_stop (removelast (p0 :: others))).
    { intros Hic.
      destruct (IH (is_stop c) false (c :: cur)) as (p0 & others & Hp & Hpre & _ & Ho & He).
      - intros Hst. by exists c, cur.
      - done.
      - exists p0, others. simpl in Hpre. split_and!; try done.
        + etrans; [|exact Hpre]. by apply prefix_app_r.
        + intros ->. destruct (Hi eq_refl) as (-> & d & r & Hl & Hd).
          rewrite lstrip_cons_letter in Hl by auto. injection Hl as <- <-.
          simpl in Hpre. destruct Hpre as [k ->]. by exists c, k. }
    simpl. destruct (isspace c) eqn:Hc; simpl; [|by apply Helse].
    destruct i; simpl.
    + destruct (Hi eq_refl) as (-> & d & r & Hl & Hd).
      rewrite lstrip_cons_space in Hl by done.
      apply IH; [done|]. intros _. split; [done|]. by exists d, r.
    + destruct a; simpl; [|by apply Helse].
      destruct (lstrip s) as [|d r] eqn:Hl; [by apply Helse|].
      destruct (is_upper_cp d) eqn:Hd; [|by apply Helse].
      destruct (IH false true []) as (p1 & others & Hp & _ & Hu & Ho & He).
      * done.
      * intros _. split; [done|]. by exists d, r.
      * exists (rev cur), (p1 :: others). rewrite Hp.
        split_and!; try done.
        -- constructor; [by apply Hu | done].
        -- change (removelast (rev cur :: p1 :: others))
             with (rev cur :: removelast (p1 :: others)).
           constructor; [|done].
           destruct (Ha eq_refl) as (c0 & cur' & -> & Hc0).
           exists (rev cur'), c0. by simpl.
Qed.

Lemma removelast_snoc {A} (l : list A) x : removelast (l ++ [x]) = l.
Proof. apply removelast_last. Qed.

Lemma Forall_removelast {A} (P : A → Prop) l :
  Forall P l → Forall P (removelast l).
Proof.
  induction 1 as [|x l Hx Hl IH]; [done|].
  destruct l; [done|]. change (Forall P (x :: removelast (a :: l))).
  by constructor.
Qed.

Lemma strip_starts_upper p : starts_upper p → starts_upper (strip p) ∧ strip p ≠ [].
Proof.
  intros (d & r & -> & Hd).
  destruct (strip_letter_first d r (upper_not_space d Hd)) as [t' ->].
  split; [by exists d, t' | done].
Qed.

Lemma strip_ends_stop p : ends_stop p → ends_stop (strip p) ∧ strip p ≠ [].
Proof.
  intros (r & c & -> & Hc).
  destruct (strip_letter_last r c (stop_not_space c Hc)) as [t' ->].
  split; [by exists t', c | by destruct t'].
Qed.

(** X14.  Sentences break only after one of [.!?] and before a capital
    letter: every sentence but the first opens with a capital letter
    A-Z, and every sentence but the last closes with [.], [!] or [?]. *)
Theorem split_sentences_boundaries (text : str) :
  Forall starts_upper (tail (_split_sentences text))
  ∧ Forall ends_stop (removelast (_split_sentences text)).
Proof.
  unfold _split_sentences.
  destruct (split_pieces_shape text false false []) as (p0 & others & -> & _ & _ & Ho & He);
    [done | done |].
  set (keep := λ s : str, nonempty (strip s) = true).
  assert (Hkeep_up : ∀ l, Forall starts_upper l →
            filter keep l = l ∧ Forall starts_upper (strip <$> l)).
  { intros l Hl. induction Hl as [|p l Hp _ [IH1 IH2]]; [done|].
    destruct (strip_starts_upper p Hp) as [Hs Hne].
    rewrite filter_cons, decide_True, IH1.
    - split; [done|]. rewrite fmap_cons. by constructor.
    - unfold keep. by destruct (strip p). }
  assert (Hkeep_stop : ∀ l, Forall ends_stop l →
            filter keep l = l ∧ Forall ends_stop (strip <$> l)).
  { intros l Hl. induction Hl as [|p l Hp _ [IH1 IH2]]; [done|].
    destruct (strip_ends_stop p Hp) as [Hs Hne].
    rewrite filter_cons, decide_True, IH1.
    - split; [done|]. rewrite fmap_cons. by constructor.
    - unfold keep. by destruct (strip p). }
  split.
  - rewrite filter_cons. destruct (Hkeep_up others Ho) as [-> Hup].
    destruct (decide (keep p0)); simpl; [done|].
    destruct others; simpl in *; [done|]. by inversion Hup.
  - destruct (exists_last (l := p0 :: others)) as (init & plast & Heq); [done|].
    rewrite Heq in *. rewrite removelast_snoc in He.
    rewrite filter_app. destruct (Hkeep_stop init He) as [-> Hst].
    rewrite filter_cons, filter_nil.
    destruct (decide (keep plast)); simpl.
    + rewrite fmap_app. simpl. by rewrite removelast_snoc.
    + rewrite app_nil_r. by apply Forall_removelast.
Qed.

End SentenceFacts.

(* ===================================================================== *)
(** ** Chunking: counts, coverage and sizes *)
(* ===================================================================== *)

Module ChunkerMore.
Import Text Chunker ChunkerTrace ChunkerBounds ChunkerNarrow Sentences.
Import ChunkerFacts SentenceFacts.

(** X6.  A text that is empty or holds white space only gives no chunk,
    whatever the configuration and the metadata. *)
Theorem chunk_text_blank (self : TextChunker) (text : str) (metadata : option dict) :
  Forall (λ c, isspace c = true) text → chunk_text self text metadata = [].
Proof.
  intros H. unfold chunk_text. rewrite (strip_blank text H). simpl.
  by rewrite orb_true_r.
Qed.

(** X6, at a text of two spaces and a line break. *)
Lemma chunk_text_blank_witness :
  chunk_text default_chunker [32; 32; 10]%N test_metadata = [].
Proof.
  apply chunk_text_blank. by repeat constructor.
Defined.

(** *** A text within the target size *)

Lemma total_len_split_pieces s a i cur :
  total_len (split_pieces s a i cur) ≤ len cur + len s.
Proof.
  unfold len. revert a i cur. induction s as [|c s IH]; intros a i cur; simpl.
  - unfold len. rewrite length_rev. lia.
  - destruct (isspace c && i).
    + specialize (IH false true cur). lia.
    + destruct (isspace c && a && _).
      * specialize (IH false true []). simpl in *. unfold len.
        rewrite length_rev. lia.
      * specialize (IH (is_stop c) false (c :: cur)). simpl in IH. lia.
Qed.

Lemma total_len_cons s l : total_len (s :: l) = len s + total_len l.
Proof. done. Qed.

Lemma total_len_stripped (l : list str) :
  total_len (strip <$> filter (λ s, nonempty (strip s) = true) l)
  ≤ total_len l.
Proof.
  induction l as [|p l IH]; [done|].
  rewrite filter_cons, total_len_cons.
  pose proof (length_strip p). pose proof (len_nonneg p).
  destruct (decide (nonempty (strip p) = true)).
  - rewrite fmap_cons, total_len_cons. unfold len in *. lia.
  - lia.
Qed.

(** The sentences of a text are, together, no longer than the text. *)
Lemma total_len_sentences text : total_len (_split_sentences text) ≤ len text.
Proof.
  unfold _split_sentences.
  pose proof (total_len_split_pieces text false false []) as Hp.
  change (len []) with 0 in Hp.
  pose proof (total_len_stripped (split_pieces text false false [])). lia.
Qed.

Lemma fold_no_close self ss st :
  current_size st = total_len (current_chunk st) →
  total_len (current_chunk st) + total_len ss ≤ chunk_size self →
  fold_left (chunk_step self) ss st
  = {| chunks := chunks st;
       current_chunk := current_chunk st ++ ss;
       current_size := current_size st + total_len ss |}.
Proof.
  revert st. induction ss as [|s ss IH]; intros st Hsize Hfit; simpl.
  - rewrite app_nil_r, Z.add_0_r. by destruct st.
  - simpl in Hfit. pose proof (total_len_nonneg ss). pose proof (len_nonneg s).
    assert (Hstep : chunk_step self st s
                    = {| chunks := chunks st;
                         current_chunk := current_chunk st ++ [s];
                         current_size := current_size st + len s |}).
    { unfold chunk_step, closes.
      destruct (Z.ltb_spec (chunk_size self) (current_size st + len s)); [lia|].
      done. }
    rewrite Hstep, IH; simpl.
    + f_equal; [by rewrite <- app_assoc | lia].
    + rewrite total_len_app. simpl. lia.
    + rewrite total_len_app. simpl. lia.
Qed.

Lemma create_chunks_short self ss :
  total_len ss ≤ chunk_size self → ss ≠ [] →
  _create_chunks self ss = save_chunk self [] ss.
Proof.
  intros Hfit Hne. unfold _create_chunks.
  rewrite fold_no_close by done. simpl. by destruct ss.
Qed.

(** X7.  A text no longer than [chunk_size] is never split: [chunk_text]
    returns no chunk, or the single chunk made of all the sentences of
    the text joined by single spaces. *)
Theorem chunk_text_short (self : TextChunker) (text : str) (metadata : option dict) :
  len text ≤ chunk_size self →
  chunk_text self text metadata = []
  ∨ chunk_text self text metadata
    = [update metadata
         (chunk_dict 0 1 (join (u " ") (_split_sentences text)))].
Proof.
  intros Hlen. unfold chunk_text.
  destruct (negb (nonempty text) || negb (nonempty (strip text))); [by left|].
  pose proof (total_len_sentences text) as Hss.
  destruct (_split_sentences text) as [|s ss] eqn:Hsplit; [by left|].
  rewrite create_chunks_short by (done || lia).
  unfold save_chunk.
  destruct (min_chunk_size self <=? len (join (u " ") (s :: ss))); [by right | by left].
Qed.

(** X7, at a text of two sentences and a chunker whose [chunk_size],
    40, the 37 characters of the text fit: the two sentences make one
    chunk.  With [chunk_size = 30] they make two. *)
Lemma chunk_text_short_witness :
  chunk_text fitting_chunker two_sentences None
  = [update None
       (chunk_dict 0 1 (join (u " ") (_split_sentences two_sentences)))]
  ∧ _split_sentences two_sentences
    = [u "Reishi grows on wood."; u "It is a fungus."]
  ∧ length (chunk_text {| chunk_size := 30; chunk_overlap := 10;
                          min_chunk_size := 10 |} two_sentences None) = 2%nat.
Proof.
  split; [|by vm_compute].
  destruct (chunk_text_short fitting_chunker two_sentences None) as [H|H].
  - vm_compute. discriminate.
  - vm_compute in H. discriminate.
  - exact H.
Defined.

(** *** Counting the buffers *)

Lemma link_end self x y : link self x y → (buffer_end x < buffer_end y)%nat.
Proof. unfold link, buffer_end. intros (H1 & _ & H3). lia. Qed.

Lemma positioned_end ss x :
  positioned ss x → (1 ≤ buffer_end x ≤ length ss)%nat.
Proof.
  unfold buffer_end. intros (Hne & front & back & -> & <-).
  rewrite !length_app. destruct x.2; [done|]. simpl. lia.
Qed.

Lemma buffers_count ss self x T :
  linked self (x :: T) → Forall (positioned ss) (x :: T) →
  (buffer_end x + length T ≤ length ss)%nat.
Proof.
  revert x. induction T as [|y T IH]; intros x Hl Hp.
  - apply Forall_cons in Hp as [Hx _]. apply positioned_end in Hx. simpl. lia.
  - destruct Hl as [Hxy Hl]. apply Forall_cons in Hp as [_ Hp].
    specialize (IH y Hl Hp). apply link_end in Hxy. simpl. lia.
Qed.

(** X8.  [_create_chunks] returns at most as many chunks as it is given
    sentences: every buffer holds a sentence that no earlier buffer
    holds. *)
Theorem create_chunks_count (self : TextChunker) (sentences : list str) :
  (length (_create_chunks self sentences) ≤ length (buffers self sentences))%nat
  ∧ (length (buffers self sentences) ≤ length sentences)%nat.
Proof.
  destruct (buffers_spec self sentences) as (-> & Hpos & Hlink). split.
  - rewrite length_fmap. etrans; [apply length_filter|]. by rewrite length_fmap.
  - destruct (buffers self sentences) as [|x T]; [simpl; lia|].
    pose proof (buffers_count sentences self x T Hlink Hpos).
    apply Forall_cons in Hpos as [Hx _]. apply positioned_end in Hx.
    simpl. lia.
Qed.

(** *** Every sentence is in a buffer *)

Lemma first_start_step self g s :
  first_start (trace_step self g s) = first_start g.
Proof.
  unfold first_start, trace_step. simpl.
  destruct (closes self (src g) s); [|done].
  by destruct (closed g).
Qed.

Lemma first_start_fold self ss g :
  first_start (fold_left (trace_step self) ss g) = first_start g.
Proof.
  revert g. induction ss as [|s ss IH]; intros g; simpl; [done|].
  by rewrite IH, first_start_step.
Qed.

(** The first buffer of a run starts at the first sentence and the last
    one ends at the last sentence. *)
Lemma buffers_span self ss :
  ss ≠ [] →
  ∃ x T y, buffers self ss = x :: T
           ∧ x.1 = 0%nat
           ∧ last (x :: T) = Some y
           ∧ buffer_end y = length ss.
Proof.
  intros Hne. unfold buffers.
  pose proof (inv_fold self ss ss 0 trace_init (drop_0 ss) ltac:(lia)
                (inv_init self ss))
    as [Hc (front & Hfront & Hlen) Hsize Hcur Hchunks Hclosed Hlinked].
  pose proof (first_start_fold self ss trace_init) as Hfirst.
  set (g := fold_left (trace_step self) ss trace_init) in *.
  assert (Hn : (0 < length ss)%nat) by (destruct ss; [done | simpl; lia]).
  specialize (Hcur Hn).
  destruct (current_chunk (src g)) as [|s0 b0] eqn:Hb; [done|].
  rewrite take_ge in Hfront by done.
  assert (Hend : buffer_end (start g, s0 :: b0) = length ss).
  { unfold buffer_end. simpl. rewrite Hfront, length_app, Hlen. done. }
  unfold first_start in Hfirst. simpl in Hfirst.
  destruct (closed g) as [|x T] eqn:Hcl; simpl.
  - exists (start g, s0 :: b0), [], (start g, s0 :: b0). by split_and!.
  - exists x, (T ++ [(start g, s0 :: b0)]), (start g, s0 :: b0).
    split_and!; try done.
    change (x :: T ++ [(start g, s0 :: b0)])
      with ((x :: T) ++ [(start g, s0 :: b0)]).
    apply last_snoc.
Qed.

Lemma linked_cover self x T i y :
  linked self (x :: T) → last (x :: T) = Some y →
  (x.1 ≤ i < buffer_end y)%nat →
  ∃ z, z ∈ x :: T ∧ (z.1 ≤ i < buffer_end z)%nat.
Proof.
  revert x. induction T as [|z T IH]; intros x Hl Hlast Hi.
  - simpl in Hlast. injection Hlast as <-. exists x. split; [left | done].
  - destruct Hl as [Hxz Hl].
    destruct (decide (i < buffer_end x)%nat) as [Hlt|Hge].
    + exists x. split; [left | lia].
    + destruct (IH z Hl) as (v & Hv & Hvi).
      * by rewrite last_cons_cons in Hlast.
      * destruct Hxz as (H1 & _ & _). unfold buffer_end in *. lia.
      * exists v. split; [by right | done].
Qed.

Lemma positioned_lookup ss x i s :
  positioned ss x → (x.1 ≤ i < buffer_end x)%nat →
  ss !! i = Some s → x.2 !! (i - x.1)%nat = Some s.
Proof.
  unfold buffer_end. intros (_ & front & back & -> & <-) Hi Hs.
  rewrite lookup_app_r in Hs by lia.
  by rewrite lookup_app_l in Hs by lia.
Qed.

(** X9.  No sentence is left out of the buffers: the sentence at index
    [i] stands in some buffer, at its place, and it is in the text of a
    returned chunk whenever that buffer passes the minimum-size test. *)
Theorem sentence_covered (self : TextChunker) (sentences : list str) i s :
  sentences !! i = Some s →
  ∃ a b, (a, b) ∈ buffers self sentences
         ∧ (a ≤ i)%nat
         ∧ b !! (i - a)%nat = Some s
         ∧ (kept self b →
            join (u " ") b ∈ _create_chunks self sentences).
Proof.
  intros Hs.
  assert (Hne : sentences ≠ []) by (by destruct sentences).
  destruct (buffers_span self sentences Hne) as (x & T & y & HT & Hx0 & Hlast & Hend).
  destruct (buffers_spec self sentences) as (Hout & Hpos & Hlink).
  rewrite HT in Hlink.
  destruct (linked_cover self x T i y Hlink Hlast) as ([a b] & Hz & Hzi).
  { apply lookup_lt_Some in Hs. lia. }
  rewrite <- HT in Hz.
  - rewrite Forall_forall in Hpos. specialize (Hpos _ Hz).
    exists a, b. split_and!; [done | simpl in Hzi; lia | |].
    + by apply (positioned_lookup sentences (a, b) i s).
    + intros Hk. rewrite Hout. apply list_elem_of_fmap. exists b.
      split; [done|]. apply list_elem_of_filter. split; [done|].
      apply list_elem_of_fmap. by exists (a, b).
Qed.

(** X9, at the third sentence of a four-sentence run. *)
Lemma sentence_covered_witness :
  ∃ a b, (a, b) ∈ buffers {| chunk_size := 5; chunk_overlap := 3; min_chunk_size := 1 |}
                          [u "Aa."; u "Bb."; u "Cccccc."; u "D."]
         ∧ (a ≤ 2)%nat
         ∧ b !! (2 - a)%nat = Some (u "Cccccc.")
         ∧ (kept {| chunk_size := 5; chunk_overlap := 3; min_chunk_size := 1 |} b →
            join (u " ") b
            ∈ _create_chunks {| chunk_size := 5; chunk_overlap := 3; min_chunk_size := 1 |}
                             [u "Aa."; u "Bb."; u "Cccccc."; u "D."]).
Proof.
  apply (sentence_covered
           {| chunk_size := 5; chunk_overlap := 3; min_chunk_size := 1 |}
           [u "Aa."; u "Bb."; u "Cccccc."; u "D."] 2 (u "Cccccc.")).
  reflexivity.
Defined.

(** *** The size of a buffer *)

Lemma fitted_snoc self n l x y :
  fitted self n (l ++ [x]) → fits self (length (carried self x.2)) y.2 →
  fitted self n ((l ++ [x]) ++ [y]).
Proof.
  revert n. induction l as [|z l IH]; intros n; simpl.
  - intros [Hx _] Hy. done.
  - intros [Hz Hl] Hy. split; [done | by apply IH].
Qed.

Lemma fitted_grow self n l a b a' b' :
  fitted self n (l ++ [(a, b)]) → total_len b' ≤ chunk_size self →
  fitted self n (l ++ [(a', b')]).
Proof.
  revert n. induction l as [|z l IH]; intros n; simpl.
  - intros _ Hb. split; [by left | done].
  - intros [Hz Hl] Hb. split; [done | by apply IH].
Qed.

Lemma fitted_lookup self n T :
  fitted self n T →
  (∀ x, T !! 0%nat = Some x → fits self n x.2)
  ∧ (∀ i x y, T !! i = Some x → T !! S i = Some y →
              fits self (length (carried self x.2)) y.2).
Proof.
  revert n. induction T as [|z T IH]; intros n; simpl; [done|].
  intros [Hz HT]. destruct (IH _ HT) as [IH0 IHS]. split.
  - by intros x [= <-].
  - intros [|i] x y Hx Hy; simpl in *.
    + injection Hx as <-. by apply IH0.
    + by eapply IHS.
Qed.

Lemma fit_inv_step self g s :
  current_size (src g) = total_len (current_chunk (src g)) →
  fit_inv self g → fit_inv self (trace_step self g s).
Proof.
  intros Hsize Hfit. unfold fit_inv, trace_step, chunk_step. right.
  destruct (closes self (src g) s) eqn:Hcl; simpl.
  - fold (carried self (current_chunk (src g))).
    split; [by destruct (carried self (current_chunk (src g)))|].
    destruct Hfit as [[_ Hnil]|[_ Hfit]].
    + unfold closes in Hcl. rewrite Hnil, andb_false_r in Hcl. done.
    + apply fitted_snoc; [done|]. right. simpl.
      rewrite length_app. simpl. lia.
  - split; [by destruct (current_chunk (src g))|].
    destruct Hfit as [[-> ->]|[Hne Hfit]]; simpl.
    + split; [by right | done].
    + eapply fitted_grow; [done|].
      unfold closes in Hcl. rewrite total_len_app. simpl.
      destruct (current_chunk (src g)); [done|].
      rewrite andb_true_r in Hcl. apply Z.ltb_ge in Hcl. lia.
Qed.

Lemma fit_inv_fold self ss rest n g :
  drop n ss = rest → (n ≤ length ss)%nat → Inv self ss n g → fit_inv self g →
  fit_inv self (fold_left (trace_step self) rest g).
Proof.
  revert n g. induction rest as [|s rest IH]; intros n g Hdrop Hle Hinv Hfit;
    simpl; [done|].
  assert (Hs : ss !! n = Some s).
  { rewrite <- (Nat.add_0_r n), <- lookup_drop, Hdrop. done. }
  apply (IH (S n)).
  - rewrite (drop_S _ _ _ Hs) in Hdrop. by injection Hdrop.
  - by apply lookup_lt_Some in Hs.
  - by apply inv_step.
  - apply fit_inv_step; [apply Hinv | done].
Qed.

Lemma buffers_fitted self ss : fitted self 0 (buffers self ss).
Proof.
  unfold buffers.
  pose proof (fit_inv_fold self ss ss 0 trace_init (drop_0 ss) ltac:(lia)
                (inv_init self ss) ltac:(by left)) as Hfit.
  destruct Hfit as [[-> ->]|[Hne Hfit]]; [done|].
  by destruct (current_chunk (src (fold_left (trace_step self) ss trace_init))).
Qed.

Lemma len_app s1 s2 : len (s1 ++ s2) = len s1 + len s2.
Proof. unfold len. rewrite length_app. lia. Qed.

Lemma len_join b :
  b ≠ [] → len (join (u " ") b) = total_len b + Z.of_nat (length b) - 1.
Proof.
  induction b as [|s b IH]; [done|]. intros _.
  destruct b as [|s2 b]; [simpl; lia|].
  change (join (u " ") (s :: s2 :: b))
    with (s ++ u " " ++ join (u " ") (s2 :: b)).
  rewrite !len_app, IH by done.
  change (len (u " ")) with 1. rewrite !total_len_cons.
  change (length (s :: s2 :: b)) with (S (length (s2 :: b))). lia.
Qed.

(** X10.  The combined length of the sentences of a buffer exceeds
    [chunk_size] only if the buffer holds a single sentence besides the
    ones carried over from the buffer before it; and the text of a
    chunk is longer than that combined length by the joining spaces,
    one less than the number of sentences. *)
Theorem buffer_sizes (self : TextChunker) (sentences : list str) :
  let T := buffers self sentences in
  (∀ a b, T !! 0%nat = Some (a, b) →
          total_len b ≤ chunk_size self ∨ length b = 1%nat)
  ∧ (∀ i a b a' b',
       T !! i = Some (a, b) → T !! S i = Some (a', b') →
       total_len b' ≤ chunk_size self
       ∨ length b' = S (length (carried self b)))
  ∧ (∀ a b, (a, b) ∈ T →
            len (join (u " ") b) = total_len b + Z.of_nat (length b) - 1).
Proof.
  intros T.
  destruct (fitted_lookup self 0 T (buffers_fitted self sentences)) as [H0 HS].
  split_and!.
  - intros a b Hab. apply (H0 (a, b) Hab).
  - intros i a b a' b' Hi HSi. apply (HS i (a, b) (a', b') Hi HSi).
  - intros a b Hab. apply len_join.
    destruct (buffers_spec self sentences) as (_ & Hpos & _).
    rewrite Forall_forall in Hpos. by destruct (Hpos _ Hab).
Qed.

(** *** Chunks are never empty *)

Lemma positioned_elem ss x s : positioned ss x → s ∈ x.2 → s ∈ ss.
Proof.
  intros (_ & front & back & -> & _) Hs.
  apply elem_of_app. right. apply elem_of_app. by left.
Qed.

Lemma join_cons_letter sep c t l :
  ∃ t', join sep ((c :: t) :: l) = c :: t'.
Proof. destruct l; simpl; eauto. Qed.

Lemma split_from_nonempty s cur :
  cur ≠ [] ∨ letters s ≠ [] → split_from s cur ≠ [].
Proof.
  revert cur. induction s as [|c s IH]; intros cur H; simpl.
  - destruct H as [H|H]; [|done]. by destruct cur.
  - destruct (isspace c) eqn:Hc.
    + destruct cur; [|done]. apply IH. right.
      destruct H as [H|H]; [done|]. simpl in H. by rewrite Hc in H.
    + apply IH. by left.
Qed.

(** X15.  No chunk of [chunk_text] is empty, even when
    [min_chunk_size] is 0 or negative: unless the caller's metadata
    replaces the content, it opens with a character that is not white
    space, so it has at least one character and one word. *)
Theorem chunk_text_nonempty (self : TextChunker) (text : str)
    (metadata : option dict) (d : dict) :
  d ∈ chunk_text self text metadata →
  caller_value metadata "content" = None →
  ∃ c t, d !! "content" = Some (VStr (c :: t))
         ∧ isspace c = false
         ∧ (split (c :: t) ≠ []).
Proof.
  intros [i Hd]%list_elem_of_lookup Hmd.
  apply chunk_text_lookup in Hd as (chunk & Hc & ->).
  destruct (buffers_spec self (_split_sentences text)) as (Hout & Hpos & _).
  rewrite Hout in Hc. apply list_elem_of_lookup_2 in Hc.
  apply list_elem_of_fmap in Hc as (b & -> & [_ Hb]%list_elem_of_filter).
  apply list_elem_of_fmap in Hb as ([a b'] & -> & Hab). simpl.
  rewrite Forall_forall in Hpos. specialize (Hpos _ Hab).
  destruct Hpos as [Hne Hpos']. simpl in Hne.
  destruct b' as [|s b']; [done|].
  assert (Hs : s ∈ _split_sentences text).
  { apply (positioned_elem _ (a, s :: b')); [by split | left]. }
  pose proof (split_sentences_stripped text) as Hall.
  rewrite Forall_forall in Hall.
  destruct (Hall s Hs) as [(c & t & -> & Hcs) _].
  destruct (join_cons_letter (u " ") c t b') as [t' Hj].
  exists c, t'. rewrite Hj in *. split_and!.
  - rewrite update_lookup, Hmd. unfold chunk_dict. by simplify_map_eq.
  - done.
  - apply split_from_nonempty. right. simpl. by rewrite Hcs.
Qed.

(** X15, at the chunk of a one-sentence text. *)
Lemma chunk_text_nonempty_witness :
  ∃ c t, hello_chunk !! "content" = Some (VStr (c :: t))
         ∧ isspace c = false
         ∧ (split (c :: t) ≠ []).
Proof.
  apply (chunk_text_nonempty small_chunker (u "Hello world.") test_metadata).
  - vm_compute. left.
  - reflexivity.
Defined.

(** *** Chunks of sections *)

(** X11.  Every chunk [chunk_by_sections] returns comes from one of the
    sections: its content is a chunk of the text made of the title, a
    blank line and the content lines of that section joined by spaces,
    and it carries the title and page of the section under the keys
    [section] and [page], unless the caller's metadata has these keys,
    in which case the caller's value stands. *)
Theorem section_chunk_fields (self : TextChunker)
    (sections : list PdfParser.section) (metadata : option dict) (d : dict) :
  d ∈ chunk_by_sections self sections metadata →
  ∃ sec c,
    sec ∈ sections
    ∧ c ∈ _create_chunks self (_split_sentences (section_text sec))
    ∧ (caller_value metadata "section" = None →
       d !! "section" = Some (VStr (PdfParser.title sec)))
    ∧ (caller_value metadata "page" = None →
       d !! "page" = Some (VInt (PdfParser.page_no sec)))
    ∧ (caller_value metadata "content" = None →
       d !! "content" = Some (VStr c))
    ∧ (∀ k v, caller_value metadata k = Some v →
              k ≠ "chunk_index" → k ≠ "total_chunks" → d !! k = Some v).
Proof.
  intros [i Hd]%list_elem_of_lookup.
  unfold chunk_by_sections in Hd. rewrite list_lookup_imap in Hd.
  destruct (concat (section_chunks self metadata <$> sections) !! i)
    as [d0|] eqn:Hd0; simpl in Hd; [|done].
  injection Hd as <-.
  apply list_elem_of_lookup_2, list_elem_of_In, in_concat in Hd0
    as (l & Hl & Hd0).
  apply list_elem_of_In, list_elem_of_fmap in Hl as (sec & -> & Hsec).
  apply list_elem_of_In in Hd0. unfold section_chunks in Hd0.
  apply list_elem_of_fmap in Hd0 as (chunk & -> & [j Hchunk]%list_elem_of_lookup).
  apply chunk_text_lookup in Hchunk as (c & Hc & ->).
  exists sec, c. split_and!.
  - done.
  - by apply list_elem_of_lookup_2 in Hc.
  - intros Hk. rewrite !lookup_insert_ne by done.
    rewrite update_lookup, Hk. by simplify_map_eq.
  - intros Hk. rewrite !lookup_insert_ne by done.
    rewrite update_lookup, Hk. by simplify_map_eq.
  - intros Hk. rewrite !lookup_insert_ne by done.
    rewrite update_lookup, Hk. unfold update, chunk_dict. by simplify_map_eq.
  - intros k v Hk H1 H2. rewrite !lookup_insert_ne by done.
    by rewrite update_lookup, Hk.
Qed.

(** X11, at a one-line section on page 2. *)
Lemma section_chunk_fields_witness :
  ∃ sec c,
    sec ∈ [methods_section]
    ∧ c ∈ _create_chunks small_chunker (_split_sentences (section_text sec))
    ∧ (caller_value test_metadata "section" = None →
       methods_chunk !! "section" = Some (VStr (PdfParser.title sec)))
    ∧ (caller_value test_metadata "page" = None →
       methods_chunk !! "page" = Some (VInt (PdfParser.page_no sec)))
    ∧ (caller_value test_metadata "content" = None →
       methods_chunk !! "content" = Some (VStr c))
    ∧ (∀ k v, caller_value test_metadata k = Some v →
              k ≠ "chunk_index" → k ≠ "total_chunks" →
              methods_chunk !! k = Some v).
Proof.
  apply (section_chunk_fields small_chunker [methods_section] test_metadata).
  vm_compute. left.
Defined.

End ChunkerMore.

(* ===================================================================== *)
(** ** Retrieval: terms, slices and failures *)
(* ===================================================================== *)

Module RetrieverMore.
Import Text Retriever RetrieverSpec RetrieverTerms.
Import RetrieverFacts.

(** *** Counting occurrences *)

Lemma count_from_nonneg sub s skip : 0 ≤ count_from sub s skip.
Proof.
  revert skip. induction s as [|c s IH]; intros skip; simpl; [done|].
  destruct skip; [|apply IH].
  destruct (startswith sub (c :: s)); [|apply IH].
  specialize (IH (length sub - 1)%nat). lia.
Qed.

Lemma count_nonneg s sub : 0 ≤ count s sub.
Proof.
  unfold count. destruct sub; [unfold len; lia | apply count_from_nonneg].
Qed.

Lemma contains_cons sub c s :
  contains sub (c :: s) = startswith sub (c :: s) || contains sub s.
Proof. done. Qed.

Lemma count_from_cons_0 sub c s :
  count_from sub (c :: s) 0
  = if startswith sub (c :: s)
    then 1 + count_from sub s (length sub - 1)
    else count_from sub s 0.
Proof. done. Qed.

Lemma count_from_cons_S sub c s k :
  count_from sub (c :: s) (S k) = count_from sub s k.
Proof. done. Qed.

Lemma count_from_contains sub s skip :
  0 < count_from sub s skip → contains sub s = true.
Proof.
  revert skip. induction s as [|c s IH]; intros skip; [simpl; lia|].
  rewrite contains_cons. destruct skip as [|k].
  - rewrite count_from_cons_0.
    destruct (startswith sub (c :: s)); [done|].
    intros H%IH. by rewrite H.
  - rewrite count_from_cons_S. intros H%IH. by rewrite H, orb_true_r.
Qed.

Lemma contains_count_from sub s skip :
  sub ≠ [] → contains sub (drop skip s) = true → 0 < count_from sub s skip.
Proof.
  intros Hne. revert skip. induction s as [|c s IH]; intros skip.
  - rewrite drop_nil. simpl. by destruct sub.
  - destruct skip as [|k].
    + rewrite drop_0, contains_cons, count_from_cons_0.
      destruct (startswith sub (c :: s)).
      * intros _. pose proof (count_from_nonneg sub s (length sub - 1)). lia.
      * simpl. intros H. apply (IH 0%nat). by rewrite drop_0.
    + rewrite count_from_cons_S. apply IH.
Qed.

(** A token of at least one character is counted at least once exactly
    when it occurs in the content. *)
Lemma count_pos_contains s sub :
  sub ≠ [] → 0 < count s sub ↔ contains sub s = true.
Proof.
  intros Hne. unfold count. destruct sub as [|a sub]; [done|]. split.
  - apply count_from_contains.
  - intros H. apply contains_count_from; [done|]. by rewrite drop_0.
Qed.

Lemma sum_Z_nonneg (l : list Z) : Forall (λ z, 0 ≤ z) l → 0 ≤ sum_Z l.
Proof. induction 1; simpl; [done|]. unfold sum_Z in *. simpl. lia. Qed.

Lemma sum_Z_pos (l : list Z) :
  Forall (λ z, 0 ≤ z) l → 0 < sum_Z l ↔ ∃ z, z ∈ l ∧ 0 < z.
Proof.
  induction 1 as [|x l Hx Hl IH]; simpl.
  - split; [unfold sum_Z; simpl; lia | by intros (z & Hz%elem_of_nil & _)].
  - change (sum_Z (x :: l)) with (x + sum_Z l).
    pose proof (sum_Z_nonneg l Hl). split.
    + intros Hpos. destruct (decide (0 < x)) as [Hxp|Hxn].
      * exists x. split; [left | done].
      * destruct (proj1 IH) as (z & Hz & Hzp); [lia|].
        exists z. split; [by right | done].
    + intros (z & [->|Hz]%elem_of_cons & Hzp); [lia|].
      assert (0 < sum_Z l) by (apply IH; eauto). lia.
Qed.

(** *** Query expansion *)

Lemma split_from_space a c b cur :
  isspace c = true →
  split_from (a ++ c :: b) cur = split_from a cur ++ split b.
Proof.
  intros Hc. revert cur. induction a as [|x a IH]; intros cur; simpl.
  - rewrite Hc. by destruct cur.
  - destruct (isspace x).
    + destruct cur; simpl; by rewrite IH.
    + apply IH.
Qed.

Lemma lower_app s1 s2 : lower (s1 ++ s2) = lower s1 ++ lower s2.
Proof. apply fmap_app. Qed.

(** The tokens of the expanded query are those of the expansions
    followed by those of the query. *)
Lemma split_translate query :
  ∃ extra, split (lower (_translate_query query))
           = extra ++ split (lower query).
Proof.
  unfold _translate_query.
  destruct (snd <$> filter _ keywords_map) as [|p parts].
  - by exists [].
  - exists (split (lower (join (u " ") (p :: parts)))).
    rewrite lower_app. unfold split.
    change (lower (u " " ++ query)) with (32%N :: lower query).
    by rewrite split_from_space.
Qed.

Lemma sum_Z_submseteq (f : str → Z) (l1 l2 : list str) :
  (∀ x, 0 ≤ f x) → l1 ⊆+ l2 → sum_Z (f <$> l1) ≤ sum_Z (f <$> l2).
Proof.
  intros Hf. induction 1 as [|x l1 l2 _ IH|x y l|x l1 l2 _ IH|l1 l2 l3 _ IH1 _ IH2];
    rewrite ?fmap_cons; unfold sum_Z in *; simpl in *; try lia.
  specialize (Hf x). lia.
Qed.

(** X17.  Query expansion keeps the query and only adds terms: the
    query closes the expanded query, and no chunk scores lower under
    the expanded query than under the query itself. *)
Theorem translate_query_keeps (query : str) :
  query `suffix_of` _translate_query query
  ∧ ∀ chunk, score query chunk ≤ score (_translate_query query) chunk.
Proof.
  split.
  - unfold _translate_query.
    destruct (snd <$> filter _ keywords_map) as [|p parts]; [done|].
    eexists. by rewrite app_assoc.
  - intros chunk. unfold score. apply sum_Z_submseteq.
    + intros term. apply count_nonneg.
    + unfold retained_terms. apply NoDup_submseteq.
      * apply NoDup_filter, NoDup_remove_dups.
      * intros term [Hlen Hin]%list_elem_of_filter.
        apply list_elem_of_filter. split; [done|].
        rewrite elem_of_remove_dups in Hin. rewrite elem_of_remove_dups.
        destruct (split_translate query) as [extra ->].
        apply elem_of_app. by right.
Qed.

(** *** The query is read without regard to case *)

Lemma caseless_eqb a b :
  caseless a = true → (a =? lower_cp b)%N = (a =? b)%N.
Proof.
  unfold caseless, lower_cp, is_upper_cp, is_lower_cp, in_range.
  rewrite andb_true_iff, !negb_true_iff, !andb_false_iff, !N.leb_gt.
  intros [Ha1 Ha2].
  destruct (N.leb_spec 65 b), (N.leb_spec b 90); simpl; try done.
  destruct (N.eqb_spec a (b + 32)), (N.eqb_spec a b); try done; lia.
Qed.

Lemma startswith_lower key s :
  forallb caseless key = true →
  startswith key (lower s) = startswith key s.
Proof.
  revert s. induction key as [|a key IH]; intros s Hkey; [by destruct s|].
  simpl in Hkey. apply andb_true_iff in Hkey as [Ha Hkey].
  destruct s as [|b s]; simpl; [done|].
  by rewrite caseless_eqb, IH.
Qed.

Lemma contains_lower key s :
  forallb caseless key = true →
  contains key (lower s) = contains key s.
Proof.
  intros Hkey. induction s as [|b s IH].
  - done.
  - change (lower (b :: s)) with (lower_cp b :: lower s).
    rewrite !contains_cons, IH.
    change (lower_cp b :: lower s) with (lower (b :: s)).
    by rewrite startswith_lower.
Qed.

Lemma keywords_caseless :
  Forall (λ kv : str * str, forallb caseless kv.1 = true) keywords_map.
Proof. by repeat constructor. Qed.

Lemma lower_translate q1 q2 :
  lower q1 = lower q2 →
  lower (_translate_query q1) = lower (_translate_query q2).
Proof.
  intros Heq. unfold _translate_query.
  assert (Hparts : filter (λ kv : str * str, contains kv.1 q1 = true) keywords_map
                   = filter (λ kv : str * str, contains kv.1 q2 = true) keywords_map).
  { pose proof keywords_caseless as Hall.
    induction Hall as [|kv l Hkv _ IH]; [done|].
    rewrite !filter_cons, IH.
    assert (Hc : contains kv.1 q1 = contains kv.1 q2).
    { by rewrite <- (contains_lower kv.1 q1), <- (contains_lower kv.1 q2), Heq. }
    rewrite Hc. done. }
  rewrite Hparts.
  destruct (snd <$> filter _ keywords_map); [done|].
  by rewrite !lower_app, Heq.
Qed.

(** X18.  Two queries that differ only in the case of their letters get
    the same results, by every method. *)
Theorem retrieve_ignores_case (self : SimpleRetriever) (q1 q2 : str)
    (top_k : Z) (method : string) :
  lower q1 = lower q2 →
  retrieve self q1 top_k method = retrieve self q2 top_k method.
Proof.
  intros Heq%lower_translate. unfold retrieve, _vector_retrieval, _keyword_retrieval.
  by rewrite Heq.
Qed.

(** X18, at two spellings of one query. *)
Lemma retrieve_ignores_case_witness :
  retrieve corpus5 (u "GANODERMA Immune") 3 "keyword"
  = retrieve corpus5 (u "ganoderma immune") 3 "keyword".
Proof.
  apply retrieve_ignores_case. vm_compute. reflexivity.
Defined.

(** *** Slices *)

(** X19.  Asking for more results only adds to the end of the list: for
    [0 ≤ k1 ≤ k2] the results for [k1] are the first results for
    [k2]. *)
Theorem retrieve_prefix (self : SimpleRetriever) (query : str) (k1 k2 : Z) :
  text_corpus (chunks self) → 0 ≤ k1 ≤ k2 →
  ∃ r1 r2,
    retrieve self query k1 "keyword" = Returns r1
    ∧ retrieve self query k2 "keyword" = Returns r2
    ∧ r1 `prefix_of` r2.
Proof.
  intros Htext Hk. do 2 eexists. split_and!.
  - by apply retrieve_keyword_text.
  - by apply retrieve_keyword_text.
  - rewrite !slice_to_take by lia.
    set (l := sort_desc score_key _).
    replace (take (Z.to_nat k1) l)
      with (take (Z.to_nat k1) (take (Z.to_nat k2) l)).
    + apply prefix_take.
    + rewrite take_take. f_equal. lia.
Qed.

(** X19, at the five-chunk corpus for 1 and 3 results. *)
Lemma retrieve_prefix_witness :
  ∃ r1 r2,
    retrieve corpus5 (u "Ganoderma immune") 1 "keyword" = Returns r1
    ∧ retrieve corpus5 (u "Ganoderma immune") 3 "keyword" = Returns r2
    ∧ r1 `prefix_of` r2.
Proof.
  apply (retrieve_prefix corpus5 (u "Ganoderma immune") 1 3).
  - vm_compute. reflexivity.
  - split; vm_compute; discriminate.
Defined.

(** X20.  A [top_k] of 0 gives no result; a negative [top_k] gives
    every chunk with a positive score but the last [-top_k] of the
    ranking, as the slice [[:top_k]] does. *)
Theorem retrieve_nonpositive (self : SimpleRetriever) (query : str) (top_k : Z) :
  text_corpus (chunks self) → top_k ≤ 0 →
  ∃ results ranked,
    retrieve self query top_k "keyword" = Returns results
    ∧ retrieve self query (Z.of_nat (length (chunks self))) "keyword"
      = Returns ranked
    ∧ results `prefix_of` ranked
    ∧ Z.of_nat (length results)
      = if decide (top_k = 0) then 0
        else Z.max 0 (Z.of_nat (length ranked) + top_k).
Proof.
  intros Htext Hk.
  set (l := sort_desc score_key
              (candidates (_translate_query query) (chunks self))).
  assert (Hl : (length l ≤ length (chunks self))%nat).
  { unfold l. rewrite (Permutation_length (sort_desc_perm score_key _)).
    unfold candidates. rewrite length_fmap. apply length_filter. }
  exists (slice_to top_k l), l. split_and!.
  - by apply retrieve_keyword_text.
  - rewrite retrieve_keyword_text by done. fold l.
    rewrite slice_to_take by lia. by rewrite take_ge by lia.
  - unfold slice_to. destruct (0 <=? top_k); apply prefix_take.
  - unfold slice_to. destruct (Z.leb_spec 0 top_k).
    + rewrite decide_True by lia. rewrite length_take. lia.
    + rewrite decide_False by lia. rewrite length_take. lia.
Qed.

(** X20, at the five-chunk corpus and [top_k = -1]. *)
Lemma retrieve_nonpositive_witness :
  ∃ results ranked,
    retrieve corpus5 (u "Ganoderma immune") (-1) "keyword" = Returns results
    ∧ retrieve corpus5 (u "Ganoderma immune")
               (Z.of_nat (length (chunks corpus5))) "keyword"
      = Returns ranked
    ∧ results `prefix_of` ranked
    ∧ Z.of_nat (length results)
      = if decide (-1 = 0) then 0
        else Z.max 0 (Z.of_nat (length ranked) + -1).
Proof.
  apply (retrieve_nonpositive corpus5 (u "Ganoderma immune") (-1)).
  - vm_compute. reflexivity.
  - vm_compute. discriminate.
Defined.

(** *** Failures *)

Lemma score_chunks_raises terms corpus acc :
  Exists (λ chunk, content_is_text chunk = false) corpus →
  score_chunks terms corpus acc = Raises AttributeError.
Proof.
  intros Hex. revert acc.
  induction corpus as [|chunk corpus IH]; intros acc; [by inversion Hex|].
  simpl. unfold content_lower.
  destruct (chunk !! "content") as [[s|z]|] eqn:Hc; simpl; try done.
  - apply IH. inversion Hex as [? ? Hbad|]; [|done].
    unfold content_is_text in Hbad. by rewrite Hc in Hbad.
  - apply IH. inversion Hex as [? ? Hbad|]; [|done].
    unfold content_is_text in Hbad. by rewrite Hc in Hbad.
Qed.

(** X21.  A corpus that holds a chunk whose content is not text cannot
    be searched: [retrieve] raises [AttributeError] for every query and
    every [top_k], by the keyword and by the vector method, also when
    the chunk would not match. *)
Theorem retrieve_raises (self : SimpleRetriever) (query : str) (top_k : Z) :
  Exists (λ chunk, content_is_text chunk = false) (chunks self) →
  retrieve self query top_k "keyword" = Raises AttributeError
  ∧ retrieve self query top_k "vector" = Raises AttributeError.
Proof.
  intros Hex. unfold retrieve, _vector_retrieval, _keyword_retrieval.
  destruct (chunks self) as [|c cs] eqn:Hcs; [by inversion Hex|].
  rewrite decide_True by done. rewrite decide_False by done.
  rewrite decide_True by done.
  by rewrite (score_chunks_raises _ _ [] Hex).
Qed.

(** X21, at a corpus whose second chunk holds a number. *)
Lemma retrieve_raises_witness :
  retrieve {| chunks := [text_chunk "Ganoderma once"; number_chunk] |}
           (u "Ganoderma") 5 "keyword" = Raises AttributeError
  ∧ retrieve {| chunks := [text_chunk "Ganoderma once"; number_chunk] |}
             (u "Ganoderma") 5 "vector" = Raises AttributeError.
Proof.
  apply (retrieve_raises
           {| chunks := [text_chunk "Ganoderma once"; number_chunk] |}).
  right. left. reflexivity.
Defined.

End RetrieverMore.

(* ===================================================================== *)
(** ** Text cleaning *)
(* ===================================================================== *)

Module PdfTextFacts.
Import Text Re PdfText Sentences.
Import SentenceFacts ChunkerMore.

(** *** Where a match can end *)

Lemma rep_loop_suffix {R} body greedy (k : str → groups → option R) :
  (∀ s g k' x, body s g k' = Some x →
               ∃ s' g', s' `suffix_of` s ∧ k' s' g' = Some x) →
  ∀ n s g x, rep_loop body greedy k n s g = Some x →
             ∃ s' g', s' `suffix_of` s ∧ k s' g' = Some x.
Proof.
  intros Hbody. induction n as [|n IH]; intros s g x; simpl.
  - intros Hk. by exists s, g.
  - set (more := body s g _).
    assert (Hmore : ∀ y, more = Some y →
              ∃ s' g', s' `suffix_of` s ∧ k s' g' = Some y).
    { intros y Hy. apply Hbody in Hy as (s1 & g1 & Hs1 & Hy).
      destruct (length s1 <? length s)%nat; [|done].
      apply IH in Hy as (s2 & g2 & Hs2 & Hy).
      exists s2, g2. split; [by etrans | done]. }
    destruct greedy.
    + destruct more as [y|] eqn:Hm.
      * intros [= <-]. by apply Hmore.
      * intros Hk. by exists s, g.
    + destruct (k s g) as [y|] eqn:Hk.
      * intros [= <-]. by exists s, g.
      * apply Hmore.
Qed.

Lemma run_suffix {R} r :
  ∀ s g (k : str → groups → option R) x,
    run r s g k = Some x →
    ∃ s' g', s' `suffix_of` s ∧ k s' g' = Some x.
Proof.
  induction r as [p| |r1 IH1 r2 IH2|r1 IH1 r2 IH2|greedy r1 IH1|i r1 IH1|];
    intros s g k x; simpl.
  - destruct s as [|c s]; [done|]. destruct (p c); [|done].
    intros Hk. exists s, g. split; [by apply suffix_cons_r | done].
  - intros Hk. by exists s, g.
  - intros H. apply IH1 in H as (s1 & g1 & Hs1 & H).
    apply IH2 in H as (s2 & g2 & Hs2 & H).
    exists s2, g2. split; [by etrans | done].
  - destruct (run r1 s g k) as [y|] eqn:H1.
    + intros [= <-]. by apply (IH1 _ _ _ _ H1).
    + apply IH2.
  - apply rep_loop_suffix. apply IH1.
  - intros H. apply IH1 in H as (s1 & g1 & Hs1 & H). eauto.
  - destruct s as [|c [|c' s]]; [|destruct (c =? 10)%N|]; try done.
    + intros Hk. by exists [], g.
    + intros Hk. by exists [c], g.
Qed.

Lemma one_line_suffix s' s : s' `suffix_of` s → one_line s → one_line s'.
Proof.
  unfold one_line. intros [front ->] Hs Hin. apply Hs, elem_of_app. by right.
Qed.

(** A pattern that needs a line break has no match in a text of one
    line. *)
Lemma run_needs_break {R} r :
  needs_break r →
  ∀ s g (k : str → groups → option R), one_line s → run r s g k = None.
Proof.
  induction r as [p| |r1 IH1 r2 IH2|r1 IH1 r2 IH2|greedy r1 IH1|i r1 IH1|];
    simpl; intros Hr s g k Hs; try done.
  - destruct s as [|c s]; [done|]. destruct (p c) eqn:Hp; [|done].
    apply Hr in Hp as ->. destruct Hs. left.
  - destruct Hr as [Hr|Hr]; [by apply IH1|].
    destruct (run r1 s g _) as [x|] eqn:H1; [|done].
    apply run_suffix in H1 as (s1 & g1 & Hs1 & H1).
    rewrite IH2 in H1; [done | done | by eapply one_line_suffix].
  - destruct Hr as [Hr1 Hr2]. by rewrite IH1, IH2.
  - by apply IH1.
Qed.

Lemma sub_from_cons_0 r repl c s :
  sub_from r repl (c :: s) 0
  = match exec r (c :: s) with
    | Some (rest, g) =>
        match (length (c :: s) - length rest)%nat with
        | O => repl g ++ c :: sub_from r repl s 0
        | S n => repl g ++ sub_from r repl s n
        end
    | None => c :: sub_from r repl s 0
    end.
Proof. done. Qed.

Lemma sub_from_cons_S r repl c s n :
  sub_from r repl (c :: s) (S n) = sub_from r repl s n.
Proof. done. Qed.

(** Such a pattern leaves a text of one line as it is. *)
Lemma sub_one_line r repl s :
  needs_break r → one_line s → sub r repl s = s.
Proof.
  intros Hr. unfold sub. induction s as [|c s IH]; intros Hs.
  - simpl. unfold exec. by rewrite run_needs_break.
  - rewrite sub_from_cons_0. unfold exec. rewrite run_needs_break by done.
    rewrite IH; [done|]. eapply one_line_suffix; [|done]. by apply suffix_cons_r.
Qed.

(** *** The first substitution *)

Lemma rep_ws n s (g : groups) :
  (length s ≤ n)%nat →
  rep_loop (run ws) true (λ s' g', Some (s', g')) n s g = Some (lstrip s, g).
Proof.
  revert s. induction n as [|n IH]; intros s Hn; simpl.
  - destruct s; [done | simpl in Hn; lia].
  - destruct s as [|c s]; [done|]. simpl.
    destruct (isspace c); [|done].
    destruct (Nat.ltb_spec (length s) (S (length s))); [|lia].
    rewrite IH; [done | simpl in Hn; lia].
Qed.

Lemma exec_spaces s :
  exec spaces_pattern s
  = match s with
    | c :: s' => if isspace c then Some (lstrip s', ∅) else None
    | [] => None
    end.
Proof.
  unfold exec, spaces_pattern, Plus. simpl.
  destruct s as [|c s]; [done|]. destruct (isspace c); [|done].
  by apply rep_ws.
Qed.

Lemma lead_cons_space c s : isspace c = true → lead (c :: s) = S (lead s).
Proof.
  intros Hc. unfold lead. rewrite lstrip_cons_space by done.
  pose proof (length_lstrip s). simpl. lia.
Qed.

Lemma lead_cons_letter c s : isspace c = false → lead (c :: s) = 0%nat.
Proof.
  intros Hc. unfold lead. rewrite lstrip_cons_letter by done. lia.
Qed.

(** The first substitution replaces every run of white space by one
    space. *)
Lemma sub_spaces s :
  sub_from spaces_pattern (λ _, u " ") s 0 = collapse s false
  ∧ sub_from spaces_pattern (λ _, u " ") s (lead s) = collapse s true.
Proof.
  induction s as [|c s [IH0 IH1]]; [done|].
  rewrite sub_from_cons_0, exec_spaces.
  destruct (isspace c) eqn:Hc.
  - rewrite lead_cons_space, sub_from_cons_S by done.
    change (length (c :: s) - length (lstrip s))%nat
      with (S (length s) - length (lstrip s))%nat.
    pose proof (length_lstrip s).
    replace (S (length s) - length (lstrip s))%nat with (S (lead s))
      by (unfold lead; lia).
    simpl. rewrite Hc, IH1. done.
  - rewrite lead_cons_letter by done.
    rewrite sub_from_cons_0, exec_spaces, Hc. simpl. by rewrite Hc, IH0.
Qed.

Lemma collapse_one_line s b : one_line (collapse s b).
Proof.
  unfold one_line. revert b. induction s as [|c s IH]; intros b; simpl.
  - apply not_elem_of_nil.
  - destruct (isspace c) eqn:Hc.
    + destruct b; [apply IH|].
      intros [?|?]%elem_of_cons; [done | by eapply IH].
    + intros [<-|?]%elem_of_cons; [done | by eapply IH].
Qed.

(** *** Stripping a collapsed text leaves its words *)

Lemma lstrip_app_keep p q : lstrip p ≠ [] → lstrip (p ++ q) = lstrip p ++ q.
Proof.
  induction p as [|c p IH]; simpl; [done|].
  destruct (isspace c); [apply IH | done].
Qed.

Lemma rstrip_app_keep a x : rstrip x ≠ [] → rstrip (a ++ x) = a ++ rstrip x.
Proof.
  unfold rstrip. intros Hx. rewrite rev_app_distr, lstrip_app_keep.
  - by rewrite rev_app_distr, rev_involutive.
  - intros Hnil. by rewrite Hnil in Hx.
Qed.

Lemma rstrip_snoc_space x c : isspace c = true → rstrip (x ++ [c]) = rstrip x.
Proof.
  intros Hc. unfold rstrip. rewrite rev_app_distr. simpl. by rewrite Hc.
Qed.

Lemma join_cons_cons sep (a b : str) l :
  join sep (a :: b :: l) = a ++ sep ++ join sep (b :: l).
Proof. done. Qed.

Lemma collapse_cons c s b :
  collapse (c :: s) b
  = if isspace c
    then if b then collapse s true else 32%N :: collapse s true
    else c :: collapse s false.
Proof. done. Qed.

Lemma split_from_cons c s cur :
  split_from (c :: s) cur
  = if isspace c
    then match cur with
         | [] => split_from s []
         | _ => rev cur :: split_from s []
         end
    else split_from s (c :: cur).
Proof. done. Qed.

Lemma strip_collapse_words s :
  (∀ cur c0, isspace c0 = false →
     rstrip (rev (c0 :: cur) ++ collapse s false)
     = join (u " ") (split_from s (c0 :: cur)))
  ∧ (∀ w c0, isspace c0 = false →
       rstrip ((w ++ [c0]) ++ 32%N :: collapse s true)
       = join (u " ") ((w ++ [c0]) :: split_from s [])).
Proof.
  induction s as [|c s [IHG IHH]]; split.
  - intros cur c0 Hc0. simpl. rewrite app_nil_r. by apply rstrip_snoc.
  - intros w c0 Hc0. simpl.
    rewrite (rstrip_snoc_space (w ++ [c0]) 32%N) by done.
    by apply rstrip_snoc.
  - intros cur c0 Hc0. rewrite collapse_cons, split_from_cons.
    destruct (isspace c) eqn:Hc.
    + apply (IHH (rev cur) c0 Hc0).
    + rewrite <- (IHG (c0 :: cur) c Hc). simpl. by rewrite <- !app_assoc.
  - intros w c0 Hc0. rewrite collapse_cons, split_from_cons.
    destruct (isspace c) eqn:Hc.
    + by apply IHH.
    + pose proof (IHG [] c Hc) as Hj. simpl in Hj.
      destruct (split_from s [c]) as [|t l] eqn:Hsp.
      { exfalso. eapply (split_from_nonempty s [c]); [by left | done]. }
      rewrite join_cons_cons, <- Hj.
      change ((w ++ [c0]) ++ 32%N :: c :: collapse s false)
        with ((w ++ [c0]) ++ u " " ++ c :: collapse s false).
      rewrite app_assoc, rstrip_app_keep.
      * by rewrite <- app_assoc.
      * by rewrite rstrip_cons.
Qed.

Lemma strip_collapse s b : strip (collapse s b) = join (u " ") (split s).
Proof.
  unfold split. revert b. induction s as [|c s IH]; intros b; [done|].
  simpl. destruct (isspace c) eqn:Hc.
  - destruct b; [apply IH|].
    unfold strip. rewrite lstrip_cons_space by done. apply IH.
  - unfold strip. rewrite lstrip_cons_letter by done.
    apply (proj1 (strip_collapse_words s) [] c Hc).
Qed.

(** X22.  [_clean_text] returns the words of the text joined by single
    spaces, as [' '.join(text.split())] does, whatever [\w] and [\d]
    match: the first substitution leaves no line break, so the removal
    of page numbers and the repair of hyphenation, which both look for
    one, never change anything. *)
Theorem clean_text_words (word_char digit_char : N → bool) (text : str) :
  _clean_text word_char digit_char text = join (u " ") (split text)
  ∧ sub (page_number_pattern digit_char) (λ _, [10%N])
        (sub spaces_pattern (λ _, u " ") text)
    = sub spaces_pattern (λ _, u " ") text
  ∧ sub (hyphen_pattern word_char) (λ g, group g 1 ++ group g 2)
        (sub spaces_pattern (λ _, u " ") text)
    = sub spaces_pattern (λ _, u " ") text.
Proof.
  assert (Hsp : sub spaces_pattern (λ _, u " ") text = collapse text false)
    by apply sub_spaces.
  assert (H2 : ∀ s, one_line s →
            sub (page_number_pattern digit_char) (λ _, [10%N]) s = s).
  { intros s. apply sub_one_line. left. simpl. by intros c ->%N.eqb_eq. }
  assert (H3 : ∀ s, one_line s →
            sub (hyphen_pattern word_char) (λ g, group g 1 ++ group g 2) s = s).
  { intros s. apply sub_one_line. right. right. right. left.
    simpl. by intros c ->%N.eqb_eq. }
  pose proof (collapse_one_line text false) as Hone.
  unfold _clean_text. rewrite Hsp, (H2 _ Hone), (H3 _ Hone).
  split_and!; [apply strip_collapse | done | done].
Qed.

(** *** Splitting what was joined *)

(** A word: some characters, none of them white space. *)
Lemma split_from_word w s cur :
  Forall (λ c, isspace c = false) w →
  split_from (w ++ s) cur = split_from s (rev w ++ cur).
Proof.
  intros Hw. revert cur. induction Hw as [|c w Hc _ IH]; intros cur; [done|].
  simpl. rewrite Hc, IH. by rewrite <- app_assoc.
Qed.

Lemma split_from_words s cur :
  Forall (λ c, isspace c = false) cur →
  Forall (λ w, w ≠ [] ∧ Forall (λ c, isspace c = false) w) (split_from s cur).
Proof.
  revert cur. induction s as [|c s IH]; intros cur Hcur; simpl.
  - destruct cur as [|c0 cur]; [done|]. apply Forall_singleton. split.
    + simpl. by destruct (rev cur).
    + apply Forall_forall. intros x Hx%list_elem_of_In%in_rev%list_elem_of_In.
      rewrite Forall_forall in Hcur. by apply Hcur.
  - destruct (isspace c) eqn:Hc.
    + destruct cur as [|c0 cur]; [by apply IH|].
      constructor; [|by apply IH]. split.
      * simpl. by destruct (rev cur).
      * apply Forall_forall. intros x Hx%list_elem_of_In%in_rev%list_elem_of_In.
        rewrite Forall_forall in Hcur. by apply Hcur.
    + apply IH. by constructor.
Qed.

Lemma split_join (l : list str) :
  Forall (λ w, w ≠ [] ∧ Forall (λ c, isspace c = false) w) l →
  split (join (u " ") l) = l.
Proof.
  induction 1 as [|w l [Hne Hw] Hl IH]; [done|].
  assert (Hww : split_from w [] = [w]).
  { rewrite <- (app_nil_r w) at 1. rewrite split_from_word by done.
    simpl. rewrite app_nil_r. destruct (rev w) eqn:Hr.
    - apply (f_equal (@rev N)) in Hr. rewrite rev_involutive in Hr. done.
    - by rewrite <- Hr, rev_involutive. }
  destruct l as [|w2 l]; [done|].
  rewrite join_cons_cons. unfold split in *.
  change (w ++ u " " ++ join (u " ") (w2 :: l))
    with (w ++ 32%N :: join (u " ") (w2 :: l)).
  rewrite RetrieverMore.split_from_space by done. unfold split. by rewrite Hww, IH.
Qed.

(** X23.  Cleaning a cleaned text changes nothing. *)
Theorem clean_text_idempotent (word_char digit_char : N → bool) (text : str) :
  _clean_text word_char digit_char (_clean_text word_char digit_char text)
  = _clean_text word_char digit_char text.
Proof.
  rewrite !(proj1 (clean_text_words _ _ _)).
  rewrite split_join; [done|]. by apply split_from_words.
Qed.

(** *** The text of a document *)

Lemma split_blank s : Forall (λ c, isspace c = true) s → split s = [].
Proof.
  unfold split. induction 1 as [|c s Hc _ IH]; [done|]. simpl. by rewrite Hc.
Qed.

(** X24.  A page that holds white space only leaves no trace in the
    text of the document: [_extract_text] returns what it returns
    without the page. *)
Theorem extract_text_blank_page (word_char digit_char : N → bool)
    (before after : list str) (blank : str) :
  Forall (λ c, isspace c = true) blank →
  _extract_text word_char digit_char (before ++ blank :: after)
  = _extract_text word_char digit_char (before ++ after).
Proof.
  intros Hblank. unfold _extract_text.
  rewrite !fmap_app, fmap_cons, !filter_app, filter_cons.
  rewrite (proj1 (clean_text_words _ _ blank)), (split_blank blank Hblank).
  done.
Qed.

(** X24, at a three-page document whose second page is blank. *)
Lemma extract_text_blank_page_witness :
  _extract_text ascii_word is_digit_cp
    ([u "Reishi  grows."] ++ [32; 10; 32]%N :: [u "On wood."])
  = _extract_text ascii_word is_digit_cp ([u "Reishi  grows."] ++ [u "On wood."]).
Proof.
  apply extract_text_blank_page. by repeat constructor.
Defined.

(** *** The abstract *)

Lemma find_first {A} (f : A → bool) before x after :
  Forall (λ y, f y = false) before → f x = true →
  List.find f (before ++ x :: after) = Some x.
Proof.
  induction 1 as [|y before Hy _ IH]; intros Hx; simpl.
  - by rewrite Hx.
  - rewrite Hy. by apply IH.
Qed.

Lemma find_none {A} (f : A → bool) l :
  Forall (λ y, f y = false) l → List.find f l = None.
Proof. induction 1 as [|y l Hy _ IH]; simpl; [done|]. by rewrite Hy. Qed.

(** X25.  When a section has "abstract" in its title, in any case, the
    abstract is the content of the first such section, joined by
    spaces; the full text is not read. *)
Theorem abstract_from_section (before after : list PdfParser.section)
    (section : PdfParser.section) (text : str) :
  Forall (λ s, is_abstract_section s = false) before →
  is_abstract_section section = true →
  extract_abstract {| structure := before ++ section :: after;
                      content := text |}
  = Some (join (u " ") (PdfParser.content section)).
Proof.
  intros Hbefore Hsec. unfold extract_abstract. simpl.
  by rewrite (find_first _ _ _ _ Hbefore Hsec).
Qed.

(** X25, at a paper whose second section is titled "ABSTRACT". *)
Lemma abstract_from_section_witness :
  extract_abstract
    {| structure :=
         [ {| PdfParser.title := u "1. Introduction"; PdfParser.page_no := 1;
              PdfParser.content := [u "Reishi is a fungus."] |} ]
         ++ {| PdfParser.title := u "ABSTRACT"; PdfParser.page_no := 1;
               PdfParser.content := [u "We study"; u "reishi."] |} :: [];
       content := u "Abstract: something else. Introduction" |}
  = Some (join (u " ") [u "We study"; u "reishi."]).
Proof.
  apply (abstract_from_section _ []
           {| PdfParser.title := u "ABSTRACT"; PdfParser.page_no := 1;
              PdfParser.content := [u "We study"; u "reishi."] |}).
  - by repeat constructor.
  - reflexivity.
Defined.

(** X26.  An abstract found in the full text, no section being titled
    as one, has at most 2003 characters: 2000 and the three dots. *)
Theorem abstract_from_text_bound (parsed : parsed_content) (abstract : str) :
  Forall (λ s, is_abstract_section s = false) (structure parsed) →
  extract_abstract parsed = Some abstract →
  len abstract ≤ 2003.
Proof.
  intros Hnone. unfold extract_abstract. rewrite (find_none _ _ Hnone).
  destruct (search abstract_pattern (content parsed)) as [[rest g]|]; [|done].
  destruct (Z.ltb_spec 2000 (len (strip (group g 1)))) as [Hlong|Hshort];
    intros [= <-].
  - rewrite len_app. change (len (u "...")) with 3.
    unfold len. rewrite length_take. lia.
  - lia.
Qed.

(** X26, at a paper without sections. *)
Lemma abstract_from_text_bound_witness :
  len (u "we study reishi.") ≤ 2003.
Proof.
  apply (abstract_from_text_bound paper_without_sections).
  - constructor.
  - vm_compute. reflexivity.
Defined.

End PdfTextFacts.

(* ===================================================================== *)
(** ** Regular expressions: what [re_match] decides *)
(* ===================================================================== *)

Module RegexFacts.
Import Text Regex RegexSem.

Lemma nullable_matches r : nullable r = true ↔ matches r [].
Proof.
  split.
  - induction r as [| |p|r1 IH1 r2 IH2|r1 IH1 r2 IH2|r IH]; simpl; try done.
    + intros _. constructor.
    + intros [H1 H2]%andb_true_iff.
      change (@nil N) with (@nil N ++ []). constructor; auto.
    + intros [H|H]%orb_true_iff.
      * apply matches_alt_l; auto.
      * apply matches_alt_r; auto.
    + intros _. constructor.
  - remember [] as s eqn:Hs. induction 1; simpl; try done.
    + apply app_eq_nil in Hs as [-> ->]. rewrite IHmatches1, IHmatches2; done.
    + rewrite IHmatches; done.
    + rewrite IHmatches, orb_true_r; done.
Qed.

Lemma matches_star_cons_inv r c s :
  matches (Star r) (c :: s) →
  ∃ s1 s2, s = s1 ++ s2 ∧ matches r (c :: s1) ∧ matches (Star r) s2.
Proof.
  intros H. remember (Star r) as r' eqn:Hr. remember (c :: s) as s' eqn:Hs.
  revert c s Hs. induction H; intros c0 s0 Hs; try discriminate.
  injection Hr as ->. destruct s1 as [|d s1].
  - simpl in Hs. by apply IHmatches2.
  - injection Hs as -> <-. by exists s1, s2.
Qed.

Lemma matches_cat_inv r1 r2 s :
  matches (Cat r1 r2) s ↔ ∃ s1 s2, s = s1 ++ s2 ∧ matches r1 s1 ∧ matches r2 s2.
Proof.
  split.
  - inversion 1; subst. by eexists _, _.
  - intros (s1 & s2 & -> & H1 & H2). by constructor.
Qed.

Lemma deriv_matches c r s : matches (deriv c r) s ↔ matches r (c :: s).
Proof.
  revert s.
  induction r as [| |p|r1 IH1 r2 IH2|r1 IH1 r2 IH2|r IH]; intros s; simpl.
  - split; inversion 1.
  - split; inversion 1.
  - destruct (p c) eqn:Hp; split; inversion 1; subst.
    + by constructor.
    + constructor.
    + congruence.
  - assert (Hcat : matches (Cat (deriv c r1) r2) s
                   ↔ ∃ s1 s2, s = s1 ++ s2 ∧ matches r1 (c :: s1)
                              ∧ matches r2 s2).
    { split.
      - inversion 1; subst. eexists _, _. split; [done|]. split; [|done].
        by apply IH1.
      - intros (s1 & s2 & -> & H1 & H2). constructor; [|done]. by apply IH1. }
    assert (Hinv : matches (Cat r1 r2) (c :: s)
                   ↔ (∃ s1 s2, s = s1 ++ s2 ∧ matches r1 (c :: s1)
                               ∧ matches r2 s2)
                     ∨ (matches r1 [] ∧ matches r2 (c :: s))).
    { rewrite matches_cat_inv. split.
      - intros (s1 & s2 & Hs & H1 & H2). destruct s1 as [|d s1].
        + right. simpl in Hs. by subst.
        + left. injection Hs as <- ->. by exists s1, s2.
      - intros [(s1 & s2 & -> & H1 & H2)|[H1 H2]].
        + by exists (c :: s1), s2.
        + by exists [], (c :: s). }
    rewrite Hinv. destruct (nullable r1) eqn:Hn.
    + split.
      * inversion 1; subst.
        -- left. by apply Hcat.
        -- right. split; [by apply nullable_matches | by apply IH2].
      * intros [H|[_ H]].
        -- apply matches_alt_l. by apply Hcat.
        -- apply matches_alt_r. by apply IH2.
    + rewrite Hcat. split; [by left|].
      intros [H|[H _]]; [done|].
      apply nullable_matches in H. congruence.
  - split.
    + inversion 1; subst.
      * apply matches_alt_l. by apply IH1.
      * apply matches_alt_r. by apply IH2.
    + inversion 1; subst.
      * apply matches_alt_l. by apply IH1.
      * apply matches_alt_r. by apply IH2.
  - split.
    + inversion 1; subst.
      apply (matches_star_cons _ (c :: _)); [by apply IH | done].
    + intros (s1 & s2 & -> & H1 & H2)%matches_star_cons_inv.
      constructor; [by apply IH | done].
Qed.

(** [re_match r s] holds exactly when [r] matches a text [s] opens
    with. *)
Lemma re_match_matches r s :
  re_match r s = true ↔ ∃ p rest, s = p ++ rest ∧ matches r p.
Proof.
  revert r. induction s as [|c s IH]; intros r; simpl.
  - rewrite orb_false_r, nullable_matches. split.
    + intros H. by exists [], [].
    + intros (p & rest & [-> ->]%eq_sym%app_eq_nil & H). done.
  - rewrite orb_true_iff, nullable_matches, IH. split.
    + intros [H|(p & rest & -> & H)].
      * by exists [], (c :: s).
      * exists (c :: p), rest. split; [done|]. by apply deriv_matches.
    + intros (p & rest & Hs & H). destruct p as [|d p].
      * by left.
      * injection Hs as -> ->. right. exists p, rest. split; [done|].
        by apply deriv_matches.
Qed.

Lemma matches_alts rs s :
  matches (alts rs) s ↔ ∃ r, r ∈ rs ∧ matches r s.
Proof.
  induction rs as [|r rs IH]; simpl.
  - split; [inversion 1 | by intros (r & ?%elem_of_nil & _)].
  - destruct rs as [|r' rs].
    + split.
      * intros H. exists r. split; [left | done].
      * intros (r0 & ->%list_elem_of_singleton & H). done.
    + split.
      * inversion 1; subst.
        -- exists r. split; [left | done].
        -- destruct (proj1 IH) as (r0 & Hr0 & Hm); [done|].
           exists r0. split; [by right | done].
      * intros (r0 & [->|Hr0]%elem_of_cons & Hm).
        -- by apply matches_alt_l.
        -- apply matches_alt_r, IH. by exists r0.
Qed.

Lemma matches_cls p s : matches (Cls p) s ↔ ∃ c, s = [c] ∧ p c = true.
Proof.
  split.
  - inversion 1; subst. by eexists.
  - intros (c & -> & H). by constructor.
Qed.

Lemma matches_opt r s : matches (Opt r) s ↔ matches r s ∨ s = [].
Proof.
  unfold Opt. split.
  - inversion 1 as [| | |? ? ? Hm|? ? ? Hm| |]; subst; [by left|].
    inversion Hm. by right.
  - intros [H| ->]; [by apply matches_alt_l | apply matches_alt_r; constructor].
Qed.

Lemma matches_star_cls p s :
  matches (Star (Cls p)) s ↔ Forall (λ c, p c = true) s.
Proof.
  split.
  - remember (Star (Cls p)) as r eqn:Hr. induction 1; try done.
    injection Hr as ->. apply Forall_app. split; [|by apply IHmatches2].
    apply matches_cls in H as (c & -> & Hc). by constructor.
  - induction 1 as [|c s Hc _ IH]; [constructor|].
    apply (matches_star_cons _ [c] s); [by constructor | done].
Qed.

Lemma matches_plus_cls p s :
  matches (Plus (Cls p)) s ↔ s ≠ [] ∧ Forall (λ c, p c = true) s.
Proof.
  unfold Plus. rewrite matches_cat_inv. split.
  - intros (s1 & s2 & -> & (c & -> & Hc)%matches_cls & H2%matches_star_cls).
    split; [done | by constructor].
  - intros [Hne Hall]. destruct s as [|c s]; [done|].
    apply Forall_cons in Hall as [Hc Hall].
    exists [c], s. split; [done|]. split; [by constructor|].
    by apply matches_star_cls.
Qed.

End RegexFacts.

(* ===================================================================== *)
(** ** The heading classifier, over the Unicode tables *)
(* ===================================================================== *)

Module HeadingFacts.
Import Text Regex RegexSem PdfParser Unicode PdfParserU.
Import PdfParserFacts RegexFacts.

(** On the ASCII tables the classifier and the scan are those of
    [PdfParser]. *)
Lemma is_heading_ascii l : _is_heading ascii l = PdfParser._is_heading l.
Proof. reflexivity. Qed.

Lemma extract_structure_ascii doc :
  _extract_structure ascii doc = PdfParser._extract_structure doc.
Proof. reflexivity. Qed.

Section tables.
Variable T : tables.

Lemma matches_word_ci w p : matches (word_ci T w) p ↔ reads T w p.
Proof.
  unfold reads. revert p. induction w as [|c w IH]; intros p; simpl.
  - split.
    + inversion 1. constructor.
    + intros ->%Forall2_nil_inv_l. constructor.
  - rewrite matches_cat_inv. split.
    + intros (s1 & s2 & -> & (x & -> & Hx)%matches_cls & H2%IH).
      by constructor.
    + intros (x & p' & Hx & Hp & ->)%Forall2_cons_inv_l.
      exists [x], p'. split; [done|]. split; [|by apply IH].
      apply matches_cls. by exists x.
Qed.

Lemma opens_with_app w p rest : opens_with T w p → opens_with T w (p ++ rest).
Proof.
  intros (p1 & p2 & -> & H). exists p1, (p2 ++ rest).
  by rewrite app_assoc.
Qed.

(** The alternatives [word] and [words?] of a pattern match the same
    openings: a text opens with a match of either exactly when it opens
    with the word. *)
Lemma word_alternative w :
  (∀ p, matches (word_ci T w) p → opens_with T w p)
  ∧ (∀ p, reads T w p → matches (word_ci T w) p).
Proof.
  split.
  - intros p H%matches_word_ci. exists p, []. by rewrite app_nil_r.
  - intros p H. by apply matches_word_ci.
Qed.

Lemma word_opt_alternative w r :
  (∀ p, matches (Cat (word_ci T w) (Opt r)) p → opens_with T w p)
  ∧ (∀ p, reads T w p → matches (Cat (word_ci T w) (Opt r)) p).
Proof.
  split.
  - intros p (s1 & s2 & -> & H1%matches_word_ci & _)%matches_cat_inv.
    by exists s1, s2.
  - intros p H. apply matches_cat_inv. exists p, [].
    rewrite app_nil_r. split; [done|]. split; [by apply matches_word_ci|].
    apply matches_opt. by right.
Qed.

Lemma re_match_alts_opens (ws : list str) (rs : list regex) text :
  Forall2 (λ w r, (∀ p, matches r p → opens_with T w p)
                  ∧ (∀ p, reads T w p → matches r p)) ws rs →
  re_match (alts rs) text = true ↔ ∃ w, w ∈ ws ∧ opens_with T w text.
Proof.
  intros Hall. rewrite re_match_matches. split.
  - intros (p & rest & -> & (r & Hr & Hm)%matches_alts).
    apply list_elem_of_lookup in Hr as [i Hi].
    destruct (Forall2_lookup_r _ _ _ _ _ Hall Hi) as (w & Hw & Hopen & _).
    exists w. split; [by eapply list_elem_of_lookup_2|].
    by apply opens_with_app, Hopen.
  - intros (w & Hw & p & rest & -> & Hp).
    apply list_elem_of_lookup in Hw as [i Hi].
    destruct (Forall2_lookup_l _ _ _ _ _ Hall Hi) as (r & Hr & _ & Hread).
    exists p, rest. split; [done|]. apply matches_alts.
    exists r. split; [by eapply list_elem_of_lookup_2 | by apply Hread].
Qed.

(** The first heading pattern: the text opens with one of the heading
    words.  The optional [s] of [Methods?], [Results?] and [References?]
    has no effect. *)
Lemma heading_word_pattern text :
  re_match (alts [ word_ci T (u "Abstract");
                   word_ci T (u "Introduction");
                   Cat (word_ci T (u "Method")) (Opt (chr_ci T 115));
                   Cat (word_ci T (u "Result")) (Opt (chr_ci T 115));
                   word_ci T (u "Discussion");
                   word_ci T (u "Conclusion");
                   Cat (word_ci T (u "Reference")) (Opt (chr_ci T 115)) ]) text
  = true
  ↔ ∃ w, w ∈ heading_words ∧ opens_with T w text.
Proof.
  apply re_match_alts_opens. unfold heading_words.
  repeat (first [ apply Forall2_nil_2
                | apply Forall2_cons_2;
                  [first [apply word_alternative | apply word_opt_alternative]|] ]).
Qed.

(** The second heading pattern. *)
Lemma numbered_pattern text :
  re_match (Cat (Plus (digit T))
              (Cat (Opt (chr_ci T 46)) (Cat (Plus space) (upper_ci T)))) text
  = true
  ↔ numbered T text.
Proof.
  rewrite re_match_matches. unfold numbered, digit, chr_ci, space, upper_ci.
  split.
  - intros (p & rest & -> & H).
    apply matches_cat_inv in H
      as (ds & p1 & -> & [Hne Hds]%matches_plus_cls & H).
    apply matches_cat_inv in H as (dot & p2 & -> & Hdot%matches_opt & H).
    apply matches_cat_inv in H
      as (sp & p3 & -> & [Hsne Hsp]%matches_plus_cls & (c & -> & Hc)%matches_cls).
    exists ds, dot, sp, c, rest. split_and!; try done.
    + by rewrite <- !app_assoc.
    + destruct Hdot as [(x & -> & Hx)%matches_cls | ->]; [right | left]; eauto.
  - intros (ds & dot & sp & c & rest & -> & Hne & Hds & Hdot & Hsne & Hsp & Hc).
    exists (ds ++ dot ++ sp ++ [c]), rest. split.
    + by rewrite <- !app_assoc.
    + apply matches_cat_inv. exists ds, (dot ++ sp ++ [c]).
      split; [done|]. split; [by apply matches_plus_cls|].
      apply matches_cat_inv. exists dot, (sp ++ [c]).
      split; [done|]. split.
      * apply matches_opt.
        destruct Hdot as [->|(x & -> & Hx)]; [by right | left].
        apply matches_cls. by exists x.
      * apply matches_cat_inv. exists sp, [c].
        split; [done|]. split; [by apply matches_plus_cls|].
        apply matches_cls. by exists c.
Qed.

Lemma matches_pattern_iff sp :
  matches_pattern T sp = true ↔
  (∃ w, w ∈ heading_words ∧ opens_with T w (strip (text sp)))
  ∨ numbered T (strip (text sp)).
Proof.
  unfold matches_pattern, heading_patterns.
  cbn [existsb]. rewrite orb_false_r, orb_true_iff.
  by rewrite heading_word_pattern, numbered_pattern.
Qed.

End tables.

(** C8 (as amended).  Whatever the Unicode tables of the interpreter,
    [_is_heading] holds of a line exactly when the line has a first
    span, and that span is bold (bit 4 of its flags) with a font size
    above 12, or has a font size above 12 and a stripped text of fewer
    than 100 characters, or has a stripped text that [str.isupper]
    accepts and that has more than 3 characters, or has a stripped text
    that opens, in any case, with one of the words Abstract,
    Introduction, Method, Result, Discussion, Conclusion, Reference, or
    with digits, a dot or none, white space and a letter.  The text,
    size and flags are those of the first span, not of the line. *)
Theorem is_heading_by_first_span (T : tables) (l : line) :
  _is_heading T l = true ↔
  ∃ sp, first_span l = Some sp
    ∧ ((bold sp ∧ (12 < size sp)%Q)
       ∨ ((12 < size sp)%Q ∧ len (strip (text sp)) < 100)
       ∨ (str_isupper T (strip (text sp)) = true ∧ 3 < len (strip (text sp)))
       ∨ (∃ w, w ∈ heading_words ∧ opens_with T w (strip (text sp)))
       ∨ numbered T (strip (text sp))).
Proof.
  unfold _is_heading, first_span.
  destruct (spans l) as [|sp rest]; simpl.
  - split; [discriminate | by intros (sp & [=] & _)].
  - rewrite !orb_true_iff, !andb_true_iff, negb_true_iff.
    rewrite !is_large_lt, matches_pattern_iff.
    unfold is_short, is_uppercase.
    rewrite andb_true_iff, !Z.ltb_lt, Z.eqb_neq, is_bold_testbit.
    split.
    + intros H. exists sp. split; [done|]. tauto.
    + intros (sp' & [= <-] & H). tauto.
Qed.

(** The classifier on the ASCII tables: headings by a word, by a
    number, by upper case; texts that only hold a heading word are no
    headings. *)
Example is_heading_examples :
  let heading s := _is_heading ascii (plain_line (u s)) in
  heading "Abstract" = true
  ∧ heading "methodology of the trial" = true
  ∧ heading "RESULTS" = true
  ∧ heading "1. Introduction" = true
  ∧ heading "12 materials" = true
  ∧ heading "The Methods" = false
  ∧ heading "1.Introduction" = false
  ∧ heading "3.5 mg per dose" = false
  ∧ heading "ABC" = false.
Proof. vm_compute. done. Qed.

End HeadingFacts.

(* ===================================================================== *)
(** ** Structure extraction, over the Unicode tables *)
(* ===================================================================== *)

Module StructureFacts.
Import Text Regex PdfParser PdfLines Unicode PdfParserU.

Section tables.
Variable T : tables.

Lemma scan_blocks_split n bs1 bs2 st :
  scan_blocks T n (bs1 ++ bs2) st
  = scan_blocks T n bs2 (scan_blocks T n bs1 st).
Proof. unfold scan_blocks. apply fold_left_app. Qed.

Lemma scan_pages_split first d1 d2 st :
  scan_pages T first (d1 ++ d2) st
  = scan_pages T (first + Z.of_nat (length d1)) d2 (scan_pages T first d1 st).
Proof.
  revert first st. induction d1 as [|p d1 IH]; intros first st; simpl.
  - by rewrite Z.add_0_r.
  - rewrite IH. f_equal. lia.
Qed.

Lemma scan_lines_idle n ls sections :
  Forall (λ l, _is_heading T l = false) ls →
  scan_lines T n ls (sections, None) = (sections, None).
Proof.
  induction 1 as [|l ls Hl _ IH]; simpl; [done|].
  rewrite Hl. by destruct (negb (nonempty (line_text l))).
Qed.

Lemma scan_blocks_idle n p sections :
  Forall (λ l, _is_heading T l = false) (text_lines p) →
  scan_blocks T n p (sections, None) = (sections, None).
Proof.
  unfold text_lines, scan_blocks.
  induction p as [|b p IH]; simpl; [done|].
  rewrite filter_cons.
  destruct (Z.eqb_spec (type b) 0) as [H0|Hne].
  - rewrite decide_True by done. simpl. intros [Hb Hp]%Forall_app.
    rewrite scan_lines_idle by done. by apply IH.
  - rewrite decide_False by done. apply IH.
Qed.

(** Lines after a references heading, in the same block, are not read. *)
Lemma scan_lines_break n pre l rest st :
  is_references_heading T l = true →
  scan_lines T n (pre ++ l :: rest) st = scan_lines T n (pre ++ [l]) st.
Proof.
  unfold is_references_heading.
  intros [[Hne Hh]%andb_true_iff Href]%andb_true_iff.
  revert st. induction pre as [|x pre IH]; intros st; simpl.
  - by rewrite Hne, Hh, Href.
  - destruct (negb (nonempty (line_text x))); [apply IH|].
    destruct (_is_heading T x).
    + destruct (re_search (references_pattern T) (line_text x));
        [done | apply IH].
    + destruct (st.2); apply IH.
Qed.

Lemma scan_lines_sections L lo hi n ls st :
  (∀ l, l ∈ ls → l ∈ L) → lo ≤ n < hi →
  state_from T L lo hi st → state_from T L lo hi (scan_lines T n ls st).
Proof.
  intros Hsub Hn. revert st.
  induction ls as [|l ls IH]; intros st Hst; simpl; [done|].
  assert (HlL : l ∈ L) by (apply Hsub; left).
  assert (Hsub' : ∀ l', l' ∈ ls → l' ∈ L) by (intros; apply Hsub; by right).
  specialize (IH Hsub').
  destruct (nonempty (line_text l)) eqn:Hne; simpl; [|by apply IH].
  assert (Hne' : line_text l ≠ []) by (by destruct (line_text l)).
  destruct Hst as [Hclosed Hcur].
  destruct (_is_heading T l) eqn:Hh.
  - destruct (re_search (references_pattern T) (line_text l)) eqn:Href; [done|].
    apply IH. split; simpl.
    + destruct (st.2) as [cur|] eqn:Hst2; [|done].
      apply Forall_app. split; [done|]. apply Forall_singleton. by apply Hcur.
    + intros cur [= <-]. unfold section_from. simpl.
      split_and!; [done | done | by exists l | lia | lia | done].
  - destruct (st.2) as [cur|] eqn:Hst2.
    + apply IH. split; simpl; [done|]. intros cur' [= <-].
      destruct (Hcur cur eq_refl) as (H1 & H2 & H3 & H4 & H5).
      unfold section_from. simpl. split_and!; try done; try lia.
      apply Forall_app. split; [done|]. apply Forall_singleton.
      split; [done|]. by exists l.
    + apply IH. split; [done|]. by rewrite Hst2.
Qed.

Lemma scan_blocks_sections L lo hi n p st :
  (∀ l, l ∈ text_lines p → l ∈ L) → lo ≤ n < hi →
  state_from T L lo hi st → state_from T L lo hi (scan_blocks T n p st).
Proof.
  intros Hsub Hn. unfold scan_blocks. revert st.
  induction p as [|b p IH]; intros st Hst; simpl; [done|].
  unfold text_lines in Hsub. rewrite filter_cons in Hsub.
  destruct (Z.eqb_spec (type b) 0) as [H0|Hne].
  - rewrite decide_True in Hsub by done. simpl in Hsub.
    apply IH.
    + intros l Hl. apply Hsub, elem_of_app. by right.
    + apply scan_lines_sections; [|done|done].
      intros l Hl. apply Hsub, elem_of_app. by left.
  - rewrite decide_False in Hsub by done. by apply IH.
Qed.

Lemma scan_pages_sections L lo hi first doc st :
  (∀ l, l ∈ doc_lines doc → l ∈ L) →
  lo ≤ first → first + Z.of_nat (length doc) ≤ hi →
  state_from T L lo hi st → state_from T L lo hi (scan_pages T first doc st).
Proof.
  revert first st. induction doc as [|p doc IH]; intros first st Hsub Hlo Hhi Hst;
    simpl in *; [done|].
  apply IH.
  - intros l Hl. apply Hsub. unfold doc_lines. simpl.
    apply elem_of_app. by right.
  - lia.
  - lia.
  - apply scan_blocks_sections; [|lia|done].
    intros l Hl. apply Hsub. unfold doc_lines. simpl.
    apply elem_of_app. by left.
Qed.

Lemma extract_structure_sections (doc : document) :
  Forall (section_from T (doc_lines doc) 0 (Z.of_nat (length doc)))
         (_extract_structure T doc).
Proof.
  unfold _extract_structure.
  destruct (scan_pages_sections (doc_lines doc) 0 (Z.of_nat (length doc)) 0 doc
              ([], None)) as [Hclosed Hcur]; [done | lia | lia | |].
  { split; [done|]. intros cur [=]. }
  destruct (scan_pages T 0 doc ([], None)).2 as [cur|] eqn:Hst; [|done].
  apply Forall_app. split; [done|]. apply Forall_singleton. by apply Hcur.
Qed.

End tables.

(** X1.  A document none of whose lines [_is_heading] classifies as a
    heading has no section: every line is read before any heading and
    is dropped. *)
Theorem no_heading_no_section (T : tables) (doc : document) :
  Forall (λ l, _is_heading T l = false) (doc_lines doc) →
  _extract_structure T doc = [].
Proof.
  unfold _extract_structure, doc_lines. intros Hall.
  assert (H : ∀ first, scan_pages T first doc ([], None) = ([], None)).
  { induction doc as [|p doc IH]; intros first; simpl in *; [done|].
    apply Forall_app in Hall as [Hp Hdoc].
    rewrite scan_blocks_idle by done. by apply IH. }
  by rewrite H.
Qed.

(** X1, at a two-page document of plain 10pt lines. *)
Lemma no_heading_no_section_witness :
  _extract_structure ascii
    [ [ Block 0 [body_line "we study reishi."; body_line "it grows on wood." ] ];
      [ Block 1 []; Block 0 [body_line "yield went up." ] ] ] = [].
Proof.
  apply no_heading_no_section. vm_compute.
  repeat constructor.
Defined.

(** X2.  A references heading ends the scan of its own block: whatever
    follows it in that block has no effect on the structure returned. *)
Theorem references_heading_ends_block (T : tables)
    (d1 d2 : document) (p1 p2 : page) (pre rest : list line) (l : line) :
  is_references_heading T l = true →
  _extract_structure T (d1 ++ (p1 ++ Block 0 (pre ++ l :: rest) :: p2) :: d2)
  = _extract_structure T (d1 ++ (p1 ++ Block 0 (pre ++ [l]) :: p2) :: d2).
Proof.
  intros Hl. unfold _extract_structure.
  assert (Hblock : ∀ n ls st,
            scan_blocks T n (p1 ++ Block 0 ls :: p2) st
            = scan_blocks T n p2 (scan_lines T n ls (scan_blocks T n p1 st))).
  { intros n ls st. by rewrite scan_blocks_split. }
  rewrite !scan_pages_split. simpl. rewrite !Hblock.
  by rewrite (scan_lines_break _ _ pre l rest _ Hl).
Qed.

(** X2, at a block that lists two references under its heading. *)
Lemma references_heading_ends_block_witness :
  _extract_structure ascii
    ([] ++ ([Block 0 [heading_line "Results"; body_line "yield went up."]]
            ++ Block 0 ([] ++ heading_line "References"
                           :: [body_line "Smith 2020."; body_line "Lee 2021."])
            :: []) :: [])
  = _extract_structure ascii
    ([] ++ ([Block 0 [heading_line "Results"; body_line "yield went up."]]
            ++ Block 0 ([] ++ [heading_line "References"]) :: []) :: []).
Proof.
  apply references_heading_ends_block. vm_compute. reflexivity.
Defined.

(** X3.  Every section returned has a non-empty title that the
    references pattern does not find, which is the text of a line of
    the document that [_is_heading] classifies as a heading, and a page
    number between 1 and the number of pages. *)
Theorem titles_are_headings (T : tables) (doc : document) :
  Forall (λ s,
            title s ≠ []
            ∧ re_search (references_pattern T) (title s) = false
            ∧ (∃ l, l ∈ doc_lines doc ∧ _is_heading T l = true
                    ∧ line_text l = title s)
            ∧ 1 ≤ page_no s ≤ Z.of_nat (length doc))
         (_extract_structure T doc).
Proof.
  eapply Forall_impl; [apply extract_structure_sections|].
  intros s (H1 & H2 & H3 & H4 & _). split_and!; try done; lia.
Qed.

(** X5.  Every content entry of a returned section is the non-empty
    text of a line of the document that [_is_heading] does not classify
    as a heading: heading lines never become content, and no text is
    made up. *)
Theorem content_is_body (T : tables) (doc : document) :
  Forall (λ s,
            Forall (λ c, c ≠ [] ∧ ∃ l, l ∈ doc_lines doc
                                      ∧ _is_heading T l = false
                                      ∧ line_text l = c)
                   (content s))
         (_extract_structure T doc).
Proof.
  eapply Forall_impl; [apply extract_structure_sections|].
  by intros s (_ & _ & _ & _ & H5).
Qed.

End StructureFacts.

(* ===================================================================== *)
(** ** Retrieval, over the Unicode tables *)
(* ===================================================================== *)

Module RankingFacts.
Import Text Retriever RetrieverSpec Unicode RetrieverU.
Import RetrieverFacts RetrieverMore.

(** On the ASCII tables [retrieve] is that of [Retriever]. *)
Lemma retrieve_ascii self query top_k method :
  retrieve ascii self query top_k method
  = Retriever.retrieve self query top_k method.
Proof. reflexivity. Qed.

(** The loop over the set of terms adds up, in whatever order the set
    is read, the counts of the distinct tokens of at least 3
    characters. *)
Lemma term_score_tokens content (tokens : list str) :
  term_score content (list_to_set tokens)
  = sum_Z ((λ term, count content term)
           <$> filter (λ term, 3 ≤ len term) (remove_dups tokens)).
Proof.
  unfold term_score, set_fold. simpl.
  set (f := λ (term : str) (score : Z),
              if len term <? 3 then score else score + count content term).
  trans (foldr f 0 (remove_dups tokens)).
  - apply (foldr_permutation_proper (=) f 0).
    + intros a1 a2 b. unfold f.
      destruct (len a1 <? 3), (len a2 <? 3); lia.
    + apply elements_list_to_set_dups.
  - induction (remove_dups tokens) as [|term l IH]; [done|].
    simpl. rewrite IH, filter_cons. unfold f at 1.
    destruct (Z.ltb_spec (len term) 3) as [Hlt|Hge].
    + rewrite decide_False by lia. done.
    + rewrite decide_True by lia. rewrite fmap_cons.
      change (sum_Z (?x :: ?l)) with (x + sum_Z l). lia.
Qed.

(** *** Sorting a list through a function *)

Lemma insert_desc_fmap {A B} (f : A → B) (key : B → Z) x l :
  insert_desc key (f x) (f <$> l) = f <$> insert_desc (λ a, key (f a)) x l.
Proof.
  induction l as [|y l IH]; [done|].
  rewrite fmap_cons. cbn [insert_desc].
  destruct (key (f x) <? key (f y)); [|done].
  by rewrite IH.
Qed.

Lemma sort_desc_fmap {A B} (f : A → B) (key : B → Z) l :
  sort_desc key (f <$> l) = f <$> sort_desc (λ a, key (f a)) l.
Proof.
  induction l as [|x l IH]; [done|].
  rewrite fmap_cons. cbn [sort_desc]. rewrite IH. apply insert_desc_fmap.
Qed.

Lemma sort_desc_ext {A} (key1 key2 : A → Z) l :
  (∀ x, key1 x = key2 x) → sort_desc key1 l = sort_desc key2 l.
Proof.
  intros Hkey. induction l as [|x l IH]; simpl; [done|]. rewrite IH.
  generalize (sort_desc key2 l). intros l'.
  induction l' as [|y l' IH']; simpl; [done|].
  by rewrite !Hkey, IH'.
Qed.

(** *** Chunks with their positions *)

Lemma imap_positions_snd {A} (P : A → Prop) `{∀ x, Decision (P x)}
    (g : nat → nat) (l : list A) :
  (filter (λ ic, P ic.2) (imap (λ i c, (g i, c)) l)).*2 = filter P l.
Proof.
  revert g. induction l as [|x l IH]; intros g; [done|].
  rewrite imap_cons, !filter_cons. simpl.
  specialize (IH (g ∘ S)).
  destruct (decide (P x)); simpl; [f_equal|]; apply IH.
Qed.

Lemma imap_positions_sorted {A} (g : nat → nat) (l : list A) :
  (∀ i j, (i < j)%nat → (g i < g j)%nat) →
  StronglySorted (λ x y : nat * A, (x.1 < y.1)%nat)
                 (imap (λ i c, (g i, c)) l).
Proof.
  revert g. induction l as [|x l IH]; intros g Hg; [constructor|].
  rewrite imap_cons. constructor.
  - apply (IH (g ∘ S)). intros i j Hij. simpl. apply Hg. lia.
  - apply Forall_forall. intros y (i & c & -> & _)%elem_of_lookup_imap.
    simpl. apply Hg. lia.
Qed.

Lemma StronglySorted_filter {A} (R : relation A) (P : A → Prop)
    `{∀ x, Decision (P x)} l :
  StronglySorted R l → StronglySorted R (filter P l).
Proof.
  induction 1 as [|x l Hl IH Hx]; [constructor|].
  rewrite filter_cons. destruct (decide (P x)); [|done].
  constructor; [done|].
  apply Forall_forall. intros y [_ Hy]%list_elem_of_filter.
  rewrite Forall_forall in Hx. by apply Hx.
Qed.

Section tables.
Variable T : tables.

Lemma content_lower_of chunk :
  content_is_text chunk = true →
  content_lower T chunk = Returns (str_lower T (content_of chunk)).
Proof.
  unfold content_is_text, content_lower, content_of.
  by destruct (chunk !! "content") as [[s|z]|].
Qed.

Lemma score_chunks_candidates query corpus acc :
  text_corpus corpus →
  score_chunks T (list_to_set (split (str_lower T query))) corpus acc
  = Returns (acc ++ candidates T query corpus).
Proof.
  unfold text_corpus. revert acc.
  induction corpus as [|chunk corpus IH]; intros acc Hall; simpl.
  - unfold candidates. simpl. by rewrite app_nil_r.
  - simpl in Hall. apply andb_true_iff in Hall as [Htext Hall].
    rewrite content_lower_of by done. simpl.
    rewrite term_score_tokens. fold (retained_terms T query).
    fold (score T query chunk).
    rewrite IH by done. unfold candidates. rewrite filter_cons.
    destruct (Z.ltb_spec 0 (score T query chunk)) as [Hpos|Hle].
    + rewrite decide_True by done. simpl. by rewrite <- app_assoc.
    + rewrite decide_False by lia. done.
Qed.

Lemma retrieve_candidates self query top_k :
  text_corpus (chunks self) →
  retrieve T self query top_k "keyword"
  = Returns (slice_to top_k
               (sort_desc score_key
                  (candidates T (_translate_query query) (chunks self)))).
Proof.
  intros Hall. unfold retrieve.
  destruct (chunks self) as [|c cs] eqn:Hcs.
  - unfold slice_to, candidates. simpl.
    destruct (0 <=? top_k); by rewrite ?take_nil.
  - rewrite decide_True by done. rewrite <- Hcs in *.
    unfold _keyword_retrieval.
    by rewrite (score_chunks_candidates _ _ [] Hall).
Qed.

Lemma score_key_of_scored query chunk :
  score_key (scored T query chunk) = score T query chunk.
Proof. unfold score_key, scored. by rewrite lookup_insert_eq. Qed.

Lemma elem_of_scored_candidates query corpus r :
  r ∈ candidates T query corpus ↔
  ∃ chunk, chunk ∈ corpus ∧ 0 < score T query chunk
           ∧ r = scored T query chunk.
Proof.
  unfold candidates. rewrite list_elem_of_fmap. split.
  - intros (chunk & -> & [Hpos Hin]%list_elem_of_filter). by exists chunk.
  - intros (chunk & Hin & Hpos & ->). exists chunk. split; [done|].
    by apply list_elem_of_filter.
Qed.

Lemma candidates_positions query corpus :
  candidates T query corpus
  = (λ ic, scored T query ic.2) <$> positions T query corpus.
Proof.
  unfold candidates, positions.
  rewrite <- (imap_positions_snd (λ chunk, 0 < score T query chunk) id corpus).
  by rewrite <- list_fmap_compose.
Qed.

Lemma elem_of_positions query corpus i chunk :
  (i, chunk) ∈ positions T query corpus
  ↔ corpus !! i = Some chunk ∧ 0 < score T query chunk.
Proof.
  unfold positions. rewrite list_elem_of_filter, elem_of_lookup_imap. simpl.
  split.
  - intros (Hpos & j & c & [= -> ->] & Hj). done.
  - intros [Hi Hpos]. split; [done|]. by exists i, chunk.
Qed.

Lemma positions_sorted query corpus :
  StronglySorted (λ x y : nat * dict, (x.1 < y.1)%nat)
                 (positions T query corpus).
Proof.
  unfold positions. apply StronglySorted_filter.
  apply (imap_positions_sorted id). intros i j Hij. done.
Qed.

(** The stable sort by descending score puts the chunks in the order
    [ranks_before]: the higher score first, and the earlier chunk first
    among those of one score. *)
Lemma insert_desc_ranked query x l :
  Forall (λ y : nat * dict, (x.1 < y.1)%nat) l →
  StronglySorted (ranks_before T query) l →
  StronglySorted (ranks_before T query)
                 (insert_desc (λ ic, score T query ic.2) x l).
Proof.
  intros Hx Hl. induction Hl as [|y l Hl IH Hy]; simpl.
  - repeat constructor.
  - apply Forall_cons in Hx as [Hxy Hx].
    destruct (Z.ltb_spec (score T query x.2) (score T query y.2)) as [Hlt|Hge].
    + constructor; [by apply IH|].
      rewrite insert_desc_perm. constructor; [by left | done].
    + constructor; [by constructor|].
      constructor.
      * unfold ranks_before. lia.
      * rewrite Forall_forall in Hx, Hy. apply Forall_forall.
        intros z Hz. specialize (Hx z Hz). specialize (Hy z Hz).
        unfold ranks_before in *. lia.
Qed.

Lemma sort_desc_ranked query l :
  StronglySorted (λ x y : nat * dict, (x.1 < y.1)%nat) l →
  StronglySorted (ranks_before T query)
                 (sort_desc (λ ic, score T query ic.2) l).
Proof.
  induction 1 as [|x l Hl IH Hx]; simpl; [constructor|].
  apply insert_desc_ranked; [|done].
  by rewrite sort_desc_perm.
Qed.

(** What [retrieve] returns, with the position of every result. *)
Lemma retrieve_positions self query top_k :
  0 ≤ top_k → text_corpus (chunks self) →
  retrieve T self query top_k "keyword"
  = Returns
      (scored T (_translate_query query)
       <$> (take (Z.to_nat top_k)
              (sort_desc (λ ic, score T (_translate_query query) ic.2)
                 (positions T (_translate_query query) (chunks self)))).*2).
Proof.
  intros Hk Htext. rewrite retrieve_candidates by done.
  rewrite slice_to_take by done. f_equal.
  rewrite candidates_positions, sort_desc_fmap.
  rewrite (sort_desc_ext _ (λ ic, score T (_translate_query query) ic.2))
    by (intros ic; apply score_key_of_scored).
  by rewrite <- fmap_take, <- list_fmap_compose.
Qed.

End tables.

(** *** Scores and matches *)

Lemma retained_term_nonempty (T : tables) query term :
  term ∈ retained_terms T query → term ≠ [].
Proof.
  unfold retained_terms. intros [H _]%list_elem_of_filter ->.
  unfold len in H. simpl in H. lia.
Qed.

(** The score is positive exactly when some retained term occurs in the
    lower-cased content. *)
Lemma score_positive (T : tables) query chunk :
  0 < score T query chunk ↔
  ∃ term, term ∈ retained_terms T query
          ∧ contains term (str_lower T (content_of chunk)) = true.
Proof.
  unfold score. rewrite sum_Z_pos.
  - split.
    + intros (z & (term & -> & Hterm)%list_elem_of_fmap & Hz).
      exists term. split; [done|].
      apply count_pos_contains; [by eapply retained_term_nonempty | done].
    + intros (term & Hterm & Hc). eexists. split.
      * apply list_elem_of_fmap. by exists term.
      * apply count_pos_contains; [by eapply retained_term_nonempty | done].
  - apply Forall_fmap, Forall_forall. intros term _. apply count_nonneg.
Qed.

(** C3 (as amended).  Whatever the Unicode tables of the interpreter:
    the loop over the query terms gives a content the sum, over the
    distinct white-space-delimited tokens of the lower-cased expanded
    query that have at least 3 characters, of the number of
    non-overlapping occurrences of the token in that content; and, on a
    corpus of text chunks, every result [retrieve] returns is a chunk of
    the corpus for whose lower-cased content that sum is positive,
    carrying the sum under the key [score]. *)
Theorem score_is_count_sum (T : tables) (self : SimpleRetriever)
    (query : str) (top_k : Z) :
  text_corpus (chunks self) →
  let search_query := _translate_query query in
  let tokens :=
    filter (λ term, 3 ≤ len term)
           (remove_dups (split (str_lower T search_query))) in
  let sum_of_counts (content : str) :=
    sum_Z ((λ term, count content term) <$> tokens) in
  (∀ content,
     term_score content (list_to_set (split (str_lower T search_query)))
     = sum_of_counts content)
  ∧ ∃ results,
      retrieve T self query top_k "keyword" = Returns results
      ∧ ∀ r, r ∈ results →
          ∃ chunk, chunk ∈ chunks self
             ∧ 0 < sum_of_counts (str_lower T (content_of chunk))
             ∧ r = <["score" :=
                       VInt (sum_of_counts (str_lower T (content_of chunk)))]>
                   chunk.
Proof.
  intros Htext search_query tokens sum_of_counts. split.
  - intros content. apply term_score_tokens.
  - eexists. split; [by apply retrieve_candidates|].
    intros r Hr%elem_of_slice_to. rewrite sort_desc_perm in Hr.
    by apply elem_of_scored_candidates in Hr.
Qed.

(** C3, at the five-chunk corpus and the query "Ganoderma immune", on
    the ASCII tables. *)
Lemma score_is_count_sum_witness :
  let search_query := _translate_query (u "Ganoderma immune") in
  let tokens :=
    filter (λ term, 3 ≤ len term)
           (remove_dups (split (str_lower ascii search_query))) in
  let sum_of_counts (content : str) :=
    sum_Z ((λ term, count content term) <$> tokens) in
  (∀ content,
     term_score content (list_to_set (split (str_lower ascii search_query)))
     = sum_of_counts content)
  ∧ ∃ results,
      retrieve ascii corpus5 (u "Ganoderma immune") 5 "keyword"
      = Returns results
      ∧ ∀ r, r ∈ results →
          ∃ chunk, chunk ∈ chunks corpus5
             ∧ 0 < sum_of_counts (str_lower ascii (content_of chunk))
             ∧ r = <["score" :=
                       VInt (sum_of_counts (str_lower ascii (content_of chunk)))]>
                   chunk.
Proof.
  apply (score_is_count_sum ascii corpus5 (u "Ganoderma immune") 5).
  vm_compute. reflexivity.
Defined.

(** C4.  Whatever the Unicode tables of the interpreter, on a corpus of
    text chunks and for a positive [top_k], [retrieve] returns chunks of
    the corpus, each with its score written under the key [score]: at
    most [top_k] of them, each with a positive score, in descending
    order of that score, chunks of equal score in the order they have
    in the corpus; and a chunk with a positive score is left out only
    when [top_k] results are returned, each of which ranks before it.
    [ranked] holds the chunks returned, each with its position in the
    corpus.  On an empty corpus [retrieve] returns the empty list,
    whatever the arguments. *)
Theorem retrieve_ranked_by_score (T : tables) :
  (∀ (self : SimpleRetriever) (query : str) (top_k : Z),
     0 < top_k → text_corpus (chunks self) →
     let search_query := _translate_query query in
     ∃ (results : list dict) (ranked : list (nat * dict)),
       retrieve T self query top_k "keyword" = Returns results
       ∧ Z.of_nat (length results) ≤ top_k
       ∧ Forall2 (λ (r : dict) ic,
                    chunks self !! ic.1 = Some ic.2
                    ∧ r = <["score" := VInt (score T search_query ic.2)]> ic.2
                    ∧ r !! "score" = Some (VInt (score T search_query ic.2))
                    ∧ 0 < score T search_query ic.2)
                 results ranked
       ∧ (∀ p q x y, (p < q)%nat → ranked !! p = Some x → ranked !! q = Some y →
            score T search_query y.2 < score T search_query x.2
            ∨ (score T search_query y.2 = score T search_query x.2
               ∧ (x.1 < y.1)%nat))
       ∧ (∀ j chunk,
            chunks self !! j = Some chunk → 0 < score T search_query chunk →
            (j, chunk) ∉ ranked →
            Z.of_nat (length results) = top_k
            ∧ ∀ x, x ∈ ranked →
                score T search_query chunk < score T search_query x.2
                ∨ (score T search_query chunk = score T search_query x.2
                   ∧ (x.1 < j)%nat)))
  ∧ (∀ (self : SimpleRetriever) (query : str) (top_k : Z) (method : string),
       chunks self = [] → retrieve T self query top_k method = Returns []).
Proof.
  split.
  - intros self query top_k Hk Htext search_query.
    set (sorted := sort_desc (λ ic, score T search_query ic.2)
                     (positions T search_query (chunks self))).
    assert (Hsorted : StronglySorted (ranks_before T search_query) sorted).
    { apply sort_desc_ranked, positions_sorted. }
    assert (Hin : ∀ i chunk, (i, chunk) ∈ sorted
                  ↔ chunks self !! i = Some chunk
                    ∧ 0 < score T search_query chunk).
    { intros i chunk. unfold sorted. rewrite sort_desc_perm.
      apply elem_of_positions. }
    set (ranked := take (Z.to_nat top_k) sorted).
    rewrite <- (take_drop (Z.to_nat top_k) sorted) in Hsorted.
    fold ranked in Hsorted.
    exists (scored T search_query <$> ranked.*2), ranked. split_and!.
    + rewrite retrieve_positions by (done || lia). done.
    + rewrite !length_fmap. unfold ranked. rewrite length_take. lia.
    + rewrite <- list_fmap_compose. apply Forall2_fmap_l, Forall_Forall2_diag.
      apply Forall_forall. intros [i chunk] Hic. simpl.
      assert (Hs : (i, chunk) ∈ sorted) by (by eapply subseteq_take).
      apply Hin in Hs as [Hi Hpos]. unfold scored.
      split_and!; try done. apply lookup_insert_eq.
    + intros p q x y Hpq Hp Hq.
      apply StronglySorted_app_1_l in Hsorted.
      rewrite <- (take_drop_middle ranked q y Hq) in Hsorted.
      apply (StronglySorted_app_1_elem_of _ _ _ x y) in Hsorted.
      * done.
      * apply list_elem_of_lookup. exists p.
        rewrite lookup_take_lt by done. done.
      * left.
    + intros j chunk Hj Hpos Hout.
      assert (Hs : (j, chunk) ∈ sorted) by (by apply Hin).
      rewrite <- (take_drop (Z.to_nat top_k) sorted) in Hs.
      fold ranked in Hs. apply elem_of_app in Hs as [Hs|Hs]; [done|].
      split.
      * rewrite !length_fmap. unfold ranked. rewrite length_take.
        destruct (decide (Z.to_nat top_k ≤ length sorted)%nat); [lia|].
        rewrite drop_ge in Hs by lia. by apply elem_of_nil in Hs.
      * intros x Hx.
        apply (StronglySorted_app_1_elem_of _ _ _ x (j, chunk)) in Hsorted;
          done.
  - intros self query top_k method Hempty. unfold retrieve. by rewrite Hempty.
Qed.

(** C4, at the five-chunk corpus, the query "Ganoderma immune" and
    [top_k = 2], on the ASCII tables: the chunk at position 0, with
    score 3, and the chunk at position 3, with score 2, are returned;
    the chunk at position 2, with score 1, is left out. *)
Lemma retrieve_ranked_by_score_witness :
  let search_query := _translate_query (u "Ganoderma immune") in
  ∃ (results : list dict) (ranked : list (nat * dict)),
    retrieve ascii corpus5 (u "Ganoderma immune") 2 "keyword" = Returns results
    ∧ Z.of_nat (length results) ≤ 2
    ∧ Forall2 (λ (r : dict) ic,
                 chunks corpus5 !! ic.1 = Some ic.2
                 ∧ r = <["score" := VInt (score ascii search_query ic.2)]> ic.2
                 ∧ r !! "score" = Some (VInt (score ascii search_query ic.2))
                 ∧ 0 < score ascii search_query ic.2)
              results ranked
    ∧ (∀ p q x y, (p < q)%nat → ranked !! p = Some x → ranked !! q = Some y →
         score ascii search_query y.2 < score ascii search_query x.2
         ∨ (score ascii search_query y.2 = score ascii search_query x.2
            ∧ (x.1 < y.1)%nat))
    ∧ (∀ j chunk,
         chunks corpus5 !! j = Some chunk → 0 < score ascii search_query chunk →
         (j, chunk) ∉ ranked →
         Z.of_nat (length results) = 2
         ∧ ∀ x, x ∈ ranked →
             score ascii search_query chunk < score ascii search_query x.2
             ∨ (score ascii search_query chunk = score ascii search_query x.2
                ∧ (x.1 < j)%nat)).
Proof.
  apply (proj1 (retrieve_ranked_by_score ascii) corpus5 (u "Ganoderma immune") 2).
  - reflexivity.
  - vm_compute. reflexivity.
Defined.

(** The ranking of the five-chunk corpus for [top_k = 2]. *)
Example retrieve_corpus5_top2 :
  retrieve ascii corpus5 (u "Ganoderma immune") 2 "keyword"
  = Returns
      [ <["score" := VInt 3]> (text_chunk "Ganoderma is here, ganoderma immune");
        <["score" := VInt 2]> (text_chunk "immune immune") ].
Proof. vm_compute. done. Qed.

(** X16.  Whatever the Unicode tables, on a corpus of text chunks and
    with [top_k] at least the size of the corpus, the chunks returned
    are exactly those whose lower-cased content contains, as a
    substring, one of the distinct tokens of at least 3 characters of
    the lower-cased expanded query. *)
Theorem retrieve_returns_matches (T : tables) (self : SimpleRetriever)
    (query : str) (top_k : Z) :
  text_corpus (chunks self) →
  Z.of_nat (length (chunks self)) ≤ top_k →
  ∃ results,
    retrieve T self query top_k "keyword" = Returns results
    ∧ ∀ chunk, chunk ∈ chunks self →
        (scored T (_translate_query query) chunk ∈ results ↔
         ∃ term, term ∈ retained_terms T (_translate_query query)
                 ∧ contains term (str_lower T (content_of chunk)) = true).
Proof.
  intros Htext Hk. eexists. split; [by apply retrieve_candidates|].
  intros chunk Hchunk.
  set (sq := _translate_query query).
  rewrite slice_to_take by lia.
  rewrite take_ge.
  2:{ rewrite (Permutation_length (sort_desc_perm score_key _)).
      unfold candidates. rewrite length_fmap.
      pose proof (length_filter (λ c, 0 < score T sq c) (chunks self)). lia. }
  rewrite (sort_desc_perm score_key), <- score_positive.
  rewrite elem_of_scored_candidates. split.
  - intros (chunk' & _ & Hpos & Heq).
    apply (f_equal score_key) in Heq. rewrite !score_key_of_scored in Heq. lia.
  - intros Hpos. by exists chunk.
Qed.

(** X16, at the five-chunk corpus and the query "Ganoderma immune", on
    the ASCII tables. *)
Lemma retrieve_returns_matches_witness :
  ∃ results,
    retrieve ascii corpus5 (u "Ganoderma immune") 5 "keyword" = Returns results
    ∧ ∀ chunk, chunk ∈ chunks corpus5 →
        (scored ascii (_translate_query (u "Ganoderma immune")) chunk ∈ results ↔
         ∃ term, term ∈ retained_terms ascii (_translate_query (u "Ganoderma immune"))
                 ∧ contains term (str_lower ascii (content_of chunk)) = true).
Proof.
  apply (retrieve_returns_matches ascii corpus5 (u "Ganoderma immune") 5).
  - vm_compute. reflexivity.
  - vm_compute. discriminate.
Defined.

End RankingFacts.

(* ===================================================================== *)
(** ** The abstract, over the Unicode tables *)
(* ===================================================================== *)

Module AbstractFacts.
Import Text Re PdfText Unicode PdfTextU.
Import PdfTextFacts.

(** On the ASCII tables [extract_abstract] is that of [PdfText]. *)
Lemma extract_abstract_ascii parsed :
  extract_abstract ascii parsed = PdfText.extract_abstract parsed.
Proof. reflexivity. Qed.

Lemma run_lit_ci_reads {R} (T : tables) w s g (k : str → groups → option R) :
  reads_at T w s = false → run (lit_ci T w) s g k = None.
Proof.
  revert s. induction w as [|a w IH]; intros s; [by destruct s|].
  destruct s as [|b s]; [done|]. simpl.
  destruct (ignore_case T a b); [|done]. simpl. apply IH.
Qed.

Lemma search_lit_ci_reads (T : tables) w r s :
  reads_somewhere T w s = false →
  search (Seq (lit_ci T w) r) s = None.
Proof.
  induction s as [|c s IH].
  - simpl. rewrite orb_false_r. intros H. unfold exec. simpl.
    by rewrite run_lit_ci_reads.
  - change (reads_somewhere T w (c :: s))
      with (reads_at T w (c :: s) || reads_somewhere T w s).
    intros [Hst Hc]%orb_false_iff.
    change (search (Seq (lit_ci T w) r) (c :: s))
      with (match exec (Seq (lit_ci T w) r) (c :: s) with
            | Some m => Some m
            | None => search (Seq (lit_ci T w) r) s
            end).
    unfold exec at 1. simpl run.
    rewrite run_lit_ci_reads by done. by apply IH.
Qed.

(** X27.  Whatever the Unicode tables, a paper has no abstract when no
    section title holds "abstract" once lower-cased and the full text
    has no place at which "abstract" can be read letter by letter under
    [re.IGNORECASE]. *)
Theorem abstract_absent (T : tables) (parsed : parsed_content) :
  Forall (λ s, is_abstract_section T s = false) (structure parsed) →
  reads_somewhere T (u "abstract") (content parsed) = false →
  extract_abstract T parsed = None.
Proof.
  intros Hnone Htext. unfold extract_abstract. rewrite (find_none _ _ Hnone).
  unfold abstract_pattern. by rewrite search_lit_ci_reads.
Qed.

(** X27, at a paper with one section and no abstract, on the ASCII
    tables. *)
Lemma abstract_absent_witness :
  extract_abstract ascii
    {| structure := [ {| PdfParser.title := u "Methods"; PdfParser.page_no := 1;
                         PdfParser.content := [] |} ];
       content := u "Methods. Hot water extraction." |} = None.
Proof.
  apply abstract_absent.
  - by repeat constructor.
  - reflexivity.
Defined.

End AbstractFacts.

(* ===================================================================== *)
(** ** Construction, and a chunker that cannot hold two sentences *)
(* ===================================================================== *)

Module ChunkerNarrowFacts.
Import Text Chunker ChunkerTrace ChunkerNarrow.
Import ChunkerFacts.

Lemma split_sentences_nonempty text :
  Forall (λ s, s ≠ []) (_split_sentences text).
Proof.
  unfold _split_sentences. apply Forall_fmap, Forall_forall.
  intros p [Hp _]%list_elem_of_filter. simpl. intros Hnil.
  by rewrite Hnil in Hp.
Qed.

(** With [chunk_size ≤ 0] a sentence that meets a non-empty buffer
    closes it. *)
Lemma closes_narrow self st s :
  chunk_size self ≤ 0 → s ≠ [] →
  current_chunk st ≠ [] → current_size st = total_len (current_chunk st) →
  closes self st s = true.
Proof.
  intros Hcs Hs Hne Hsize. unfold closes.
  pose proof (total_len_nonneg (current_chunk st)).
  assert (0 < len s) by (destruct s; [done | unfold len; simpl; lia]).
  destruct (current_chunk st); [done|].
  rewrite andb_true_r. apply Z.ltb_lt. lia.
Qed.

Lemma trace_narrow self ss g :
  chunk_size self ≤ 0 → Forall (λ s, s ≠ []) ss →
  current_chunk (src g) ≠ [] →
  current_size (src g) = total_len (current_chunk (src g)) →
  current_chunk (src (fold_left (trace_step self) ss g)) ≠ []
  ∧ (closed (fold_left (trace_step self) ss g)).*2
    ++ [current_chunk (src (fold_left (trace_step self) ss g))]
    = (closed g).*2
      ++ current_chunk (src g)
         :: one_sentence_buffers self (carried self (current_chunk (src g))) ss.
Proof.
  intros Hcs Hss. revert g.
  induction Hss as [|s ss Hs Hss IH]; intros g Hne Hsize; simpl; [done|].
  pose proof (closes_narrow self (src g) s Hcs Hs Hne Hsize) as Hclose.
  destruct (carried_spec self (current_chunk (src g))) as (_ & _ & Hov & _).
  destruct (IH (trace_step self g s)) as [Hne' Heq].
  - unfold trace_step, chunk_step. simpl. rewrite Hclose. simpl.
    by destruct (overlap_loop _ _ _ _).1.
  - unfold trace_step, chunk_step. simpl. rewrite Hclose. simpl.
    fold (carried self (current_chunk (src g))).
    rewrite Hov, total_len_app. simpl. lia.
  - split; [done|]. rewrite Heq.
    unfold trace_step, chunk_step. simpl. rewrite Hclose. simpl.
    fold (carried self (current_chunk (src g))).
    by rewrite fmap_app, <- app_assoc.
Qed.

Lemma buffers_narrow self ss :
  chunk_size self ≤ 0 → Forall (λ s, s ≠ []) ss →
  (buffers self ss).*2 = one_sentence_buffers self [] ss.
Proof.
  intros Hcs Hss. destruct Hss as [|s ss Hs Hss]; [done|].
  unfold buffers. simpl fold_left.
  assert (Hstep : trace_step self trace_init s
                  = {| src := {| chunks := []; current_chunk := [s];
                                 current_size := len s |};
                       closed := []; start := 0; consumed := 1 |}).
  { unfold trace_step, chunk_step, closes. simpl.
    by rewrite andb_false_r. }
  rewrite Hstep.
  set (g := {| src := {| chunks := []; current_chunk := [s];
                         current_size := len s |};
               closed := []; start := 0%nat; consumed := 1%nat |}).
  destruct (trace_narrow self ss g Hcs Hss) as [Hne Heq].
  - done.
  - simpl. lia.
  - destruct (current_chunk (src (fold_left _ ss _))) as [|s0 b] eqn:Hb;
      [done|].
    rewrite fmap_app. simpl. by rewrite Heq.
Qed.

(** C9 (as amended).  [__init__] never fails: whatever the three
    arguments, it returns a chunker that holds them as given.  A
    [chunk_size ≤ 0] shows only when the chunker is used: every
    sentence but the first closes the buffer before it, so that each
    buffer holds the sentences carried over from the buffer before and
    one sentence more, and the chunks returned are the joined buffers
    that pass the minimum-size test.  This holds for every list of
    non-empty sentences, and so for the sentences of every text. *)
Theorem init_never_fails (chunk_size chunk_overlap min_chunk_size : Z) :
  ∃ self,
    __init__ chunk_size chunk_overlap min_chunk_size = Returns self
    ∧ Chunker.chunk_size self = chunk_size
    ∧ Chunker.chunk_overlap self = chunk_overlap
    ∧ Chunker.min_chunk_size self = min_chunk_size
    ∧ (chunk_size ≤ 0 →
       (∀ sentences, Forall (λ s, s ≠ []) sentences →
          (buffers self sentences).*2 = one_sentence_buffers self [] sentences
          ∧ _create_chunks self sentences
            = join (u " ")
              <$> filter (λ b, kept self b)
                         (one_sentence_buffers self [] sentences))
       ∧ (∀ text,
            _create_chunks self (_split_sentences text)
            = join (u " ")
              <$> filter (λ b, kept self b)
                         (one_sentence_buffers self [] (_split_sentences text)))).
Proof.
  set (self := {| Chunker.chunk_size := chunk_size;
                  Chunker.chunk_overlap := chunk_overlap;
                  Chunker.min_chunk_size := min_chunk_size |}).
  exists self. split; [reflexivity|]. split_and!; try done.
  change (Chunker.chunk_size self ≤ 0 →
          (∀ sentences, Forall (λ s, s ≠ []) sentences →
             (buffers self sentences).*2
             = one_sentence_buffers self [] sentences
             ∧ _create_chunks self sentences
               = join (u " ")
                 <$> filter (λ b, kept self b)
                            (one_sentence_buffers self [] sentences))
          ∧ (∀ text,
               _create_chunks self (_split_sentences text)
               = join (u " ")
                 <$> filter (λ b, kept self b)
                            (one_sentence_buffers self []
                               (_split_sentences text)))).
  intros Hcs.
  assert (H : ∀ sentences, Forall (λ s, s ≠ []) sentences →
            (buffers self sentences).*2
            = one_sentence_buffers self [] sentences
            ∧ _create_chunks self sentences
              = join (u " ")
                <$> filter (λ b, kept self b)
                           (one_sentence_buffers self [] sentences)).
  { intros ss Hss. split; [by apply buffers_narrow|].
    destruct (buffers_spec self ss) as [-> _].
    by rewrite buffers_narrow. }
  split; [exact H|].
  intros text. apply H, split_sentences_nonempty.
Qed.

(** With [chunk_size = 0] and an overlap of 4 characters every
    sentence makes a buffer: "Aaaaa." is too long to be carried into the
    second, "Bb." is carried into the third. *)
Example one_sentence_buffers_three :
  let self := {| Chunker.chunk_size := 0; Chunker.chunk_overlap := 4;
                 Chunker.min_chunk_size := 0 |} in
  buffers self [u "Aaaaa."; u "Bb."; u "Cc."]
  = [(0%nat, [u "Aaaaa."]); (1%nat, [u "Bb."]); (1%nat, [u "Bb."; u "Cc."])]
  ∧ _create_chunks self [u "Aaaaa."; u "Bb."; u "Cc."]
    = [u "Aaaaa."; u "Bb."; u "Bb. Cc."].
Proof. vm_compute. done. Qed.

End ChunkerNarrowFacts.
